(** * Greenlight: the movie record store

    A shallow embedding of the movie model of package [data] (the
    [MovieModel] repository and [ValidateMovie]) together with the
    PostgreSQL statements it issues, and of the handlers of the movie
    endpoints in [cmd/api]; and the properties of the store that the
    specification states: validation, optimistic-concurrency update,
    point reads and deletes, and the filtered, sorted, paginated listing,
    followed by the properties of their composition and of the handlers. *)

From Stdlib Require Import ZArith Lia Ascii String OrdersEx.
From Stdlib Require Import DecimalString DecimalZ DecimalPos.
From stdpp Require Import base option list sorting gmap strings.

Local Open Scope Z_scope.

(** ** Go values *)

(** Fixed-width signed integers are integers of [Z] inside their range; a
    conversion [int32(x)] wraps around. *)
Definition int32_min : Z := - 2 ^ 31.
Definition int32_max : Z := 2 ^ 31 - 1.
Definition int64_min : Z := - 2 ^ 63.
Definition int64_max : Z := 2 ^ 63 - 1.

Definition in_int32 (z : Z) : Prop := int32_min ≤ z ≤ int32_max.
Definition in_int64 (z : Z) : Prop := int64_min ≤ z ≤ int64_max.

Definition int32 (z : Z) : Z := (z + 2 ^ 31) `mod` 2 ^ 32 - 2 ^ 31.

(** A Go slice is either [nil] or a (possibly empty) sequence. *)
Definition slice (A : Type) : Type := option (list A).

Definition len {A} (s : slice A) : nat :=
  match s with
  | None => 0%nat
  | Some l => length l
  end.

Definition elems {A} (s : slice A) : list A := default [] s.

(** ** Errors

    [sql.ErrNoRows] is the one backend signal the store inspects;
    [ErrRecordNotFound] and [ErrEditConflict] are the store's own sentinels;
    every other failure of the driver or of the engine is an opaque error
    carrying its message. *)
Inductive error : Type :=
  | ErrNoRows
  | ErrRecordNotFound
  | ErrEditConflict
  | ErrDriver (msg : string).

Global Instance error_eq_dec : EqDecision error.
Proof. solve_decision. Defined.

(** [errors.Is(err, target)] on these chain-free errors. *)
Definition errors_Is (err target : error) : bool := bool_decide (err = target).

Inductive result (A : Type) : Type :=
  | Ok (a : A)
  | Err (e : error).
Global Arguments Ok {A} a.
Global Arguments Err {A} e.

Global Instance result_ret : MRet result := λ A a, Ok a.
Global Instance result_bind : MBind result := λ A B k r,
  match r with
  | Ok a => k a
  | Err e => Err e
  end.

(** ** The validator package *)
Module validator.

(** Modelled from the spec: the [validator] package is not part of the
    sources.  A validator is the "structured error map" from a field name
    to a reason; it is valid when the map is empty.  [Check] records the
    reason under the field when the condition is false.  Which reason a
    field keeps when several of its checks fail is left open by the spec;
    here the one recorded first stays. *)
Abbreviation Validator := (gmap string string).

Definition New : Validator := ∅.

Definition Valid (v : Validator) : bool := bool_decide (v = ∅).

Definition AddError (key message : string) (v : Validator) : Validator :=
  match v !! key with
  | Some _ => v
  | None => <[key := message]> v
  end.

Definition Check (ok : bool) (key message : string) (v : Validator)
  : Validator :=
  if ok then v else AddError key message v.

(** Modelled from the spec: "all distinct (case-sensitive exact match)". *)
Definition Unique (values : slice string) : bool :=
  bool_decide (NoDup (elems values)).

End validator.

(** ** Movies *)

Record Movie : Type := mkMovie {
  ID : Z;                    (* int64 *)
  CreatedAt : Z;             (* time.Time, as an instant *)
  Title : string;
  Year : Z;                  (* int32 *)
  Runtime : Z;               (* type Runtime int32 *)
  Genres : slice string;
  Version : Z                (* int32 *)
}.

Global Instance Movie_eq_dec : EqDecision Movie.
Proof. solve_decision. Defined.

(** The zero value [var movie Movie]. *)
Definition Movie_zero : Movie := mkMovie 0 0 EmptyString 0 0 None 0.

Section ValidateMovie.

(** [time.Now().Year()], read from the clock. *)
Variable time_Now_Year : Z.

Definition ValidateMovie (v : validator.Validator) (movie : Movie)
  : validator.Validator :=
  let v := validator.Check (negb (String.eqb (Title movie) EmptyString))
             "title" "must be provided" v in
  let v := validator.Check (bool_decide (String.length (Title movie) ≤ 500)%nat)
             "title" "must not be more than 500 bytes long" v in

  let v := validator.Check (negb (Year movie =? 0))
             "year" "must be provided" v in
  let v := validator.Check (Year movie >=? 1888)
             "year" "must be greater than 1888" v in
  let v := validator.Check (Year movie <=? int32 time_Now_Year)
             "year" "must not be in the future" v in

  let v := validator.Check (negb (Runtime movie =? 0))
             "runtime" "must be provided" v in
  let v := validator.Check (Runtime movie >? 0)
             "runtime" "must be a positive integer" v in

  let v := validator.Check (bool_decide (Genres movie ≠ None))
             "genres" "must be provided" v in
  let v := validator.Check (bool_decide (1 ≤ len (Genres movie))%nat)
             "genres" "must contain at least 1 genre" v in
  let v := validator.Check (bool_decide (len (Genres movie) ≤ 5)%nat)
             "genres" "must not contain more than 5 genres" v in
  validator.Check (validator.Unique (Genres movie))
             "genres" "must not contain duplicate values" v.

End ValidateMovie.

(** ** Filters and pagination metadata *)

Record Filters : Type := mkFilters {
  Page : Z;
  PageSize : Z;
  Sort : string;
  SortSafelist : list string
}.

(** [strings.HasPrefix(s, "-")] and [strings.TrimPrefix(s, "-")]. *)
Definition HasPrefix_dash (s : string) : bool :=
  match s with
  | String "-"%char _ => true
  | _ => false
  end.

Definition TrimPrefix_dash (s : string) : string :=
  match s with
  | String "-"%char rest => rest
  | _ => s
  end.

(** Modelled from the spec: the methods of [Filters] are not part of the
    sources.  The sort key names a column, "a leading - means descending",
    and it "must belong to a caller-supplied safelist" before it is
    interpolated: [sortColumn] answers [None] (the store refuses to build
    the query) for a key outside the safelist. *)
Definition sortColumn (f : Filters) : option string :=
  if bool_decide (Sort f ∈ SortSafelist f)
  then Some (TrimPrefix_dash (Sort f))
  else None.

Definition sortDirection (f : Filters) : string :=
  if HasPrefix_dash (Sort f) then "DESC" else "ASC".

(** Modelled from the spec: "LIMIT page_size OFFSET (page-1)*page_size". *)
Definition limit (f : Filters) : Z := PageSize f.
Definition offset (f : Filters) : Z := (Page f - 1) * PageSize f.

Module Metadata.
Record t : Type := mk {
  CurrentPage : Z;
  PageSize : Z;
  FirstPage : Z;
  LastPage : Z;
  TotalRecords : Z
}.
(** The zero value [Metadata{}]. *)
Definition zero : t := mk 0 0 0 0 0.
End Metadata.

Global Instance Metadata_eq_dec : EqDecision Metadata.t.
Proof. solve_decision. Defined.

(** The least [n] with [n * b >= a], for a positive [b]. *)
Definition ceil_div (a b : Z) : Z := - ((- a) `div` b).

(** Modelled from the spec: [calculateMetadata] is not part of the sources.
    "current_page, page_size, first_page=1, last_page = ceil(total_records /
    page_size), total_records.  When total_records == 0, all derived fields
    are zero". *)
Definition calculateMetadata (totalRecords page pageSize : Z) : Metadata.t :=
  if totalRecords =? 0 then Metadata.zero
  else Metadata.mk page pageSize 1 (ceil_div totalRecords pageSize) totalRecords.

(** ** The database/sql interface *)

(** What the driver hands over for a column, and what a placeholder can be
    bound to: integers arrive as int64, timestamps as an instant, [text[]]
    arrays through [pq.Array]. *)
Inductive value : Type :=
  | VNull
  | VInt (z : Z)
  | VText (s : string)
  | VTime (t : Z)
  | VArray (a : list string).

Abbreviation tuple := (list value).

(** [pq.Array(genres)] as a bound parameter: a nil slice is sent as NULL. *)
Definition pq_Array (s : slice string) : option (list string) := s.

(** The five statements of the store, with their bound parameters.  The two
    strings of [SelectMovies] are interpolated into the text of the query
    (the ORDER BY column and direction); everything else is a placeholder. *)
Inductive statement : Type :=
  | InsertMovie (title : string) (year runtime : Z) (genres : option (list string))
  | SelectMovie (id : Z)
  | UpdateMovie (title : string) (year runtime : Z) (genres : option (list string))
                (id version : Z)
  | DeleteMovie (id : Z)
  | SelectMovies (column direction : string)
                 (title : string) (genres : option (list string))
                 (limit offset : Z).

(** [*sql.Rows]: the tuples that [rows.Next()] delivers, and [rows.Err()]. *)
Record Rows : Type := mkRows {
  Rows_tuples : list tuple;
  Rows_Err : option error
}.

(** [sql.Result]: what [RowsAffected()] returns. *)
Abbreviation Result := (result Z).

(** The connection pool [*sql.DB], over the state [W] of whatever is behind
    it.  Each call is one request. *)
Record sql_DB (W : Type) : Type := mkConn {
  QueryContext : statement → W → result Rows * W;
  ExecContext : statement → W → result Result * W
}.
Global Arguments QueryContext {W}.
Global Arguments ExecContext {W}.

(** A scan destination: [convertAssign] of one column into a part of [S]. *)
Definition dest (S : Type) : Type := value → S → result S.

Definition unsupported_Scan : error :=
  ErrDriver "sql: Scan error: unsupported Scan, storing driver.Value into destination".
Definition out_of_range : error :=
  ErrDriver "sql: Scan error: converting driver.Value: value out of range".

Definition into_int64 {S} (set : Z → S → S) : dest S := λ v s,
  match v with
  | VInt z => if bool_decide (in_int64 z) then Ok (set z s) else Err out_of_range
  | _ => Err unsupported_Scan
  end.

Definition into_int32 {S} (set : Z → S → S) : dest S := λ v s,
  match v with
  | VInt z => if bool_decide (in_int32 z) then Ok (set z s) else Err out_of_range
  | _ => Err unsupported_Scan
  end.

Definition into_string {S} (set : string → S → S) : dest S := λ v s,
  match v with
  | VText x => Ok (set x s)
  | _ => Err unsupported_Scan
  end.

Definition into_Time {S} (set : Z → S → S) : dest S := λ v s,
  match v with
  | VTime x => Ok (set x s)
  | _ => Err unsupported_Scan
  end.

(** [pq.Array(&x)] as a destination: NULL scans to a nil slice. *)
Definition into_pq_Array {S} (set : slice string → S → S) : dest S := λ v s,
  match v with
  | VArray a => Ok (set (Some a) s)
  | VNull => Ok (set None s)
  | _ => Err unsupported_Scan
  end.

(** Destinations are filled from left to right; the first failing conversion
    stops the scan and leaves the earlier ones written. *)
Fixpoint assign_all {S} (ds : list (dest S)) (t : tuple) (s : S)
  : S * option error :=
  match ds, t with
  | d :: ds, v :: t =>
      match d v s with
      | Ok s' => assign_all ds t s'
      | Err e => (s, Some e)
      end
  | _, _ => (s, None)
  end.

(** [rows.Scan(dest...)] on the current tuple. *)
Definition Rows_Scan {S} (t : tuple) (ds : list (dest S)) (s : S)
  : S * option error :=
  if bool_decide (length ds = length t) then assign_all ds t s
  else (s, Some (ErrDriver "sql: wrong number of destination arguments in Scan")).

(** [QueryRowContext(...).Scan(dest...)]: the error of the query; else, when
    there is no first tuple, the error of the iteration or [sql.ErrNoRows];
    else the scan of the first tuple and then the closing of the rows, which
    reports the error the reply ended with. *)
Definition Row_Scan {S} (r : result Rows) (ds : list (dest S)) (s : S)
  : S * option error :=
  match r with
  | Err e => (s, Some e)
  | Ok rows =>
      match Rows_tuples rows with
      | [] => (s, Some (default ErrNoRows (Rows_Err rows)))
      | t :: _ =>
          let '(s, err) := Rows_Scan t ds s in
          match err with
          | Some err => (s, Some err)
          | None => (s, Rows_Err rows)
          end
      end
  end.

(** The fields of a movie as scan targets. *)
Definition set_ID (z : Z) (m : Movie) : Movie :=
  mkMovie z (CreatedAt m) (Title m) (Year m) (Runtime m) (Genres m) (Version m).
Definition set_CreatedAt (t : Z) (m : Movie) : Movie :=
  mkMovie (ID m) t (Title m) (Year m) (Runtime m) (Genres m) (Version m).
Definition set_Title (x : string) (m : Movie) : Movie :=
  mkMovie (ID m) (CreatedAt m) x (Year m) (Runtime m) (Genres m) (Version m).
Definition set_Year (z : Z) (m : Movie) : Movie :=
  mkMovie (ID m) (CreatedAt m) (Title m) z (Runtime m) (Genres m) (Version m).
Definition set_Runtime (z : Z) (m : Movie) : Movie :=
  mkMovie (ID m) (CreatedAt m) (Title m) (Year m) z (Genres m) (Version m).
Definition set_Genres (g : slice string) (m : Movie) : Movie :=
  mkMovie (ID m) (CreatedAt m) (Title m) (Year m) (Runtime m) g (Version m).
Definition set_Version (z : Z) (m : Movie) : Movie :=
  mkMovie (ID m) (CreatedAt m) (Title m) (Year m) (Runtime m) (Genres m) z.

(** ** The movie model *)

(** [type MovieModel struct { DB *sql.DB }]. *)
Record MovieModel (W : Type) : Type := mkMovieModel { DB : sql_DB W }.
Global Arguments DB {W}.
Global Arguments mkMovieModel {W}.

(** [QueryRowContext] runs the query; its [*sql.Row] is read by [Row_Scan]. *)
Definition QueryRowContext {W} (db : sql_DB W) (query : statement) (w : W)
  : result Rows * W :=
  QueryContext db query w.

(** One iteration state of the listing loop: [totalRecords] and the movie
    being scanned. *)
Definition set_totalRecords (z : Z) (s : Z * Movie) : Z * Movie := (z, s.2).
Definition on_movie {A} (set : A → Movie → Movie) (x : A) (s : Z * Movie)
  : Z * Movie := (s.1, set x s.2).

Section MovieModel.

Context {W : Type}.
Implicit Types (m : MovieModel W) (w : W).

Definition Insert m (movie : Movie) w : (Movie * option error) * W :=
  let query :=
    InsertMovie (Title movie) (Year movie) (Runtime movie)
                (pq_Array (Genres movie)) in
  let '(row, w) := QueryRowContext (DB m) query w in
  (Row_Scan row
     [into_int64 set_ID; into_Time set_CreatedAt; into_int32 set_Version]
     movie, w).

Definition Get m (id : Z) w : (option Movie * option error) * W :=
  if bool_decide (id < 1) then ((None, Some ErrRecordNotFound), w)
  else
    let query := SelectMovie id in
    let '(row, w) := QueryRowContext (DB m) query w in
    let '(movie, err) :=
      Row_Scan row
        [into_int64 set_ID; into_Time set_CreatedAt; into_string set_Title;
         into_int32 set_Year; into_int32 set_Runtime;
         into_pq_Array set_Genres; into_int32 set_Version]
        Movie_zero in
    match err with
    | Some err =>
        if errors_Is err ErrNoRows then ((None, Some ErrRecordNotFound), w)
        else ((None, Some err), w)
    | None => ((Some movie, None), w)
    end.

Definition Update m (movie : Movie) w : (Movie * option error) * W :=
  let query :=
    UpdateMovie (Title movie) (Year movie) (Runtime movie)
                (pq_Array (Genres movie)) (ID movie) (Version movie) in
  let '(row, w) := QueryRowContext (DB m) query w in
  let '(movie, err) := Row_Scan row [into_int32 set_Version] movie in
  match err with
  | Some err =>
      if errors_Is err ErrNoRows then ((movie, Some ErrEditConflict), w)
      else ((movie, Some err), w)
  | None => ((movie, None), w)
  end.

Definition Delete m (id : Z) w : option error * W :=
  if bool_decide (id < 1) then (Some ErrRecordNotFound, w)
  else
    let query := DeleteMovie id in
    let '(res, w) := ExecContext (DB m) query w in
    match res with
    | Err err => (Some err, w)
    | Ok result =>
        match result with
        | Err err => (Some err, w)
        | Ok rowsAffected =>
            if rowsAffected =? 0 then (Some ErrRecordNotFound, w)
            else (None, w)
        end
    end.

(** The [for rows.Next()] loop of [GetAll]: every tuple is scanned into
    [totalRecords] and a fresh movie, which is appended. *)
Fixpoint scan_movies (ts : list tuple) (totalRecords : Z)
    (movies : list Movie) : result (Z * list Movie) :=
  match ts with
  | [] => Ok (totalRecords, movies)
  | t :: ts =>
      let '(s, err) :=
        Rows_Scan t
          [into_int64 set_totalRecords;
           into_int64 (on_movie set_ID); into_Time (on_movie set_CreatedAt);
           into_string (on_movie set_Title); into_int32 (on_movie set_Year);
           into_int32 (on_movie set_Runtime);
           into_pq_Array (on_movie set_Genres);
           into_int32 (on_movie set_Version)]
          (totalRecords, Movie_zero) in
      match err with
      | Some err => Err err
      | None => scan_movies ts s.1 (movies ++ [s.2])
      end
  end.

(** [GetAll] answers [None] when [sortColumn] refuses the sort key, before
    any query is built. *)
Definition GetAll m (title : string) (genres : slice string)
    (filters : Filters) w
  : option ((slice Movie * Metadata.t * option error) * W) :=
  column ← sortColumn filters;
  let query :=
    SelectMovies column (sortDirection filters)
                 title (pq_Array genres) (limit filters) (offset filters) in
  let '(rows, w) := QueryContext (DB m) query w in
  Some
    match rows with
    | Err err => ((None, Metadata.zero, Some err), w)
    | Ok rows =>
        match scan_movies (Rows_tuples rows) 0 [] with
        | Err err => ((None, Metadata.zero, Some err), w)
        | Ok (totalRecords, movies) =>
            match Rows_Err rows with
            | Some err => ((None, Metadata.zero, Some err), w)
            | None =>
                let metadata :=
                  calculateMetadata totalRecords (Page filters)
                                    (PageSize filters) in
                ((Some movies, metadata, None), w)
            end
        end
    end.

End MovieModel.

(** ** The PostgreSQL engine behind the pool *)

(** Modelled from the spec: the table definition (the migrations) is not
    part of the sources.  "One table keyed by an auto-incrementing positive
    integer primary key, with columns for the four mutable fields, a
    server-assigned creation timestamp, and an integer version column
    defaulting to 1"; the tags are "a native array" of text.  The integer
    columns are 32-bit like the Go fields they are scanned into, the key is
    64-bit, and no column is nullable. *)
Module movies.
Record row : Type := mk {
  id : Z;
  created_at : Z;
  title : string;
  year : Z;
  runtime : Z;
  genres : list string;
  version : Z
}.
Definition version_default : Z := 1.
End movies.

Global Instance movies_row_eq_dec : EqDecision movies.row.
Proof. solve_decision. Defined.

(** The text facilities of the engine that the sources leave to the
    configuration of the database: the full-text match
    [to_tsvector('simple', title) @@ plainto_tsquery('simple', q)] and the
    collation order of text. *)
Record Engine : Type := mkEngine {
  fts_match : string → string → bool;
  text_leb : string → string → bool
}.

Record Database : Type := mkDatabase {
  movies_table : list movies.row;
  movies_id_seq : Z;               (* the next value of the key sequence *)
  clock : Z;                       (* now() *)
  requests : list statement        (* every request received, latest first *)
}.

Definition with_table (t : list movies.row) (db : Database) : Database :=
  mkDatabase t (movies_id_seq db) (clock db) (requests db).
Definition with_next_id (db : Database) : Database :=
  mkDatabase (movies_table db) (movies_id_seq db + 1) (clock db) (requests db).
Definition received (s : statement) (db : Database) : Database :=
  mkDatabase (movies_table db) (movies_id_seq db) (clock db) (s :: requests db).

Definition integer_out_of_range : error := ErrDriver "pq: integer out of range".
Definition not_null_violation : error :=
  ErrDriver "pq: null value in column violates not-null constraint".

(** SELECT id, created_at, title, year, runtime, genres, version *)
Definition tuple_of_row (r : movies.row) : tuple :=
  [VInt (movies.id r); VTime (movies.created_at r); VText (movies.title r);
   VInt (movies.year r); VInt (movies.runtime r); VArray (movies.genres r);
   VInt (movies.version r)].

(** INSERT INTO movies (title, year, runtime, genres) VALUES ($1, $2, $3, $4)
    RETURNING id, created_at, version *)
Definition pg_insert (title : string) (year runtime : Z)
    (genres : option (list string)) (db : Database)
  : result (list tuple) * Database :=
  let id := movies_id_seq db in
  if bool_decide (int64_max < id)
  then (Err (ErrDriver "pq: nextval: reached maximum value of sequence"), db)
  else
    let db := with_next_id db in
    match genres with
    | None => (Err not_null_violation, db)
    | Some genres =>
        if bool_decide (in_int32 year ∧ in_int32 runtime) then
          let r := movies.mk id (clock db) title year runtime genres
                             movies.version_default in
          (Ok [[VInt (movies.id r); VTime (movies.created_at r);
                VInt (movies.version r)]],
           with_table (movies_table db ++ [r]) db)
        else (Err integer_out_of_range, db)
    end.

(** SELECT ... FROM movies WHERE id = $1 *)
Definition pg_select (id : Z) (db : Database) : list tuple :=
  tuple_of_row <$> filter (λ r, movies.id r = id) (movies_table db).

(** UPDATE movies SET title = $1, year = $2, runtime = $3, genres = $4,
    version = version + 1 WHERE id = $5 AND version = $6 RETURNING version *)
Definition update_matches (id version : Z) (r : movies.row) : Prop :=
  movies.id r = id ∧ movies.version r = version.

Global Instance update_matches_dec id version r :
  Decision (update_matches id version r).
Proof. unfold update_matches. apply _. Defined.

Definition update_row (title : string) (year runtime : Z)
    (genres : list string) (r : movies.row) : movies.row :=
  movies.mk (movies.id r) (movies.created_at r) title year runtime genres
            (movies.version r + 1).

Definition pg_update (title : string) (year runtime : Z)
    (genres : option (list string)) (id version : Z) (db : Database)
  : result (list tuple) * Database :=
  let matched := filter (update_matches id version) (movies_table db) in
  match matched with
  | [] => (Ok [], db)
  | _ :: _ =>
      match genres with
      | None => (Err not_null_violation, db)
      | Some genres =>
          if bool_decide (in_int32 year ∧ in_int32 runtime
                          ∧ in_int32 (version + 1)) then
            let set r :=
              if decide (update_matches id version r)
              then update_row title year runtime genres r else r in
            (Ok ((λ r, [VInt (movies.version r + 1)]) <$> matched),
             with_table (set <$> movies_table db) db)
          else (Err integer_out_of_range, db)
      end
  end.

(** DELETE FROM movies WHERE id = $1, with the number of rows removed. *)
Definition pg_delete (id : Z) (db : Database) : Z * Database :=
  let removed := filter (λ r, movies.id r = id) (movies_table db) in
  (Z.of_nat (length removed),
   with_table (filter (λ r, movies.id r ≠ id) (movies_table db)) db).

(** *** The listing query *)

(** SQL truth values: [None] is NULL.  A WHERE clause keeps the rows on
    which it is true. *)
Definition sql_or (a b : option bool) : option bool :=
  match a, b with
  | Some true, _ | _, Some true => Some true
  | Some false, Some false => Some false
  | _, _ => None
  end.

Definition sql_and (a b : option bool) : option bool :=
  match a, b with
  | Some false, _ | _, Some false => Some false
  | Some true, Some true => Some true
  | _, _ => None
  end.

(** [a @> b]: every element of [b] is an element of [a], compared as text. *)
Definition array_contains (a b : list string) : bool :=
  forallb (λ x, bool_decide (x ∈ a)) b.

(** WHERE (to_tsvector('simple', title) @@ plainto_tsquery('simple', $1)
           OR $1 = '')
    AND (genres @> $2 OR $2 = '{}') *)
Definition where_clause (E : Engine) (p1 : string)
    (p2 : option (list string)) (r : movies.row) : option bool :=
  sql_and
    (sql_or (Some (fts_match E (movies.title r) p1))
            (Some (bool_decide (p1 = EmptyString))))
    (sql_or (array_contains (movies.genres r) <$> p2)
            ((λ a, bool_decide (a = [])) <$> p2)).

Definition matches (E : Engine) (p1 : string) (p2 : option (list string))
    (r : movies.row) : Prop :=
  where_clause E p1 p2 r = Some true.

Global Instance matches_dec E p1 p2 r : Decision (matches E p1 p2 r).
Proof. unfold matches. apply _. Defined.

Inductive column : Type :=
  | c_id | c_created_at | c_title | c_year | c_runtime | c_genres | c_version.

(** The names the engine resolves in ORDER BY are the columns of the table,
    spelled as in the table definition. *)
Definition resolve_column (name : string) : option column :=
  if bool_decide (name = "id") then Some c_id
  else if bool_decide (name = "created_at") then Some c_created_at
  else if bool_decide (name = "title") then Some c_title
  else if bool_decide (name = "year") then Some c_year
  else if bool_decide (name = "runtime") then Some c_runtime
  else if bool_decide (name = "genres") then Some c_genres
  else if bool_decide (name = "version") then Some c_version
  else None.

(** [Some true] for DESC, [Some false] for ASC. *)
Definition resolve_direction (name : string) : option bool :=
  if bool_decide (name = "ASC") then Some false
  else if bool_decide (name = "DESC") then Some true
  else None.

(** Arrays compare element by element, a proper prefix first. *)
Fixpoint array_leb (leb : string → string → bool) (a b : list string) : bool :=
  match a, b with
  | [], _ => true
  | _ :: _, [] => false
  | x :: a, y :: b =>
      if leb x y then (if leb y x then array_leb leb a b else true)
      else false
  end.

Definition column_leb (E : Engine) (c : column) (a b : movies.row) : bool :=
  match c with
  | c_id => movies.id a <=? movies.id b
  | c_created_at => movies.created_at a <=? movies.created_at b
  | c_title => text_leb E (movies.title a) (movies.title b)
  | c_year => movies.year a <=? movies.year b
  | c_runtime => movies.runtime a <=? movies.runtime b
  | c_genres => array_leb (text_leb E) (movies.genres a) (movies.genres b)
  | c_version => movies.version a <=? movies.version b
  end.

(** ORDER BY column direction, id ASC *)
Definition order_leb (E : Engine) (c : column) (desc : bool)
    (a b : movies.row) : bool :=
  let before := if desc then column_leb E c b a else column_leb E c a b in
  let after := if desc then column_leb E c a b else column_leb E c b a in
  if before then (if after then movies.id a <=? movies.id b else true)
  else false.

Definition order_le (E : Engine) (c : column) (desc : bool)
  : relation movies.row := λ a b, order_leb E c desc a b = true.

Global Instance order_le_dec E c desc a b : Decision (order_le E c desc a b).
Proof. unfold order_le. apply _. Defined.

Definition order_by (E : Engine) (c : column) (desc : bool)
    (rows : list movies.row) : list movies.row :=
  merge_sort (order_le E c desc) rows.

(** SELECT count( * ) OVER(), id, created_at, title, year, runtime, genres,
    version FROM movies WHERE ... ORDER BY column direction, id ASC
    LIMIT $3 OFFSET $4.  The window count is taken over the rows that pass
    the WHERE clause and is repeated on every tuple of the page. *)
Definition pg_select_movies (E : Engine) (col direction : string)
    (title : string) (genres : option (list string)) (limit offset : Z)
    (db : Database) : result (list tuple) :=
  match resolve_column col, resolve_direction direction with
  | Some c, Some desc =>
      if bool_decide (limit < 0)
      then Err (ErrDriver "pq: LIMIT must not be negative")
      else if bool_decide (offset < 0)
      then Err (ErrDriver "pq: OFFSET must not be negative")
      else
        let matching := filter (matches E title genres) (movies_table db) in
        let count := Z.of_nat (length matching) in
        let ordered := order_by E c desc matching in
        let page := take (Z.to_nat limit) (drop (Z.to_nat offset) ordered) in
        Ok ((λ r, VInt count :: tuple_of_row r) <$> page)
  | _, _ => Err (ErrDriver "pq: syntax error or undefined column in ORDER BY")
  end.

(** *** Requests *)

(** One statement run by the engine: its tuples, the number of rows it
    affected, and the database after it. *)
Definition pg_execute (E : Engine) (s : statement) (db : Database)
  : result (list tuple * Z) * Database :=
  match s with
  | InsertMovie title year runtime genres =>
      let '(r, db) := pg_insert title year runtime genres db in
      (ts ← r; mret (ts, Z.of_nat (length ts)), db)
  | SelectMovie id =>
      let ts := pg_select id db in
      (Ok (ts, Z.of_nat (length ts)), db)
  | UpdateMovie title year runtime genres id version =>
      let '(r, db) := pg_update title year runtime genres id version db in
      (ts ← r; mret (ts, Z.of_nat (length ts)), db)
  | DeleteMovie id =>
      let '(n, db) := pg_delete id db in
      (Ok ([], n), db)
  | SelectMovies col direction title genres limit offset =>
      (ts ← pg_select_movies E col direction title genres limit offset db;
       mret (ts, Z.of_nat (length ts)), db)
  end.

(** What can go wrong between the pool and the engine: the request never
    runs ([Refused]: no connection, timeout before execution, a constraint
    of the table), or it runs and the reply breaks off after [n] tuples
    ([Truncated]: timeout or connection loss afterwards). *)
Inductive fault : Type :=
  | Healthy
  | Refused (msg : string)
  | Truncated (n : nat) (msg : string).

Definition postgres (E : Engine) (f : fault) : sql_DB Database := {|
  QueryContext s db :=
    let db := received s db in
    match f with
    | Healthy =>
        let '(r, db) := pg_execute E s db in
        (a ← r; mret (mkRows a.1 None), db)
    | Refused msg => (Err (ErrDriver msg), db)
    | Truncated n msg =>
        let '(r, db) := pg_execute E s db in
        (a ← r; mret (mkRows (take n a.1) (Some (ErrDriver msg))), db)
    end;
  ExecContext s db :=
    let db := received s db in
    match f with
    | Healthy =>
        let '(r, db) := pg_execute E s db in
        (a ← r; mret (Ok a.2), db)
    | Refused msg => (Err (ErrDriver msg), db)
    | Truncated _ msg => (Err (ErrDriver msg), (pg_execute E s db).2)
    end
|}.

(** The store on PostgreSQL. *)
Definition pg_model (E : Engine) (f : fault) : MovieModel Database :=
  mkMovieModel (postgres E f).

(** ** Vocabulary of the properties *)

(** The constraints of [ValidateMovie], field by field. *)
Definition title_ok (movie : Movie) : Prop :=
  Title movie ≠ EmptyString ∧ (String.length (Title movie) ≤ 500)%nat.
Definition year_ok (now : Z) (movie : Movie) : Prop :=
  Year movie ≠ 0 ∧ 1888 ≤ Year movie ∧ Year movie ≤ now.
Definition runtime_ok (movie : Movie) : Prop :=
  Runtime movie ≠ 0 ∧ 0 < Runtime movie.
Definition genres_ok (movie : Movie) : Prop :=
  Genres movie ≠ None ∧ (1 ≤ len (Genres movie) ≤ 5)%nat
  ∧ NoDup (elems (Genres movie)).

(** A stored row read back as a movie. *)
Definition movie_of_row (r : movies.row) : Movie :=
  mkMovie (movies.id r) (movies.created_at r) (movies.title r)
          (movies.year r) (movies.runtime r) (Some (movies.genres r))
          (movies.version r).

(** The four fields a caller may set. *)
Definition same_mutable_fields (a b : Movie) : Prop :=
  Title a = Title b ∧ Year a = Year b ∧ Runtime a = Runtime b
  ∧ Genres a = Genres b.

(** What the table definition guarantees of the stored rows: the key is
    unique and was handed out by the sequence, and every column holds a
    value of its type. *)
Definition row_typed (r : movies.row) : Prop :=
  in_int64 (movies.id r) ∧ in_int32 (movies.year r)
  ∧ in_int32 (movies.runtime r) ∧ in_int32 (movies.version r).

Record consistent (db : Database) : Prop := mkConsistent {
  seq_positive : 1 ≤ movies_id_seq db;
  key_unique : NoDup (movies.id <$> movies_table db);
  key_issued : Forall (λ r, 1 ≤ movies.id r < movies_id_seq db) (movies_table db);
  rows_typed : Forall row_typed (movies_table db)
}.

(** The row stored under a key, if any. *)
Definition row_with_id (id : Z) (db : Database) : option movies.row :=
  head (filter (λ r, movies.id r = id) (movies_table db)).

(** The scan targets of a whole row, as [Get] lists them. *)
Definition Movie_dests : list (dest Movie) :=
  [into_int64 set_ID; into_Time set_CreatedAt; into_string set_Title;
   into_int32 set_Year; into_int32 set_Runtime;
   into_pq_Array set_Genres; into_int32 set_Version].

(** The statement [Update] sends for a movie, the table it leaves when it
    applies, and the range of the values it stores. *)
Definition update_statement (movie : Movie) : statement :=
  UpdateMovie (Title movie) (Year movie) (Runtime movie)
              (pq_Array (Genres movie)) (ID movie) (Version movie).

Definition updated_row (movie : Movie) (genres : list string)
    (r : movies.row) : movies.row :=
  if decide (update_matches (ID movie) (Version movie) r)
  then update_row (Title movie) (Year movie) (Runtime movie) genres r
  else r.

Definition updated_table (movie : Movie) (genres : list string)
    (t : list movies.row) : list movies.row :=
  updated_row movie genres <$> t.

Definition update_in_range (movie : Movie) : Prop :=
  in_int32 (Year movie) ∧ in_int32 (Runtime movie)
  ∧ in_int32 (Version movie + 1).

(** The statement [Insert] sends for a movie, the scan targets of the
    generated columns, and the row the engine stores. *)
Definition insert_statement (movie : Movie) : statement :=
  InsertMovie (Title movie) (Year movie) (Runtime movie)
              (pq_Array (Genres movie)).

Definition generated_dests : list (dest Movie) :=
  [into_int64 set_ID; into_Time set_CreatedAt; into_int32 set_Version].

Definition inserted_row (movie : Movie) (genres : list string)
    (db : Database) : movies.row :=
  movies.mk (movies_id_seq db) (clock db) (Title movie) (Year movie)
            (Runtime movie) genres movies.version_default.

(** The three outcomes of [Update movie] run on [db] with result [res]. *)
Definition update_result : Type := (Movie * option error) * Database.

Definition applied (movie : Movie) (db : Database) (res : update_result)
  : Prop :=
  res.1.2 = None ∧
  ∃ r genres,
    row_with_id (ID movie) db = Some r ∧
    movies.version r = Version movie ∧
    Genres movie = Some genres ∧
    res.1.1 = set_Version (Version movie + 1) movie ∧
    row_with_id (ID movie) res.2
    = Some (update_row (Title movie) (Year movie) (Runtime movie) genres r) ∧
    ∀ i, i ≠ ID movie → row_with_id i res.2 = row_with_id i db.

Definition conflict (movie : Movie) (db : Database) (res : update_result)
  : Prop :=
  res.1.2 = Some ErrEditConflict ∧
  res.1.1 = movie ∧
  movies_table res.2 = movies_table db ∧
  ∀ r, row_with_id (ID movie) db = Some r → movies.version r ≠ Version movie.

Definition failed (res : update_result) : Prop :=
  ∃ msg, res.1.2 = Some (ErrDriver msg).

(** The rows that pass the WHERE clause of the listing, the same rows in
    the order of the ORDER BY clause, and the window LIMIT and OFFSET cut. *)
Definition matching (E : Engine) (title : string)
    (genres : option (list string)) (db : Database) : list movies.row :=
  filter (matches E title genres) (movies_table db).

Definition listing (E : Engine) (c : column) (desc : bool) (title : string)
    (genres : option (list string)) (db : Database) : list movies.row :=
  order_by E c desc (matching E title genres db).

Definition window {A} (limit offset : Z) (l : list A) : list A :=
  take (Z.to_nat limit) (drop (Z.to_nat offset) l).

(** A sort key that passes the safelist and names a column of the table. *)
Definition sort_resolves (sort : string) (safelist : list string)
    (c : column) (desc : bool) : Prop :=
  sort ∈ safelist ∧
  resolve_column (TrimPrefix_dash sort) = Some c ∧
  desc = HasPrefix_dash sort.

Definition list_statement (title : string) (genres : slice string)
    (filters : Filters) : statement :=
  SelectMovies (TrimPrefix_dash (Sort filters)) (sortDirection filters)
               title (pq_Array genres) (limit filters) (offset filters).

(** The scan targets of one tuple of the listing, as [GetAll] lists them. *)
Definition listing_dests : list (dest (Z * Movie)) :=
  [into_int64 set_totalRecords;
   into_int64 (on_movie set_ID); into_Time (on_movie set_CreatedAt);
   into_string (on_movie set_Title); into_int32 (on_movie set_Year);
   into_int32 (on_movie set_Runtime);
   into_pq_Array (on_movie set_Genres);
   into_int32 (on_movie set_Version)].

(** A caller editing a movie it holds: new values for the mutable fields,
    the key and the version it read are kept. *)
Record edit : Type := mkEdit {
  edit_title : string;
  edit_year : Z;
  edit_runtime : Z;
  edit_genres : list string
}.

Definition apply_edit (e : edit) (movie : Movie) : Movie :=
  mkMovie (ID movie) (CreatedAt movie) (edit_title e) (edit_year e)
          (edit_runtime e) (Some (edit_genres e)) (Version movie).

(** Successive updates of one movie, each sent with the version that the
    previous one returned; [None] as soon as one of them fails. *)
Fixpoint Updates (E : Engine) (steps : list (fault * edit)) (movie : Movie)
    (db : Database) : option (Movie * Database) :=
  match steps with
  | [] => Some (movie, db)
  | (f, e) :: steps =>
      let '((movie, err), db) := Update (pg_model E f) (apply_edit e movie) db in
      match err with
      | None => Updates E steps movie db
      | Some _ => None
      end
  end.


(** A total preorder on text, as every collation is. *)
Record collation (E : Engine) : Prop := mkCollation {
  text_total : ∀ a b, text_leb E a b = true ∨ text_leb E b a = true;
  text_trans : ∀ a b c,
    text_leb E a b = true → text_leb E b c = true → text_leb E a c = true
}.

(** A sample engine and table for the run-through examples: titles are
    compared byte by byte, and the search matches a title equal to the
    query. *)
Module sample.
Definition bytewise_leb (a b : string) : bool :=
  match String_as_OT.compare a b with
  | Gt => false
  | _ => true
  end.
Definition engine : Engine := mkEngine String.eqb bytewise_leb.
Definition row (i : Z) : movies.row :=
  movies.mk i 1000 "Alpha" (2000 + i `mod` 3) 90 ["drama"] 1.
(** Twenty-five rows with keys 1 to 25. *)
Definition db : Database :=
  mkDatabase (row <$> (Z.of_nat <$> seq 1 25)) 26 5000 [].
Definition safelist : list string :=
  ["id"; "title"; "year"; "runtime"; "-id"; "-title"; "-year"; "-runtime"].
Definition movie : Movie :=
  mkMovie 3 1000 "Alpha (restored)" 2000 95 (Some ["drama"; "war"]) 1.
End sample.

(** ** The order a sort key asks for

    The order of the listing in the words of the specification, to be
    compared with the ORDER BY clause of the engine: "by the validated sort
    column, in the requested direction, with a secondary ascending
    tie-break on id".  It is read off the sort key itself, the name of a
    column with a leading [-] for descending, and off the values the two
    rows hold in that column; text is compared in the collation of the
    engine. *)

(** [a] comes before [b]: its value comes strictly first in the direction
    asked for, or the values tie and its id is the smaller one. *)
Definition before_by {A} (lt tie : relation A) (value : movies.row → A)
    (descending : bool) : relation movies.row := λ a b,
  (if descending then lt (value b) (value a) else lt (value a) (value b))
  ∨ (tie (value a) (value b) ∧ movies.id a < movies.id b).

Definition text_lt (E : Engine) : relation string := λ x y,
  text_leb E x y = true ∧ text_leb E y x = false.
Definition text_tie (E : Engine) : relation string := λ x y,
  text_leb E x y = true ∧ text_leb E y x = true.

Definition requested_before (E : Engine) (sort : string)
  : relation movies.row :=
  if decide (sort = "id") then before_by Z.lt eq movies.id false
  else if decide (sort = "-id") then before_by Z.lt eq movies.id true
  else if decide (sort = "created_at")
  then before_by Z.lt eq movies.created_at false
  else if decide (sort = "-created_at")
  then before_by Z.lt eq movies.created_at true
  else if decide (sort = "title")
  then before_by (text_lt E) (text_tie E) movies.title false
  else if decide (sort = "-title")
  then before_by (text_lt E) (text_tie E) movies.title true
  else if decide (sort = "year") then before_by Z.lt eq movies.year false
  else if decide (sort = "-year") then before_by Z.lt eq movies.year true
  else if decide (sort = "runtime")
  then before_by Z.lt eq movies.runtime false
  else if decide (sort = "-runtime")
  then before_by Z.lt eq movies.runtime true
  else if decide (sort = "version")
  then before_by Z.lt eq movies.version false
  else if decide (sort = "-version")
  then before_by Z.lt eq movies.version true
  else λ _ _, False.

(** The sort keys that name a column of numbers, times or text. *)
Definition scalar_sort_keys : list string :=
  ["id"; "-id"; "created_at"; "-created_at"; "title"; "-title";
   "year"; "-year"; "runtime"; "-runtime"; "version"; "-version"].

(** ** Other callers *)

(** The requests of any number of callers reaching the engine one after the
    other, each with what happens to it on the way. *)
Fixpoint traffic (E : Engine) (rs : list (fault * statement)) (db : Database)
  : Database :=
  match rs with
  | [] => db
  | (f, s) :: rs => traffic E rs (QueryContext (postgres E f) s db).2
  end.

(** A row as later requests may have left it: not older, and the same row if
    the version is the same. *)
Definition descends (r r' : movies.row) : Prop :=
  movies.version r ≤ movies.version r'
  ∧ (movies.version r' = movies.version r → r' = r).


(** ** The handlers of the movie endpoints

    The handlers of [cmd/api] answer through the helpers of the application
    ([notFoundResponse], [writeJSON], ...), which are not part of the
    sources, and read the request through [readIDParam] and [readJSON].  A
    handler is run on what the reading helpers return and on what
    [writeJSON] reports; its result is the list of the answering helpers it
    calls, in order and with their arguments, and the store it leaves. *)

(** [envelope{"movie": movie}], [envelope{"message": ...}] and
    [envelope{"movies": movies, "metadata": metadata}]; [movie] is a
    [*data.Movie]. *)
Inductive envelope : Type :=
  | envelope_movie (movie : option Movie)
  | envelope_message (message : string)
  | envelope_movies (movies : slice Movie) (metadata : Metadata.t).

(** One call of an answering helper.  The headers given to [writeJSON] are
    the pairs set on them; [nil] is the empty list. *)
Inductive response : Type :=
  | notFoundResponse
  | badRequestResponse (err : error)
  | failedValidationResponse (errors : validator.Validator)
  | editConflictResponse
  | serverErrorResponse (err : error)
  | writeJSON (status : Z) (data : envelope) (headers : list (string * string)).

Definition http_StatusOK : Z := 200.
Definition http_StatusCreated : Z := 201.

(** [fmt.Sprintf("%d", z)]: the decimal digits, with a sign for a negative
    number. *)
Definition Sprintf_d (z : Z) : string := NilZero.string_of_int (Z.to_int z).

(** [type application struct { ...; models data.Models }] with
    [type Models struct { Movies MovieModel; ... }]. *)
Record Models (W : Type) : Type := mkModels { Movies : MovieModel W }.
Global Arguments Movies {W}.
Global Arguments mkModels {W}.

Record application (W : Type) : Type := mkApplication { models : Models W }.
Global Arguments models {W}.
Global Arguments mkApplication {W}.

(** The anonymous [input] structs of the handlers. *)
Module createInput.
Record t : Type := mk {
  Title : string;
  Year : Z;                  (* int32 *)
  Runtime : Z;               (* data.Runtime *)
  Genres : slice string
}.
End createInput.

Module updateInput.
Record t : Type := mk {
  Title : option string;     (* *string *)
  Year : option Z;           (* *int32 *)
  Runtime : option Z;        (* *data.Runtime *)
  Genres : slice string
}.
End updateInput.

Module listInput.
Record t : Type := mk {
  Title : string;
  Genres : slice string;
  Filters : Filters
}.
End listInput.

(** [err = app.writeJSON(w, status, data, headers)] followed by
    [if err != nil { app.serverErrorResponse(w, r, err) }], the last step of
    every handler; [written] is what [writeJSON] returns. *)
Definition write {W} (status : Z) (data : envelope)
    (headers : list (string * string)) (written : option error) (w : W)
  : list response * W :=
  match written with
  | Some err => ([writeJSON status data headers; serverErrorResponse err], w)
  | None => ([writeJSON status data headers], w)
  end.

(** [input.Filters.SortSafelist] of [listMoviesHandler]. *)
Definition SortSafelist_movies : list string :=
  ["id"; "title"; "year"; "runtime"; "-id"; "-title"; "-year"; "-runtime"].

Section handlers.

Context {W : Type}.
(** [time.Now().Year()], read by [ValidateMovie]. *)
Variable time_Now_Year : Z.
Implicit Types (app : application W) (w : W) (written : option error).

Definition createMovieHandler app (readJSON : result createInput.t) written w
  : list response * W :=
  match readJSON with
  | Err err => ([badRequestResponse err], w)
  | Ok input =>
      let movie :=
        mkMovie 0 0 (createInput.Title input) (createInput.Year input)
                (createInput.Runtime input) (createInput.Genres input) 0 in
      let v := ValidateMovie time_Now_Year validator.New movie in
      if negb (validator.Valid v) then ([failedValidationResponse v], w)
      else
        let '((movie, err), w) := Insert (Movies (models app)) movie w in
        match err with
        | Some err => ([serverErrorResponse err], w)
        | None =>
            let headers :=
              [("Location",
                String.append "/v1/movies/" (Sprintf_d (ID movie)))] in
            write http_StatusCreated (envelope_movie (Some movie)) headers
                  written w
        end
  end.

Definition showMovieHandler app (readIDParam : result Z) written w
  : list response * W :=
  match readIDParam with
  | Err _ => ([notFoundResponse], w)
  | Ok id =>
      let '((movie, err), w) := Get (Movies (models app)) id w in
      match err with
      | Some err =>
          if errors_Is err ErrRecordNotFound then ([notFoundResponse], w)
          else ([serverErrorResponse err], w)
      | None => write http_StatusOK (envelope_movie movie) [] written w
      end
  end.

(** The fields of the body that are present replace those of the movie. *)
Definition patch (input : updateInput.t) (movie : Movie) : Movie :=
  let movie :=
    match updateInput.Title input with
    | Some x => set_Title x movie
    | None => movie
    end in
  let movie :=
    match updateInput.Year input with
    | Some x => set_Year x movie
    | None => movie
    end in
  let movie :=
    match updateInput.Runtime input with
    | Some x => set_Runtime x movie
    | None => movie
    end in
  match updateInput.Genres input with
  | Some x => set_Genres (Some x) movie
  | None => movie
  end.

(** [None] is the run-time panic of a field access through a [nil]
    [*Movie]. *)
Definition updateMovieHandler app (readIDParam : result Z)
    (readJSON : result updateInput.t) written w
  : option (list response * W) :=
  match readIDParam with
  | Err _ => Some ([notFoundResponse], w)
  | Ok id =>
      let '((movie, err), w) := Get (Movies (models app)) id w in
      match err with
      | Some err =>
          if errors_Is err ErrRecordNotFound then Some ([notFoundResponse], w)
          else Some ([serverErrorResponse err], w)
      | None =>
          match readJSON with
          | Err err => Some ([badRequestResponse err], w)
          | Ok input =>
              movie ← movie;
              let movie := patch input movie in
              let v := ValidateMovie time_Now_Year validator.New movie in
              if negb (validator.Valid v)
              then Some ([failedValidationResponse v], w)
              else
                let '((movie, err), w) :=
                  Update (Movies (models app)) movie w in
                match err with
                | Some err =>
                    if errors_Is err ErrEditConflict
                    then Some ([editConflictResponse], w)
                    else Some ([serverErrorResponse err], w)
                | None =>
                    Some (write http_StatusOK (envelope_movie (Some movie)) []
                                written w)
                end
          end
      end
  end.

Definition deleteMovieHandler app (readIDParam : result Z) written w
  : list response * W :=
  match readIDParam with
  | Err _ => ([notFoundResponse], w)
  | Ok id =>
      let '(err, w) := Delete (Movies (models app)) id w in
      match err with
      | Some err =>
          if errors_Is err ErrRecordNotFound then ([notFoundResponse], w)
          else ([serverErrorResponse err], w)
      | None =>
          write http_StatusOK (envelope_message "movie successfully deleted")
                [] written w
      end
  end.

(** [ValidateFilters], [readString], [readCSV] and [readInt] are not part of
    the sources: the handler is run on the fields they leave in [input]
    ([SortSafelist] apart, which the handler sets), on the validator [v] as
    the two [readInt] leave it, and on [ValidateFilters] itself.  [None] is
    the refusal of [GetAll] to build a query. *)
Definition listMoviesHandler app
    (ValidateFilters : validator.Validator → Filters → validator.Validator)
    (title : string) (genres : slice string) (page pageSize : Z)
    (sort : string) (v : validator.Validator) written w
  : option (list response * W) :=
  let input :=
    listInput.mk title genres
      (mkFilters page pageSize sort SortSafelist_movies) in
  let v := ValidateFilters v (listInput.Filters input) in
  if negb (validator.Valid v) then Some ([failedValidationResponse v], w)
  else
    r ← GetAll (Movies (models app)) (listInput.Title input)
           (listInput.Genres input) (listInput.Filters input) w;
    let '((movies, metadata, err), w) := r in
    match err with
    | Some err => Some ([serverErrorResponse err], w)
    | None =>
        Some (write http_StatusOK (envelope_movies movies metadata) []
                    written w)
    end.

(** The earlier [updateMovieHandler], from before partial updates and the
    conflict answer: every field of the body replaces the one of the movie,
    and every error of [Update] is a server error. *)
Definition updateMovieHandler_full app (readIDParam : result Z)
    (readJSON : result createInput.t) written w
  : option (list response * W) :=
  match readIDParam with
  | Err _ => Some ([notFoundResponse], w)
  | Ok id =>
      let '((movie, err), w) := Get (Movies (models app)) id w in
      match err with
      | Some err =>
          if errors_Is err ErrRecordNotFound then Some ([notFoundResponse], w)
          else Some ([serverErrorResponse err], w)
      | None =>
          match readJSON with
          | Err err => Some ([badRequestResponse err], w)
          | Ok input =>
              movie ← movie;
              let movie := set_Title (createInput.Title input) movie in
              let movie := set_Year (createInput.Year input) movie in
              let movie := set_Runtime (createInput.Runtime input) movie in
              let movie := set_Genres (createInput.Genres input) movie in
              let v := ValidateMovie time_Now_Year validator.New movie in
              if negb (validator.Valid v)
              then Some ([failedValidationResponse v], w)
              else
                let '((movie, err), w) :=
                  Update (Movies (models app)) movie w in
                match err with
                | Some err => Some ([serverErrorResponse err], w)
                | None =>
                    Some (write http_StatusOK (envelope_movie (Some movie)) []
                                written w)
                end
          end
      end
  end.
End handlers.

(** The application on PostgreSQL. *)
Definition pg_app (E : Engine) (f : fault) : application Database :=
  mkApplication (mkModels (pg_model E f)).

(** The engine shared with other callers: after each request of this
    caller, the requests of the others that arrive before its next one are
    run.  The schedule lists them, one batch per request of this caller. *)
Definition schedule : Type := list (list (fault * statement)).

Definition postgres_shared (E : Engine) (f : fault)
  : sql_DB (Database * schedule) := {|
  QueryContext s w :=
    let '(r, db) := QueryContext (postgres E f) s w.1 in
    (r, (traffic E (hd [] w.2) db, tl w.2));
  ExecContext s w :=
    let '(r, db) := ExecContext (postgres E f) s w.1 in
    (r, (traffic E (hd [] w.2) db, tl w.2))
|}.

Definition pg_app_shared (E : Engine) (f : fault)
  : application (Database * schedule) :=
  mkApplication (mkModels (mkMovieModel (postgres_shared E f))).

(** A body that gives all four fields, as a body of the partial update. *)
Definition all_fields (input : createInput.t) : updateInput.t :=
  updateInput.mk (Some (createInput.Title input))
                 (Some (createInput.Year input))
                 (Some (createInput.Runtime input))
                 (createInput.Genres input).

(** The movie a handler builds from the body of a create request. *)
Definition movie_of_input (input : createInput.t) : Movie :=
  mkMovie 0 0 (createInput.Title input) (createInput.Year input)
          (createInput.Runtime input) (createInput.Genres input) 0.

(** The row a partial update leaves in place of [r]. *)
Definition patched_row (input : updateInput.t) (r : movies.row) : movies.row :=
  movies.mk (movies.id r) (movies.created_at r)
            (default (movies.title r) (updateInput.Title input))
            (default (movies.year r) (updateInput.Year input))
            (default (movies.runtime r) (updateInput.Runtime input))
            (default (movies.genres r) (updateInput.Genres input))
            (movies.version r + 1).

(** A handler answered once: one call of an answering helper, followed by
    a server error only when [writeJSON] failed. *)
Definition answered_once (written : option error) (rs : list response)
  : Prop :=
  (∃ x, rs = [x] ∧ ∀ status data headers,
          x = writeJSON status data headers → written = None) ∨
  (∃ status data headers err,
     written = Some err ∧
     rs = [writeJSON status data headers; serverErrorResponse err]).

(** Requests and other callers for the run-through examples on the sample
    table. *)
Module scenario.
Definition input : createInput.t :=
  createInput.mk "Beta" 2001 100 (Some ["comedy"]).
Definition body : updateInput.t :=
  updateInput.mk None (Some 1999) None None.
(** Another caller updates movie 3, which is at version 1. *)
Definition rival : list (fault * statement) :=
  [(Healthy,
    UpdateMovie "Alpha (rival)" 2002 91 (Some ["war"]) 3 1)].
(** Another caller deletes movie 26. *)
Definition cleanup : list (fault * statement) :=
  [(Healthy, DeleteMovie 26)].
Definition change : edit := mkEdit "Alpha II" 2001 96 ["drama"].
End scenario.

(** * Properties *)

(** ** Validation *)

Lemma int32_id z : in_int32 z → int32 z = z.
Proof.
  unfold in_int32, int32, int32_min, int32_max. intros Hz.
  rewrite Z.mod_small; lia.
Qed.

Lemma elem_of_dom_AddError (k key message : string) (v : gmap string string) :
  k ∈ dom (validator.AddError key message v) ↔ k = key ∨ k ∈ dom v.
Proof.
  unfold validator.AddError. destruct (v !! key) as [x|] eqn:Hkey.
  - split; [auto|]. intros [->|?]; [|done]. apply elem_of_dom; eauto.
  - rewrite dom_insert_L. set_solver.
Qed.

Lemma elem_of_dom_Check (k : string) ok key message (v : gmap string string) :
  k ∈ dom (validator.Check ok key message v) ↔
  (ok = false ∧ k = key) ∨ k ∈ dom v.
Proof.
  unfold validator.Check. destruct ok.
  - naive_solver.
  - rewrite elem_of_dom_AddError. naive_solver.
Qed.

Lemma AddError_nonempty key message (v : gmap string string) :
  validator.AddError key message v ≠ ∅.
Proof.
  unfold validator.AddError. destruct (v !! key) eqn:Hkey.
  - intros ->. by rewrite lookup_empty in Hkey.
  - apply insert_non_empty.
Qed.

Lemma Check_empty ok key message (v : gmap string string) :
  validator.Check ok key message v = ∅ ↔ ok = true ∧ v = ∅.
Proof.
  unfold validator.Check. destruct ok; [naive_solver|].
  split; [|naive_solver]. intros H. by apply AddError_nonempty in H.
Qed.

Lemma Unique_NoDup (values : slice string) :
  validator.Unique values = true ↔ NoDup (elems values).
Proof. unfold validator.Unique. apply bool_decide_eq_true. Qed.

Lemma Zgeb_false a b : (a >=? b) = false ↔ a < b.
Proof. rewrite Z.geb_leb, Z.leb_gt. lia. Qed.
Lemma Zgtb_true a b : (a >? b) = true ↔ b < a.
Proof. rewrite Z.gtb_ltb, Z.ltb_lt. lia. Qed.
Lemma Zgtb_false a b : (a >? b) = false ↔ a ≤ b.
Proof. rewrite Z.gtb_ltb, Z.ltb_ge. lia. Qed.

Lemma elem_of_dom_Check_decide (k : string) ok key message
    (v : gmap string string) :
  k ∈ dom (validator.Check ok key message v) ↔
  if decide (k = key) then ok = false ∨ k ∈ dom v else k ∈ dom v.
Proof. rewrite elem_of_dom_Check. case_decide; naive_solver. Qed.

Section checks.
Implicit Types (v : gmap string string) (ok : bool).

(** The eleven checks of [ValidateMovie], in order, on any conditions. *)
Lemma checks_dom ok1 ok2 ok3 ok4 ok5 ok6 ok7 ok8 ok9 ok10 ok11
    m1 m2 m3 m4 m5 m6 m7 m8 m9 m10 m11 :
  let v :=
    validator.Check ok11 "genres" m11 (validator.Check ok10 "genres" m10
      (validator.Check ok9 "genres" m9 (validator.Check ok8 "genres" m8
      (validator.Check ok7 "runtime" m7 (validator.Check ok6 "runtime" m6
      (validator.Check ok5 "year" m5 (validator.Check ok4 "year" m4
      (validator.Check ok3 "year" m3 (validator.Check ok2 "title" m2
      (validator.Check ok1 "title" m1 validator.New)))))))))) in
  ("title" ∈ dom v ↔ ok1 && ok2 = false) ∧
  ("year" ∈ dom v ↔ ok3 && ok4 && ok5 = false) ∧
  ("runtime" ∈ dom v ↔ ok6 && ok7 = false) ∧
  ("genres" ∈ dom v ↔ ok8 && ok9 && ok10 && ok11 = false) ∧
  (v = ∅ ↔ ok1 && ok2 && (ok3 && ok4 && ok5) && (ok6 && ok7)
            && (ok8 && ok9 && ok10 && ok11) = true).
Proof.
  intros v. subst v. unfold validator.New.
  split; [|split; [|split; [|split]]].
  1-4: repeat (rewrite elem_of_dom_Check_decide; case_decide;
               [try discriminate|try congruence]);
    rewrite dom_empty_L, elem_of_empty.
  5: rewrite !Check_empty.
  - destruct ok1, ok2; simpl; intuition discriminate.
  - destruct ok3, ok4, ok5; simpl; intuition discriminate.
  - destruct ok6, ok7; simpl; intuition discriminate.
  - destruct ok8, ok9, ok10, ok11; simpl; intuition discriminate.
  - rewrite !andb_true_iff. tauto.
Qed.
End checks.

Lemma Unique_dup (values : slice string) :
  validator.Unique values = false ↔ ¬ NoDup (elems values).
Proof. unfold validator.Unique. apply bool_decide_eq_false. Qed.

Ltac conditions :=
  rewrite ?andb_false_iff, ?andb_true_iff, ?negb_false_iff, ?negb_true_iff,
    ?bool_decide_eq_false, ?bool_decide_eq_true, ?String.eqb_eq,
    ?String.eqb_neq, ?Z.eqb_eq, ?Z.eqb_neq, ?Zgeb_false, ?Z.geb_le,
    ?Z.leb_le, ?Z.leb_gt, ?Zgtb_true, ?Zgtb_false, ?Unique_NoDup,
    ?Unique_dup.

(** C9. [ValidateMovie] records a violation under the name of the field for
    every field with a failed check, whichever check fails and however many
    fail, and the error map stays empty exactly when all constraints hold:
    the title is not empty and at most 500 bytes long; the year is not zero,
    at least 1888 and at most the current year; the runtime is not zero and
    positive; the genres are not nil, between 1 and 5, and all distinct. *)
Theorem ValidateMovie_complete (now : Z) (movie : Movie) :
  in_int32 now →
  let errors := ValidateMovie now validator.New movie in
  ("title" ∈ dom errors ↔ ¬ title_ok movie) ∧
  ("year" ∈ dom errors ↔ ¬ year_ok now movie) ∧
  ("runtime" ∈ dom errors ↔ ¬ runtime_ok movie) ∧
  ("genres" ∈ dom errors ↔ ¬ genres_ok movie) ∧
  (errors = ∅ ↔
   title_ok movie ∧ year_ok now movie ∧ runtime_ok movie ∧ genres_ok movie).
Proof.
  intros Hnow errors. subst errors. unfold ValidateMovie.
  rewrite (int32_id now Hnow).
  match goal with
  | |- context [validator.Check ?ok11 _ ?m11 (validator.Check ?ok10 _ ?m10
        (validator.Check ?ok9 _ ?m9 (validator.Check ?ok8 _ ?m8
        (validator.Check ?ok7 _ ?m7 (validator.Check ?ok6 _ ?m6
        (validator.Check ?ok5 _ ?m5 (validator.Check ?ok4 _ ?m4
        (validator.Check ?ok3 _ ?m3 (validator.Check ?ok2 _ ?m2
        (validator.Check ?ok1 _ ?m1 _))))))))))] =>
      destruct (checks_dom ok1 ok2 ok3 ok4 ok5 ok6 ok7 ok8 ok9 ok10 ok11
                  m1 m2 m3 m4 m5 m6 m7 m8 m9 m10 m11)
        as (Ht & Hy & Hr & Hg & He)
  end.
  cbv zeta in Ht, Hy, Hr, Hg, He.
  unfold title_ok, year_ok, runtime_ok, genres_ok.
  split; [|split; [|split; [|split]]].
  - etrans; [exact Ht|]. clear. conditions.
    destruct (decide (Title movie = EmptyString)),
      (decide (String.length (Title movie) ≤ 500)%nat); tauto.
  - etrans; [exact Hy|]. clear. conditions. 
    destruct (decide (Year movie = 0)), (decide (1888 ≤ Year movie)),
      (decide (Year movie ≤ now)); lia.
  - etrans; [exact Hr|]. clear. conditions.
    destruct (decide (Runtime movie = 0)), (decide (0 < Runtime movie)); lia.
  - etrans; [exact Hg|]. clear. conditions.
    destruct (decide (Genres movie = None)),
      (decide (1 ≤ len (Genres movie))%nat),
      (decide (len (Genres movie) ≤ 5)%nat),
      (decide (NoDup (elems (Genres movie)))); tauto.
  - etrans; [exact He|]. clear. conditions.
    tauto.
Qed.

(** ** Scanning *)

Lemma Rows_Scan_row (r : movies.row) :
  row_typed r →
  Rows_Scan (tuple_of_row r)
    [into_int64 set_ID; into_Time set_CreatedAt; into_string set_Title;
     into_int32 set_Year; into_int32 set_Runtime;
     into_pq_Array set_Genres; into_int32 set_Version]
    Movie_zero = (movie_of_row r, None).
Proof.
  intros (Hid & Hy & Hr & Hv). unfold Rows_Scan, tuple_of_row. simpl.
  rewrite !bool_decide_eq_true_2 by done. reflexivity.
Qed.

(** A conversion never fails with one of the sentinels. *)
Lemma into_int32_driver {S} (set : Z → S → S) v s e :
  into_int32 set v s = Err e → ∃ msg, e = ErrDriver msg.
Proof.
  unfold into_int32, out_of_range, unsupported_Scan.
  destruct v; try case_bool_decide; intros [= <-]; eauto.
Qed.

(** ** Keys *)

Section keys.
Implicit Types (t : list movies.row) (r : movies.row).

Lemma filter_key_absent t id :
  id ∉ movies.id <$> t → filter (λ r, movies.id r = id) t = [].
Proof.
  intros Hid. induction t as [|x t IH]; [done|].
  rewrite fmap_cons, not_elem_of_cons in Hid. destruct Hid as [Hx Ht].
  rewrite filter_cons_False by (simpl; congruence). auto.
Qed.

Lemma filter_key_present t r :
  NoDup (movies.id <$> t) → r ∈ t →
  filter (λ x, movies.id x = movies.id r) t = [r].
Proof.
  intros Hnd Hr. induction t as [|x t IH]; [by apply elem_of_nil in Hr|].
  rewrite fmap_cons in Hnd. apply NoDup_cons in Hnd as [Hx Hnd].
  apply elem_of_cons in Hr as [->|Hr].
  - rewrite filter_cons_True by done. by rewrite filter_key_absent.
  - rewrite filter_cons_False; [auto|]. simpl. intros Heq.
    apply Hx. rewrite Heq. by apply list_elem_of_fmap_2.
Qed.

Lemma row_with_id_Some db id r :
  row_with_id id db = Some r → r ∈ movies_table db ∧ movies.id r = id.
Proof.
  unfold row_with_id. intros H. apply head_Some_elem_of in H.
  by apply list_elem_of_filter in H as [? ?].
Qed.

Lemma row_with_id_None db id :
  row_with_id id db = None ↔ id ∉ movies.id <$> movies_table db.
Proof.
  unfold row_with_id. split.
  - intros H Hin. apply list_elem_of_fmap in Hin as (r & -> & Hr).
    apply head_None in H.
    assert (r ∈ filter (λ x, movies.id x = movies.id r) (movies_table db))
      as Hr' by (by apply list_elem_of_filter).
    rewrite H in Hr'. by apply elem_of_nil in Hr'.
  - intros H. by rewrite filter_key_absent.
Qed.

Lemma row_with_id_filter db id :
  NoDup (movies.id <$> movies_table db) →
  filter (λ r, movies.id r = id) (movies_table db)
  = option_list (row_with_id id db).
Proof.
  intros Hnd. destruct (row_with_id id db) as [r|] eqn:Hr.
  - apply row_with_id_Some in Hr as [Hin <-]. by rewrite filter_key_present.
  - apply row_with_id_None in Hr. by rewrite filter_key_absent.
Qed.
End keys.

(** ** Get *)

Lemma Get_below_one {W} (m : MovieModel W) id w :
  id < 1 → Get m id w = ((None, Some ErrRecordNotFound), w).
Proof. intros Hid. unfold Get. by rewrite bool_decide_eq_true_2. Qed.

Lemma Get_postgres E id db :
  consistent db → 1 ≤ id →
  Get (pg_model E Healthy) id db =
  (match row_with_id id db with
   | Some r => (Some (movie_of_row r), None)
   | None => (None, Some ErrRecordNotFound)
   end, received (SelectMovie id) db).
Proof.
  intros Hdb Hid. unfold Get. rewrite bool_decide_eq_false_2 by lia.
  unfold QueryRowContext. simpl. unfold pg_select. simpl.
  rewrite (row_with_id_filter (received (SelectMovie id) db)) by apply Hdb.
  change (row_with_id id (received (SelectMovie id) db))
    with (row_with_id id db).
  destruct (row_with_id id db) as [r|] eqn:Hr; simpl; [|done].
  apply row_with_id_Some in Hr as [Hin _].
  rewrite Rows_Scan_row; [done|].
  destruct Hdb as [_ _ _ Hty]. rewrite Forall_forall in Hty. auto.
Qed.

Lemma Get_translates {W} (m : MovieModel W) id w :
  1 ≤ id →
  let answer := QueryRowContext (DB m) (SelectMovie id) w in
  let scan := Row_Scan answer.1 Movie_dests Movie_zero in
  (Get m id w).2 = answer.2 ∧
  (Get m id w).1 =
    match scan.2 with
    | None => (Some scan.1, None)
    | Some e => (None, Some (if decide (e = ErrNoRows) then ErrRecordNotFound else e))
    end.
Proof.
  intros Hid answer scan. subst scan answer. unfold Get, Movie_dests.
  rewrite bool_decide_eq_false_2 by lia.
  destruct (QueryRowContext (DB m) (SelectMovie id) w) as [answer w'].
  simpl. destruct (Row_Scan answer _ Movie_zero) as [movie [e|]]; simpl.
  - unfold errors_Is. destruct (decide (e = ErrNoRows)) as [->|Hne].
    + by rewrite bool_decide_eq_true_2.
    + by rewrite bool_decide_eq_false_2.
  - done.
Qed.

Lemma Get_postgres_fault E f id db :
  consistent db → 1 ≤ id →
  (Get (pg_model E f) id db).2 = received (SelectMovie id) db ∧
  (Get (pg_model E f) id db).1 =
    match f with
    | Healthy =>
        match row_with_id id db with
        | Some r => (Some (movie_of_row r), None)
        | None => (None, Some ErrRecordNotFound)
        end
    | Refused msg | Truncated _ msg => (None, Some (ErrDriver msg))
    end.
Proof.
  intros Hdb Hid. destruct f as [|msg|n msg].
  - by rewrite Get_postgres.
  - unfold Get. by rewrite bool_decide_eq_false_2 by lia.
  - unfold Get. rewrite bool_decide_eq_false_2 by lia.
    unfold QueryRowContext. simpl. unfold pg_select. simpl.
    rewrite (row_with_id_filter (received (SelectMovie id) db)) by apply Hdb.
    change (row_with_id id (received (SelectMovie id) db))
      with (row_with_id id db).
    destruct (row_with_id id db) as [r|] eqn:Hr; simpl.
    + destruct n; simpl; [done|].
      apply row_with_id_Some in Hr as [Hin _].
      rewrite Rows_Scan_row; [done|].
      destruct Hdb as [_ _ _ Hty]. rewrite Forall_forall in Hty. auto.
    + by destruct n.
Qed.

(** C7. [Get] with an id below 1 fails with NotFound and leaves whatever is
    behind the pool untouched: no request is made.  From 1 on it makes the
    one point lookup and translates its outcome: no row is NotFound, any
    other error of the query, of the iteration or of a conversion is
    returned as it is, and a row is returned with all seven columns.  On
    PostgreSQL, NotFound is returned exactly for an id below 1 or when the
    healthy engine holds no row under the id. *)
Theorem Get_outcomes :
  (∀ W (m : MovieModel W) id w,
     id < 1 → Get m id w = ((None, Some ErrRecordNotFound), w)) ∧
  (∀ W (m : MovieModel W) id w, 1 ≤ id →
     let answer := QueryRowContext (DB m) (SelectMovie id) w in
     (Get m id w).2 = answer.2 ∧
     (answer.1 = Ok (mkRows [] None) →
      (Get m id w).1 = (None, Some ErrRecordNotFound)) ∧
     (∀ e, e ≠ ErrNoRows →
        (Row_Scan answer.1 Movie_dests Movie_zero).2 = Some e →
        (Get m id w).1 = (None, Some e)) ∧
     (∀ e, e ≠ ErrNoRows →
        answer.1 = Err e ∨ answer.1 = Ok (mkRows [] (Some e)) →
        (Get m id w).1 = (None, Some e)) ∧
     (∀ r ts, row_typed r →
        answer.1 = Ok (mkRows (tuple_of_row r :: ts) None) →
        (Get m id w).1 = (Some (movie_of_row r), None))) ∧
  (∀ E f id db, consistent db →
     (id < 1 → requests (Get (pg_model E f) id db).2 = requests db) ∧
     (1 ≤ id →
      requests (Get (pg_model E f) id db).2 = SelectMovie id :: requests db) ∧
     ((Get (pg_model E f) id db).1.2 = Some ErrRecordNotFound ↔
      id < 1 ∨ (f = Healthy ∧ row_with_id id db = None)) ∧
     (∀ r, 1 ≤ id → f = Healthy → row_with_id id db = Some r →
        (Get (pg_model E f) id db).1 = (Some (movie_of_row r), None)) ∧
     (∀ msg, 1 ≤ id → f = Refused msg →
        (Get (pg_model E f) id db).1 = (None, Some (ErrDriver msg)))).
Proof.
  split; [|split].
  - intros. by apply Get_below_one.
  - intros W m id w Hid answer.
    destruct (Get_translates m id w Hid) as [Hw Hres].
    fold answer in Hw, Hres. cbv zeta in Hres.
    split; [done|]. repeat split.
    + intros Ha. by rewrite Hres, Ha.
    + intros e Hne He. rewrite Hres, He. by rewrite decide_False.
    + intros e Hne [Ha|Ha]; rewrite Hres, Ha; simpl; by rewrite decide_False.
    + intros r ts Hr Ha. rewrite Hres, Ha. simpl.
      unfold Movie_dests. by rewrite Rows_Scan_row.
  - intros E f id db Hdb. split; [|split; [|split; [|split]]].
    + intros Hid. by rewrite Get_below_one.
    + intros Hid. by rewrite (proj1 (Get_postgres_fault E f id db Hdb Hid)).
    + destruct (decide (id < 1)) as [Hid|Hid].
      { rewrite Get_below_one by done. naive_solver. }
      rewrite (proj2 (Get_postgres_fault E f id db Hdb ltac:(lia))).
      destruct f as [|msg|n msg].
      * destruct (row_with_id id db); naive_solver.
      * naive_solver.
      * naive_solver.
    + intros r Hid -> Hr. rewrite Get_postgres by done. by rewrite Hr.
    + intros msg Hid ->.
      by rewrite (proj2 (Get_postgres_fault E _ id db Hdb Hid)).
Qed.

(** ** Delete *)

Lemma Delete_below_one {W} (m : MovieModel W) id w :
  id < 1 → Delete m id w = (Some ErrRecordNotFound, w).
Proof. intros Hid. unfold Delete. by rewrite bool_decide_eq_true_2. Qed.

Lemma Delete_translates {W} (m : MovieModel W) id w :
  1 ≤ id →
  let answer := ExecContext (DB m) (DeleteMovie id) w in
  Delete m id w =
    (match answer.1 with
     | Err e => Some e
     | Ok (Err e) => Some e
     | Ok (Ok rowsAffected) =>
         if decide (rowsAffected = 0) then Some ErrRecordNotFound else None
     end, answer.2).
Proof.
  intros Hid answer. subst answer. unfold Delete.
  rewrite bool_decide_eq_false_2 by lia.
  destruct (ExecContext (DB m) (DeleteMovie id) w) as [[[n|e]|e] w']; simpl;
    try done.
  destruct (Z.eqb_spec n 0); by case_decide.
Qed.

Lemma length_filter_key db id :
  NoDup (movies.id <$> movies_table db) →
  Z.of_nat (length (filter (λ r, movies.id r = id) (movies_table db)))
  = match row_with_id id db with Some _ => 1 | None => 0 end.
Proof.
  intros Hnd. rewrite row_with_id_filter by done.
  by destruct (row_with_id id db).
Qed.

Lemma filter_other_keys_absent (t : list movies.row) id :
  id ∉ movies.id <$> t → filter (λ r, movies.id r ≠ id) t = t.
Proof.
  intros Hid. induction t as [|x t IH]; [done|].
  rewrite fmap_cons, not_elem_of_cons in Hid. destruct Hid as [Hx Ht].
  rewrite filter_cons_True by (simpl; congruence). f_equal. auto.
Qed.

Lemma length_filter_split (t : list movies.row) id :
  (length (filter (λ r, movies.id r = id) t)
   + length (filter (λ r, movies.id r ≠ id) t) = length t)%nat.
Proof.
  induction t as [|x t IH]; [done|].
  destruct (decide (movies.id x = id)).
  - rewrite filter_cons_True, (filter_cons_False (λ r, movies.id r ≠ id))
      by (simpl; tauto). simpl. lia.
  - rewrite filter_cons_False, (filter_cons_True (λ r, movies.id r ≠ id))
      by (simpl; tauto). simpl. lia.
Qed.

Lemma Delete_postgres E id db :
  consistent db → 1 ≤ id →
  Delete (pg_model E Healthy) id db =
  (match row_with_id id db with Some _ => None | None => Some ErrRecordNotFound end,
   with_table (filter (λ r, movies.id r ≠ id) (movies_table db))
     (received (DeleteMovie id) db)).
Proof.
  intros Hdb Hid. rewrite Delete_translates by done. simpl.
  unfold pg_delete. simpl.
  rewrite (length_filter_key db) by apply Hdb.
  by destruct (row_with_id id db).
Qed.

(** C8. [Delete] with an id below 1 fails with NotFound and makes no
    request.  From 1 on it makes the one delete by key and reads the number
    of rows removed: an error of the execution or of reading that number is
    returned as it is, zero rows is NotFound, one row is success.  On
    PostgreSQL the statement removes the row under the id and nothing else,
    which is one row when it is there and none when it is not. *)
Theorem Delete_outcomes :
  (∀ W (m : MovieModel W) id w,
     id < 1 → Delete m id w = (Some ErrRecordNotFound, w)) ∧
  (∀ W (m : MovieModel W) id w, 1 ≤ id →
     let answer := ExecContext (DB m) (DeleteMovie id) w in
     (Delete m id w).2 = answer.2 ∧
     (∀ e, answer.1 = Err e ∨ answer.1 = Ok (Err e) →
        (Delete m id w).1 = Some e) ∧
     (answer.1 = Ok (Ok 0) → (Delete m id w).1 = Some ErrRecordNotFound) ∧
     (answer.1 = Ok (Ok 1) → (Delete m id w).1 = None)) ∧
  (∀ E id db, consistent db → 1 ≤ id →
     let after := (Delete (pg_model E Healthy) id db).2 in
     requests after = DeleteMovie id :: requests db ∧
     movies_table after = filter (λ r, movies.id r ≠ id) (movies_table db) ∧
     (∀ r, row_with_id id db = Some r →
        (Delete (pg_model E Healthy) id db).1 = None ∧
        row_with_id id after = None ∧
        S (length (movies_table after)) = length (movies_table db)) ∧
     (row_with_id id db = None →
        (Delete (pg_model E Healthy) id db).1 = Some ErrRecordNotFound ∧
        movies_table after = movies_table db)) ∧
  (∀ E id db msg, 1 ≤ id →
     Delete (pg_model E (Refused msg)) id db
     = (Some (ErrDriver msg), received (DeleteMovie id) db)).
Proof.
  split; [|split; [|split]].
  - intros. by apply Delete_below_one.
  - intros W m id w Hid answer. rewrite Delete_translates by done.
    fold answer. simpl. split; [done|]. split; [|split].
    + by intros e [->| ->].
    + by intros ->.
    + by intros ->.
  - intros E id db Hdb Hid after. subst after.
    rewrite Delete_postgres by done. simpl. split; [done|]. split; [done|].
    split.
    + intros r Hr. rewrite Hr. split; [done|]. split.
      * apply row_with_id_None. simpl. intros Hin.
        apply list_elem_of_fmap in Hin as (x & Hx & Hin).
        apply list_elem_of_filter in Hin as [Hne _]. congruence.
      * pose proof (length_filter_split (movies_table db) id) as Hlen.
        pose proof (length_filter_key db id (key_unique _ Hdb)) as Hone.
        rewrite Hr in Hone. lia.
    + intros Hr. rewrite Hr. split; [done|].
      apply filter_other_keys_absent. by apply row_with_id_None.
  - intros E id db msg Hid. by rewrite Delete_translates.
Qed.

(** ** Update *)

Lemma filter_update_matches db id version :
  NoDup (movies.id <$> movies_table db) →
  filter (update_matches id version) (movies_table db) =
  match row_with_id id db with
  | Some r => if decide (movies.version r = version) then [r] else []
  | None => []
  end.
Proof.
  intros Hnd.
  transitivity (filter (λ r, movies.version r = version)
                  (filter (λ r, movies.id r = id) (movies_table db))).
  { rewrite list_filter_filter. apply list_filter_iff.
    intros r. unfold update_matches. tauto. }
  rewrite row_with_id_filter by done.
  destruct (row_with_id id db) as [r|]; [|done]. simpl.
  case_decide.
  - by rewrite filter_cons_True.
  - by rewrite filter_cons_False.
Qed.

Lemma pg_update_consistent movie db :
  NoDup (movies.id <$> movies_table db) →
  pg_update (Title movie) (Year movie) (Runtime movie)
            (pq_Array (Genres movie)) (ID movie) (Version movie) db =
  match row_with_id (ID movie) db with
  | Some r =>
      if decide (movies.version r = Version movie) then
        match Genres movie with
        | None => (Err not_null_violation, db)
        | Some genres =>
            if decide (update_in_range movie)
            then (Ok [[VInt (Version movie + 1)]],
                  with_table (updated_table movie genres (movies_table db)) db)
            else (Err integer_out_of_range, db)
        end
      else (Ok [], db)
  | None => (Ok [], db)
  end.
Proof.
  intros Hnd. unfold pg_update. rewrite filter_update_matches by done.
  destruct (row_with_id (ID movie) db) as [r|]; [|done].
  case_decide as Hv; [|done]. unfold pq_Array.
  destruct (Genres movie) as [genres|]; [|done].
  unfold update_in_range. case_bool_decide; case_decide; try tauto.
  simpl. by rewrite Hv.
Qed.

Lemma row_with_id_received s id db :
  row_with_id id (received s db) = row_with_id id db.
Proof. done. Qed.

Lemma Rows_Scan_version (movie : Movie) (z : Z) :
  in_int32 z →
  Rows_Scan [VInt z] [into_int32 set_Version] movie
  = (set_Version z movie, None).
Proof.
  intros Hz. unfold Rows_Scan. simpl. by rewrite bool_decide_eq_true_2.
Qed.

Lemma Update_postgres E movie db :
  consistent db →
  let db1 := received (update_statement movie) db in
  Update (pg_model E Healthy) movie db =
  match row_with_id (ID movie) db with
  | Some r =>
      if decide (movies.version r = Version movie) then
        match Genres movie with
        | None => ((movie, Some not_null_violation), db1)
        | Some genres =>
            if decide (update_in_range movie)
            then ((set_Version (Version movie + 1) movie, None),
                  with_table (updated_table movie genres (movies_table db)) db1)
            else ((movie, Some integer_out_of_range), db1)
        end
      else ((movie, Some ErrEditConflict), db1)
  | None => ((movie, Some ErrEditConflict), db1)
  end.
Proof.
  intros Hdb db1. unfold Update, QueryRowContext. simpl.
  fold (update_statement movie). fold db1.
  rewrite (pg_update_consistent movie db1) by apply Hdb.
  unfold db1 at 1. rewrite row_with_id_received.
  destruct (row_with_id (ID movie) db) as [r|]; [|done].
  case_decide; [|done].
  destruct (Genres movie) as [genres|]; [|done].
  case_decide as Hr; [|done]. simpl.
  rewrite Rows_Scan_version by apply Hr. done.
Qed.

Lemma Update_postgres_refused E msg movie db :
  Update (pg_model E (Refused msg)) movie db =
  ((movie, Some (ErrDriver msg)), received (update_statement movie) db).
Proof. done. Qed.

Lemma Update_postgres_truncated E n msg movie db :
  consistent db →
  ∃ movie' e,
    (Update (pg_model E (Truncated n msg)) movie db).1 = (movie', Some e) ∧
    (e = ErrDriver msg ∨ e = not_null_violation ∨ e = integer_out_of_range).
Proof.
  intros Hdb. unfold Update, QueryRowContext. simpl.
  fold (update_statement movie).
  rewrite (pg_update_consistent movie (received (update_statement movie) db))
    by apply Hdb.
  rewrite row_with_id_received.
  destruct (row_with_id (ID movie) db) as [r|];
    [|destruct n; simpl; eauto].
  case_decide; [|destruct n; simpl; eauto].
  destruct (Genres movie) as [genres|]; [|simpl; eauto 6].
  case_decide as Hr; [|simpl; eauto 6]. simpl.
  destruct n; simpl; [eauto|].
  rewrite Rows_Scan_version by apply Hr. simpl. eauto.
Qed.

Section updated_table.
Context (movie : Movie) (genres : list string).
Local Abbreviation set := (updated_row movie genres).

Lemma updated_row_id r : movies.id (set r) = movies.id r.
Proof. unfold updated_row. by case_decide. Qed.

Lemma updated_table_keys t :
  movies.id <$> updated_table movie genres t = movies.id <$> t.
Proof.
  unfold updated_table. rewrite <- list_fmap_compose.
  apply list_fmap_ext. intros _ r _. simpl. apply updated_row_id.
Qed.

Lemma filter_key_updated t i :
  filter (λ r, movies.id r = i) (updated_table movie genres t)
  = set <$> filter (λ r, movies.id r = i) t.
Proof.
  unfold updated_table. induction t as [|x t IH]; [done|].
  rewrite fmap_cons. destruct (decide (movies.id x = i)) as [Hx|Hx].
  - rewrite !filter_cons_True by (by rewrite ?updated_row_id).
    rewrite fmap_cons. by f_equal.
  - by rewrite !filter_cons_False by (by rewrite ?updated_row_id).
Qed.

Lemma row_with_id_updated db i :
  row_with_id i (with_table (updated_table movie genres (movies_table db)) db)
  = set <$> row_with_id i db.
Proof.
  unfold row_with_id. simpl. rewrite filter_key_updated.
  by destruct (filter _ (movies_table db)).
Qed.

Lemma row_with_id_updated_other db i :
  i ≠ ID movie →
  row_with_id i (with_table (updated_table movie genres (movies_table db)) db)
  = row_with_id i db.
Proof.
  intros Hi. rewrite row_with_id_updated.
  destruct (row_with_id i db) as [r|] eqn:Hr; [|done]. simpl.
  apply row_with_id_Some in Hr as [_ Hr]. unfold updated_row.
  rewrite decide_False; [done|]. unfold update_matches. intros [? _].
  congruence.
Qed.

Lemma row_with_id_updated_same db r :
  row_with_id (ID movie) db = Some r →
  movies.version r = Version movie →
  row_with_id (ID movie)
    (with_table (updated_table movie genres (movies_table db)) db)
  = Some (update_row (Title movie) (Year movie) (Runtime movie) genres r).
Proof.
  intros Hr Hv. rewrite row_with_id_updated, Hr. simpl. unfold updated_row.
  rewrite decide_True; [done|]. apply row_with_id_Some in Hr as [_ Hr].
  by split.
Qed.

Lemma updated_table_consistent db :
  update_in_range movie → consistent db →
  consistent (with_table (updated_table movie genres (movies_table db)) db).
Proof.
  intros (Hy & Hr & Hv) [Hseq Hnd Hiss Hty]. split; simpl.
  - done.
  - by rewrite updated_table_keys.
  - unfold updated_table. rewrite Forall_fmap.
    eapply Forall_impl; [exact Hiss|]. intros r Hr'. simpl.
    by rewrite updated_row_id.
  - unfold updated_table. rewrite Forall_fmap.
    eapply Forall_impl; [exact Hty|]. intros r (H1 & H2 & H3 & H4). simpl.
    unfold updated_row. case_decide as Hm; [|done]. destruct Hm as [_ Hm].
    unfold row_typed, update_row. simpl. by rewrite Hm.
Qed.
End updated_table.

Lemma consistent_received s db : consistent db → consistent (received s db).
Proof. intros [? ? ? ?]. by split. Qed.

Lemma consistent_received_table s t db :
  consistent (with_table t db) → consistent (with_table t (received s db)).
Proof. intros [? ? ? ?]. by split. Qed.

Lemma Update_applied E movie db r genres :
  consistent db →
  row_with_id (ID movie) db = Some r → movies.version r = Version movie →
  Genres movie = Some genres → update_in_range movie →
  applied movie db (Update (pg_model E Healthy) movie db).
Proof.
  intros Hdb Hr Hv Hg Hrange. rewrite Update_postgres by done. cbv zeta.
  rewrite Hr, Hg, !decide_True by done.
  split; [done|]. exists r, genres. simpl. repeat split; try done.
  - rewrite <- (row_with_id_received (update_statement movie)) in Hr.
    exact (row_with_id_updated_same movie genres
             (received (update_statement movie) db) r Hr Hv).
  - intros i Hi.
    exact (row_with_id_updated_other movie genres
             (received (update_statement movie) db) i Hi).
Qed.

Lemma Update_conflict E movie db :
  consistent db →
  (∀ r, row_with_id (ID movie) db = Some r → movies.version r ≠ Version movie) →
  conflict movie db (Update (pg_model E Healthy) movie db).
Proof.
  intros Hdb Hstale. rewrite Update_postgres by done. cbv zeta.
  destruct (row_with_id (ID movie) db) as [r|] eqn:Hr.
  - rewrite decide_False by (by apply Hstale).
    repeat split; try done. intros r' Hr'. rewrite Hr in Hr'. by apply Hstale.
  - repeat split; try done. intros r Hr'. congruence.
Qed.

(** Every run of [Update] on PostgreSQL ends in one of the three outcomes. *)
Lemma Update_trichotomy E f movie db :
  consistent db →
  let res := Update (pg_model E f) movie db in
  applied movie db res ∨ conflict movie db res ∨ failed res.
Proof.
  intros Hdb res. subst res. destruct f as [|msg|n msg].
  - destruct (row_with_id (ID movie) db) as [r|] eqn:Hr.
    + destruct (decide (movies.version r = Version movie)) as [Hv|Hv].
      * destruct (Genres movie) as [genres|] eqn:Hg.
        -- destruct (decide (update_in_range movie)) as [Hrange|Hrange].
           ++ left. by eapply Update_applied.
           ++ right; right. rewrite Update_postgres by done. cbv zeta.
              rewrite Hr, Hg, decide_True, decide_False by done.
              by eexists.
        -- right; right. rewrite Update_postgres by done. cbv zeta.
           rewrite Hr, Hg, decide_True by done. by eexists.
      * right; left. apply Update_conflict; [done|].
        intros r'. rewrite Hr. by intros [= <-].
    + right; left. apply Update_conflict; [done|]. by rewrite Hr.
  - right; right. rewrite Update_postgres_refused. by eexists.
  - right; right.
    destruct (Update_postgres_truncated E n msg movie db Hdb)
      as (movie' & e & Hres & He).
    unfold failed. rewrite Hres. simpl.
    destruct He as [->|[->| ->]]; by eexists.
Qed.

Lemma Update_exclusive movie db res :
  ¬ (applied movie db res ∧ conflict movie db res) ∧
  ¬ (applied movie db res ∧ failed res) ∧
  ¬ (conflict movie db res ∧ failed res).
Proof.
  unfold applied, conflict, failed. repeat split.
  - intros [[H1 _] [H2 _]]. congruence.
  - intros [[H1 _] (msg & H2)]. congruence.
  - intros [[H1 _] (msg & H2)]. congruence.
Qed.

Lemma Update_request E f movie db :
  requests (Update (pg_model E f) movie db).2
  = update_statement movie :: requests db.
Proof.
  unfold Update, QueryRowContext. simpl. fold (update_statement movie).
  destruct f as [|msg|n msg]; simpl.
  - destruct (pg_update _ _ _ _ _ _ _) as [r db'] eqn:Hpg.
    assert (requests db' = update_statement movie :: requests db) as Hreq.
    { unfold pg_update in Hpg. repeat case_match; by simplify_eq. }
    simpl. by repeat case_match.
  - done.
  - destruct (pg_update _ _ _ _ _ _ _) as [r db'] eqn:Hpg.
    assert (requests db' = update_statement movie :: requests db) as Hreq.
    { unfold pg_update in Hpg. repeat case_match; by simplify_eq. }
    simpl. by repeat case_match.
Qed.

Lemma Update_translates {W} (m : MovieModel W) movie w :
  let answer := QueryRowContext (DB m) (update_statement movie) w in
  let scan := Row_Scan answer.1 [into_int32 set_Version] movie in
  Update m movie w =
  ((scan.1,
    match scan.2 with
    | None => None
    | Some e => Some (if decide (e = ErrNoRows) then ErrEditConflict else e)
    end), answer.2).
Proof.
  intros answer scan. subst scan answer. unfold Update.
  fold (update_statement movie).
  destruct (QueryRowContext (DB m) (update_statement movie) w) as [answer w'].
  simpl. destruct (Row_Scan answer _ movie) as [movie' [e|]]; simpl; [|done].
  unfold errors_Is. destruct (decide (e = ErrNoRows)) as [->|Hne].
  - by rewrite bool_decide_eq_true_2.
  - by rewrite bool_decide_eq_false_2.
Qed.

(** A successful [Update] found the row at the version it was sent with and
    left it one version further. *)
Lemma Update_success E f movie db :
  consistent db →
  (Update (pg_model E f) movie db).1.2 = None →
  ∃ r genres,
    row_with_id (ID movie) db = Some r ∧
    movies.version r = Version movie ∧
    Genres movie = Some genres ∧
    update_in_range movie ∧
    Update (pg_model E f) movie db =
    ((set_Version (Version movie + 1) movie, None),
     with_table (updated_table movie genres (movies_table db))
       (received (update_statement movie) db)).
Proof.
  intros Hdb. destruct f as [|msg|n msg].
  - rewrite Update_postgres by done. cbv zeta.
    destruct (row_with_id (ID movie) db) as [r|]; [|done].
    case_decide; [|done]. destruct (Genres movie) as [genres|]; [|done].
    case_decide; [|done]. intros _. by exists r, genres.
  - by rewrite Update_postgres_refused.
  - destruct (Update_postgres_truncated E n msg movie db Hdb)
      as (movie' & e & Hres & _).
    by rewrite Hres.
Qed.

(** An [Update] sent with another version than the row's, or for a row that
    is not there, changes nothing, whatever happens to the request. *)
Lemma Update_stale E f movie db :
  consistent db →
  (∀ r, row_with_id (ID movie) db = Some r → movies.version r ≠ Version movie) →
  let res := Update (pg_model E f) movie db in
  res.1.2 ≠ None ∧ res.1.1 = movie ∧ movies_table res.2 = movies_table db ∧
  (f = Healthy → res.1.2 = Some ErrEditConflict).
Proof.
  intros Hdb Hstale res. subst res. destruct f as [|msg|n msg].
  - destruct (Update_conflict E movie db Hdb Hstale) as (He & Hm & Ht & _).
    rewrite He. by repeat split.
  - by rewrite Update_postgres_refused.
  - unfold Update, QueryRowContext. simpl. fold (update_statement movie).
    rewrite (pg_update_consistent movie (received (update_statement movie) db))
      by apply Hdb.
    rewrite row_with_id_received.
    destruct (row_with_id (ID movie) db) as [r|] eqn:Hr;
      [|by destruct n].
    rewrite decide_False by (by apply Hstale). by destruct n.
Qed.

Lemma Updates_versions E steps : ∀ movie db movie' db',
  consistent db →
  Updates E steps movie db = Some (movie', db') →
  consistent db' ∧
  ID movie' = ID movie ∧
  Version movie' = Version movie + Z.of_nat (length steps) ∧
  (steps ≠ [] →
   (∃ r, row_with_id (ID movie) db = Some r
         ∧ movies.version r = Version movie) ∧
   (∃ r', row_with_id (ID movie) db' = Some r'
          ∧ movies.version r' = Version movie + Z.of_nat (length steps))).
Proof.
  induction steps as [|[f e] steps IH]; intros movie db movie' db' Hdb Hrun.
  - simpl in Hrun. injection Hrun as <- <-.
    split; [done|]. split; [done|]. split; [simpl; lia|]. done.
  - simpl in Hrun.
    destruct (Update (pg_model E f) (apply_edit e movie) db)
      as [[movie1 err] db1] eqn:Hup.
    destruct err as [err|]; [done|].
    destruct (Update_success E f (apply_edit e movie) db Hdb) as
      (r & genres & Hr & Hv & Hg & Hrange & Heq); [by rewrite Hup|].
    rewrite Hup in Heq. injection Heq as -> ->.
    assert (consistent
              (with_table (updated_table (apply_edit e movie) genres
                             (movies_table db))
                 (received (update_statement (apply_edit e movie)) db)))
      as Hdb1.
    { apply consistent_received_table. by apply updated_table_consistent. }
    destruct (IH _ _ _ _ Hdb1 Hrun) as (Hdb' & Hid & Hver & Hrows).
    simpl in Hid, Hver, Hr, Hv. split; [done|]. split; [done|].
    split; [rewrite Hver; simpl length; lia|]. intros _. split; [by exists r|].
    destruct (decide (steps = [])) as [->|Hsteps].
    + simpl in Hrun. injection Hrun as <- <-.
      eexists. split.
      * exact (row_with_id_updated_same (apply_edit e movie) genres
                 (received (update_statement (apply_edit e movie)) db)
                 r Hr Hv).
      * simpl. lia.
    + destruct (Hrows Hsteps) as [_ (r' & Hr' & Hv')]. exists r'.
      split; [exact Hr'|]. rewrite Hv'. simpl. lia.
Qed.

(** ** Insert *)

Lemma insert_statement_mutable a b :
  same_mutable_fields a b → insert_statement a = insert_statement b.
Proof. intros (Ht & Hy & Hr & Hg). unfold insert_statement. congruence. Qed.

Lemma Insert_translates {W} (m : MovieModel W) movie w :
  let answer := QueryRowContext (DB m) (insert_statement movie) w in
  Insert m movie w = (Row_Scan answer.1 generated_dests movie, answer.2).
Proof.
  intros answer. subst answer. unfold Insert. fold (insert_statement movie).
  by destruct (QueryRowContext (DB m) (insert_statement movie) w).
Qed.

(** The scan of the generated columns, tuple shape by tuple shape. *)
Lemma Rows_Scan_generated t movie movie' :
  Rows_Scan t generated_dests movie = (movie', None) →
  ∃ id c v, t = [VInt id; VTime c; VInt v] ∧
    movie' = mkMovie id c (Title movie) (Year movie) (Runtime movie)
                     (Genres movie) v.
Proof.
  unfold Rows_Scan, generated_dests. case_bool_decide as Hlen; [|done].
  destruct t as [|v1 [|v2 [|v3 [|]]]]; try done. clear Hlen. simpl.
  destruct v1 as [|id| | |]; simpl; try done. case_bool_decide; [|done].
  destruct v2 as [| | |c|]; simpl; try done.
  destruct v3 as [|v| | |]; simpl; try done. case_bool_decide; [|done].
  intros [= <-]. by exists id, c, v.
Qed.

Lemma Rows_Scan_generated_mutable t movie :
  same_mutable_fields (Rows_Scan t generated_dests movie).1 movie.
Proof.
  unfold Rows_Scan, generated_dests. case_bool_decide as Hlen; [|done].
  destruct t as [|v1 [|v2 [|v3 [|]]]]; try done. clear Hlen. simpl.
  destruct v1 as [|id| | |]; simpl; try done. case_bool_decide; [|done].
  destruct v2 as [| | |c|]; simpl; try done.
  destruct v3 as [|v| | |]; simpl; try done. by case_bool_decide.
Qed.

Lemma Row_Scan_generated_mutable r movie :
  same_mutable_fields (Row_Scan r generated_dests movie).1 movie.
Proof.
  unfold Row_Scan. destruct r as [[[|t ts] err]|e]; simpl; try done.
  pose proof (Rows_Scan_generated_mutable t movie) as Hscan.
  by destruct (Rows_Scan t generated_dests movie) as [movie' [e|]].
Qed.

(** With the same mutable fields the scan ends the same way, and on success
    nothing of what the caller had put in the other fields is left. *)
Lemma Rows_Scan_generated_same t a b :
  same_mutable_fields a b →
  (Rows_Scan t generated_dests a).2 = (Rows_Scan t generated_dests b).2 ∧
  ((Rows_Scan t generated_dests a).2 = None →
   (Rows_Scan t generated_dests a).1 = (Rows_Scan t generated_dests b).1).
Proof.
  intros (Ht & Hy & Hr & Hg).
  unfold Rows_Scan, generated_dests. case_bool_decide as Hlen; [|done].
  destruct t as [|v1 [|v2 [|v3 [|]]]]; try done. clear Hlen. simpl.
  destruct v1 as [|id| | |]; simpl; try done. case_bool_decide; [|done].
  destruct v2 as [| | |c|]; simpl; try done.
  destruct v3 as [|v| | |]; simpl; try done. case_bool_decide; [|done].
  simpl. split; [done|]. intros _. unfold set_Version. simpl. congruence.
Qed.

Lemma Row_Scan_generated_same r a b :
  same_mutable_fields a b →
  (Row_Scan r generated_dests a).2 = (Row_Scan r generated_dests b).2 ∧
  ((Row_Scan r generated_dests a).2 = None →
   (Row_Scan r generated_dests a).1 = (Row_Scan r generated_dests b).1).
Proof.
  intros Hab.
  unfold Row_Scan. destruct r as [[[|t ts] err]|e]; simpl; try done.
  destruct (Rows_Scan_generated_same t a b Hab) as [He Hm].
  destruct (Rows_Scan t generated_dests a) as [a' [ea|]],
    (Rows_Scan t generated_dests b) as [b' [eb|]]; simpl in *; try done.
  split; [done|]. intros ->. by rewrite Hm.
Qed.

Lemma Insert_postgres E movie genres db :
  consistent db → movies_id_seq db ≤ int64_max →
  Genres movie = Some genres →
  in_int32 (Year movie) → in_int32 (Runtime movie) →
  Insert (pg_model E Healthy) movie db =
  ((movie_of_row (inserted_row movie genres db), None),
   with_table (movies_table db ++ [inserted_row movie genres db])
     (with_next_id (received (insert_statement movie) db))).
Proof.
  intros Hdb Hseq Hg Hy Hr. unfold Insert, QueryRowContext. simpl.
  unfold pg_insert. simpl.
  rewrite bool_decide_eq_false_2 by lia. unfold pq_Array. rewrite Hg.
  rewrite bool_decide_eq_true_2 by done. simpl.
  unfold Row_Scan, Rows_Scan. simpl.
  assert (in_int64 (movies_id_seq db)) as Hid.
  { destruct Hdb as [Hpos _ _ _]. unfold in_int64, int64_min. split; lia. }
  rewrite bool_decide_eq_true_2 by done. simpl.
  unfold movie_of_row, inserted_row, insert_statement, pq_Array, set_Version.
  simpl. by rewrite Hg.
Qed.

(** C10. [Insert] sends the insert statement made of the title, year,
    runtime and genres of the movie and of nothing else, and it never
    changes these four fields of the caller's movie.  When it succeeds, the
    id, creation time and version of the movie are the three values the
    engine returned: two movies that agree on the four mutable fields cause
    the same request and the same outcome, and after a success they are
    equal, so nothing the caller had put in the other three fields is sent
    or kept. *)
Theorem Insert_frame :
  (∀ W (m : MovieModel W) movie w,
     let answer := QueryRowContext (DB m) (insert_statement movie) w in
     (Insert m movie w).2 = answer.2 ∧
     same_mutable_fields (Insert m movie w).1.1 movie ∧
     ((Insert m movie w).1.2 = None →
      ∃ id created version rest,
        answer.1 = Ok (mkRows ([VInt id; VTime created; VInt version] :: rest)
                              None) ∧
        (Insert m movie w).1.1 =
        mkMovie id created (Title movie) (Year movie) (Runtime movie)
                (Genres movie) version)) ∧
  (∀ W (m : MovieModel W) a b w,
     same_mutable_fields a b →
     (Insert m a w).2 = (Insert m b w).2 ∧
     (Insert m a w).1.2 = (Insert m b w).1.2 ∧
     ((Insert m a w).1.2 = None → (Insert m a w).1.1 = (Insert m b w).1.1)) ∧
  (∀ E f movie db,
     requests (Insert (pg_model E f) movie db).2
     = InsertMovie (Title movie) (Year movie) (Runtime movie) (Genres movie)
       :: requests db) ∧
  (∀ E movie genres db,
     consistent db → movies_id_seq db ≤ int64_max →
     Genres movie = Some genres →
     in_int32 (Year movie) → in_int32 (Runtime movie) →
     let res := Insert (pg_model E Healthy) movie db in
     res.1.2 = None ∧
     res.1.1 = mkMovie (movies_id_seq db) (clock db) (Title movie)
                       (Year movie) (Runtime movie) (Genres movie) 1 ∧
     movies_table res.2
     = movies_table db ++ [movies.mk (movies_id_seq db) (clock db)
                             (Title movie) (Year movie) (Runtime movie)
                             genres 1]).
Proof.
  split; [|split; [|split]].
  - intros W m movie w answer. rewrite Insert_translates. fold answer. simpl.
    split; [done|]. split; [apply Row_Scan_generated_mutable|].
    intros Hok. unfold Row_Scan in *.
    destruct (answer.1) as [[[|t ts] err]|e]; simpl in *; try done.
    destruct (Rows_Scan t generated_dests movie) as [movie' [e|]] eqn:Hscan;
      [done|].
    simpl in Hok. subst err.
    apply Rows_Scan_generated in Hscan as (id & c & v & -> & ->).
    by exists id, c, v, ts.
  - intros W m a b w Hab. rewrite !Insert_translates.
    rewrite (insert_statement_mutable a b Hab). simpl.
    split; [done|]. by apply Row_Scan_generated_same.
  - intros E f movie db. rewrite Insert_translates. simpl.
    unfold pg_insert. simpl. destruct f; simpl; repeat case_match; by simplify_eq.
  - intros E movie genres db Hdb Hseq Hg Hy Hr res. subst res.
    rewrite (Insert_postgres E movie genres db) by done. simpl.
    unfold movie_of_row, inserted_row, movies.version_default. simpl.
    by rewrite Hg.
Qed.

(** ** The engine keeps the table consistent and the versions in step *)

Lemma row_with_id_elem db r :
  NoDup (movies.id <$> movies_table db) → r ∈ movies_table db →
  row_with_id (movies.id r) db = Some r.
Proof. intros Hnd Hr. unfold row_with_id. by rewrite filter_key_present. Qed.

Lemma consistent_next_id db : consistent db → consistent (with_next_id db).
Proof.
  intros [Hpos Hnd Hiss Hty]. split; simpl; try done; [lia|].
  eapply Forall_impl; [exact Hiss|]. simpl. intros; lia.
Qed.

Lemma pg_insert_consistent title year runtime genres db :
  consistent db → consistent (pg_insert title year runtime genres db).2.
Proof.
  intros Hdb. unfold pg_insert. case_bool_decide as Hmax; [done|].
  destruct genres as [genres|]; [|by apply consistent_next_id].
  case_bool_decide as Hrange; [|by apply consistent_next_id].
  destruct Hdb as [Hpos Hnd Hiss Hty]. destruct Hrange as [Hy Hr].
  split; simpl.
  - lia.
  - rewrite fmap_app. apply NoDup_app. split; [done|]. split.
    + intros i Hi. simpl. rewrite list_elem_of_singleton. intros ->.
      apply list_elem_of_fmap in Hi as (r & Heq & Hin).
      rewrite Forall_forall in Hiss. specialize (Hiss r Hin). lia.
    + apply NoDup_singleton.
  - apply Forall_app. split.
    + eapply Forall_impl; [exact Hiss|]. simpl. intros; lia.
    + apply Forall_singleton. simpl. lia.
  - apply Forall_app. split; [done|]. apply Forall_singleton.
    unfold row_typed, in_int64, in_int32, int64_min, int32_min, int32_max,
      movies.version_default in *. simpl. lia.
Qed.

Lemma pg_update_args title year runtime genres id version db :
  pg_update title year runtime genres id version db =
  let movie := mkMovie id 0 title year runtime genres version in
  pg_update (Title movie) (Year movie) (Runtime movie)
            (pq_Array (Genres movie)) (ID movie) (Version movie) db.
Proof. done. Qed.

Lemma Forall_filter_sub {A} (P : A → Prop) (Q : A → Prop)
    `{∀ x, Decision (Q x)} (l : list A) :
  Forall P l → Forall P (filter Q l).
Proof.
  rewrite !Forall_forall. intros HP x Hx.
  apply list_elem_of_filter in Hx as [_ Hx]. auto.
Qed.

Lemma pg_delete_consistent id db :
  consistent db → consistent (pg_delete id db).2.
Proof.
  intros [Hpos Hnd Hiss Hty]. unfold pg_delete. split; simpl.
  - done.
  - eapply sublist_NoDup; [exact Hnd|]. apply fmap_sublist, sublist_filter.
  - by apply Forall_filter_sub.
  - by apply Forall_filter_sub.
Qed.

Lemma pg_execute_consistent E s db :
  consistent db → consistent (pg_execute E s db).2.
Proof.
  intros Hdb. destruct s; simpl.
  - pose proof (pg_insert_consistent title year runtime genres db Hdb).
    by destruct (pg_insert title year runtime genres db).
  - done.
  - rewrite pg_update_args. cbv zeta.
    set (movie := mkMovie id 0 title year runtime genres version).
    rewrite pg_update_consistent by apply Hdb.
    destruct (row_with_id (ID movie) db); [|done]. case_decide; [|done].
    destruct (Genres movie) as [g|]; [|done].
    case_decide as Hrange; [|done]. cbn [snd].
    exact (updated_table_consistent movie g db Hrange Hdb).
  - exact (pg_delete_consistent id db Hdb).
  - done.
Qed.

(** One statement leaves a row as it is, or one version further when it is
    the update sent with the row's version; a row that appears was inserted
    with version 1. *)
Lemma pg_execute_versions E s db i r' :
  consistent db →
  row_with_id i (pg_execute E s db).2 = Some r' →
  match row_with_id i db with
  | Some r =>
      r' = r ∨
      (movies.version r' = movies.version r + 1 ∧
       ∃ title year runtime genres,
         s = UpdateMovie title year runtime (Some genres) i (movies.version r))
  | None =>
      movies.version r' = 1 ∧
      ∃ title year runtime genres, s = InsertMovie title year runtime genres
  end.
Proof.
  intros Hdb.
  assert (row_with_id i db = Some r' →
          match row_with_id i db with
          | Some r =>
              r' = r ∨
              (movies.version r' = movies.version r + 1 ∧
               ∃ title year runtime genres,
                 s = UpdateMovie title year runtime (Some genres) i
                       (movies.version r))
          | None =>
              movies.version r' = 1 ∧
              ∃ title year runtime genres,
                s = InsertMovie title year runtime genres
          end) as Hsame.
  { intros ->. by left. }
  destruct s; simpl.
  - unfold pg_insert. case_bool_decide; [exact Hsame|].
    destruct genres as [genres|]; [|exact Hsame].
    case_bool_decide; [|exact Hsame]. simpl.
    unfold row_with_id. simpl. rewrite filter_app.
    fold (row_with_id i db). clear Hsame.
    destruct (filter (λ r, movies.id r = i) (movies_table db)) as [|r t]
      eqn:Hfilter; simpl.
    + intros Hhead. apply head_Some_elem_of in Hhead.
      apply list_elem_of_filter in Hhead as [_ Hin].
      apply list_elem_of_singleton in Hin as ->. unfold row_with_id.
      rewrite Hfilter. split; [done|]. eauto.
    + intros [= <-]. unfold row_with_id. rewrite Hfilter. by left.
  - exact Hsame.
  - rewrite pg_update_args. cbv zeta.
    set (movie := mkMovie id 0 title year runtime genres version).
    rewrite pg_update_consistent by apply Hdb.
    destruct (row_with_id (ID movie) db) as [r|] eqn:Hr; [|exact Hsame].
    case_decide as Hv; [|exact Hsame].
    destruct (Genres movie) as [g|] eqn:Hg; [|exact Hsame].
    case_decide; [|exact Hsame]. clear Hsame.
    cbn [snd]. rewrite row_with_id_updated.
    destruct (row_with_id i db) as [x|] eqn:Hx; [|done]. simpl.
    intros [= <-]. unfold updated_row. case_decide as Hm; [|by left]. right.
    destruct Hm as [Hid Hver]. simpl in Hid, Hver, Hg. split; [done|].
    apply row_with_id_Some in Hx as [_ <-]. rewrite Hid, Hver, Hg. eauto 6.
  - unfold pg_delete. simpl. intros Hr'.
    apply row_with_id_Some in Hr' as [Hin <-]. simpl in Hin.
    apply list_elem_of_filter in Hin as [_ Hin].
    rewrite row_with_id_elem by (done || apply Hdb). by left.
  - exact Hsame.
Qed.

Lemma QueryContext_effect E f s db :
  (QueryContext (postgres E f) s db).2 =
  match f with
  | Refused _ => received s db
  | _ => (pg_execute E s (received s db)).2
  end.
Proof.
  destruct f; simpl; try done; by destruct (pg_execute E s (received s db)).
Qed.

Lemma ExecContext_effect E f s db :
  (ExecContext (postgres E f) s db).2 = (QueryContext (postgres E f) s db).2.
Proof.
  destruct f; simpl; try done; by destruct (pg_execute E s (received s db)).
Qed.

Lemma request_consistent E f s db :
  consistent db → consistent (QueryContext (postgres E f) s db).2.
Proof.
  intros Hdb. rewrite QueryContext_effect.
  destruct f; try apply pg_execute_consistent; by apply consistent_received.
Qed.

Lemma request_versions E f s db i r' :
  consistent db →
  row_with_id i (QueryContext (postgres E f) s db).2 = Some r' →
  match row_with_id i db with
  | Some r =>
      r' = r ∨
      (movies.version r' = movies.version r + 1 ∧
       ∃ title year runtime genres,
         s = UpdateMovie title year runtime (Some genres) i (movies.version r))
  | None =>
      movies.version r' = 1 ∧
      ∃ title year runtime genres, s = InsertMovie title year runtime genres
  end.
Proof.
  intros Hdb. rewrite QueryContext_effect.
  pose proof (pg_execute_versions E s (received s db) i r'
                (consistent_received s db Hdb)) as Hexec.
  rewrite row_with_id_received in Hexec.
  destruct f; try exact Hexec.
  rewrite row_with_id_received. intros ->. by left.
Qed.

(** C1. [Update] sends the one statement that names the id and the version
    of the caller's movie, and translates its outcome: the no-rows signal
    becomes EditConflict, every other error is returned as it is.  On
    PostgreSQL exactly one of three outcomes occurs: the row stored under
    the id at that version was rewritten and is one version further, which
    is the version returned; or no row was at that id and version, nothing
    changed and the error is EditConflict; or an error of the backend is
    returned.  NotFound and the raw no-rows signal are never returned. *)
Theorem Update_outcomes :
  (∀ W (m : MovieModel W) movie w,
     let answer := QueryRowContext (DB m) (update_statement movie) w in
     let scan := Row_Scan answer.1 [into_int32 set_Version] movie in
     (Update m movie w).2 = answer.2 ∧
     (Update m movie w).1.1 = scan.1 ∧
     (scan.2 = None → (Update m movie w).1.2 = None) ∧
     (scan.2 = Some ErrNoRows →
      (Update m movie w).1.2 = Some ErrEditConflict) ∧
     (∀ e, e ≠ ErrNoRows → scan.2 = Some e →
        (Update m movie w).1.2 = Some e)) ∧
  (∀ E f movie db, consistent db →
     let res := Update (pg_model E f) movie db in
     requests res.2
     = UpdateMovie (Title movie) (Year movie) (Runtime movie) (Genres movie)
                   (ID movie) (Version movie) :: requests db ∧
     (applied movie db res ∨ conflict movie db res ∨ failed res) ∧
     ¬ (applied movie db res ∧ conflict movie db res) ∧
     ¬ (applied movie db res ∧ failed res) ∧
     ¬ (conflict movie db res ∧ failed res) ∧
     (applied movie db res →
      ∃ r r', row_with_id (ID movie) db = Some r ∧
              row_with_id (ID movie) res.2 = Some r' ∧
              movies.version r' = movies.version r + 1 ∧
              Version res.1.1 = movies.version r') ∧
     res.1.2 ≠ Some ErrRecordNotFound ∧ res.1.2 ≠ Some ErrNoRows) ∧
  (∀ E movie db, consistent db →
     let res := Update (pg_model E Healthy) movie db in
     (conflict movie db res ↔
      ∀ r, row_with_id (ID movie) db = Some r →
           movies.version r ≠ Version movie) ∧
     (applied movie db res ↔
      ∃ r genres, row_with_id (ID movie) db = Some r ∧
                  movies.version r = Version movie ∧
                  Genres movie = Some genres ∧ update_in_range movie)).
Proof.
  split; [|split].
  - intros W m movie w answer scan. rewrite Update_translates.
    fold answer. fold scan. simpl. split; [done|]. split; [done|].
    split; [|split].
    + by intros ->.
    + by intros ->.
    + intros e Hne ->. by rewrite decide_False.
  - intros E f movie db Hdb res.
    pose proof (Update_trichotomy E f movie db Hdb) as Htri.
    destruct (Update_exclusive movie db res) as (Hx1 & Hx2 & Hx3).
    split; [apply Update_request|]. split; [exact Htri|].
    split; [done|]. split; [done|]. split; [done|]. split.
    + intros (_ & r & genres & Hr & Hv & _ & Hm & Hr' & _).
      exists r. eexists. split; [done|]. split; [exact Hr'|].
      rewrite Hm. simpl. lia.
    + cbv zeta in Htri. fold res in Htri.
      destruct Htri as [[He _]|[[He _]|(msg & He)]]; rewrite He; done.
  - intros E movie db Hdb res. split.
    + split; [by intros (_ & _ & _ & ?)|]. by apply Update_conflict.
    + split.
      * intros [He _]. subst res.
        destruct (Update_success E Healthy movie db Hdb He)
          as (r & genres & ? & ? & ? & ? & _).
        by exists r, genres.
      * intros (r & genres & ? & ? & ? & ?). by eapply Update_applied.
Qed.

Lemma Insert_effect {W} (m : MovieModel W) movie w :
  (Insert m movie w).2 = (QueryContext (DB m) (insert_statement movie) w).2.
Proof. by rewrite Insert_translates. Qed.

(** C2. A row is inserted at version 1.  Successive updates that all
    succeed, each sent with the version the previous one returned, leave the
    movie and its row as many versions further as there were updates.  An
    update sent with another version than the row's never succeeds and
    leaves the table as it was; its error is EditConflict when the backend
    answers.  Whatever requests the engine receives, a row either stays, or
    moves one version further through an update sent with its version. *)
Theorem version_discipline :
  (∀ E movie genres db,
     consistent db → movies_id_seq db ≤ int64_max →
     Genres movie = Some genres →
     in_int32 (Year movie) → in_int32 (Runtime movie) →
     let res := Insert (pg_model E Healthy) movie db in
     res.1.2 = None ∧ Version res.1.1 = 1 ∧
     ∃ r, row_with_id (ID res.1.1) res.2 = Some r ∧ movies.version r = 1) ∧
  (∀ E steps movie db movie' db',
     consistent db →
     Updates E steps movie db = Some (movie', db') →
     Version movie' = Version movie + Z.of_nat (length steps) ∧
     (steps ≠ [] →
      (∃ r, row_with_id (ID movie) db = Some r
            ∧ movies.version r = Version movie) ∧
      (∃ r', row_with_id (ID movie) db' = Some r'
             ∧ movies.version r'
               = Version movie + Z.of_nat (length steps)))) ∧
  (∀ E f movie db,
     consistent db →
     (∀ r, row_with_id (ID movie) db = Some r →
           movies.version r ≠ Version movie) →
     let res := Update (pg_model E f) movie db in
     res.1.2 ≠ None ∧ res.1.1 = movie ∧
     movies_table res.2 = movies_table db ∧
     (f = Healthy → res.1.2 = Some ErrEditConflict)) ∧
  (∀ E f s db,
     consistent db →
     let db' := (QueryContext (postgres E f) s db).2 in
     consistent db' ∧
     ∀ i r', row_with_id i db' = Some r' →
       match row_with_id i db with
       | Some r =>
           r' = r ∨
           (movies.version r' = movies.version r + 1 ∧
            ∃ title year runtime genres,
              s = UpdateMovie title year runtime (Some genres) i
                              (movies.version r))
       | None =>
           movies.version r' = 1 ∧
           ∃ title year runtime genres,
             s = InsertMovie title year runtime genres
       end).
Proof.
  split; [|split; [|split]].
  - intros E movie genres db Hdb Hseq Hg Hy Hr res.
    assert (consistent res.2) as Hres.
    { subst res. rewrite Insert_effect. by apply request_consistent. }
    subst res. rewrite (Insert_postgres E movie genres db) in * by done.
    simpl in *. split; [done|]. split; [done|].
    exists (inserted_row movie genres db). split; [|done].
    apply (row_with_id_elem _ (inserted_row movie genres db));
      [apply Hres|]. simpl. apply elem_of_app. right.
    by apply list_elem_of_singleton.
  - intros E steps movie db movie' db' Hdb Hrun.
    destruct (Updates_versions E steps movie db movie' db' Hdb Hrun)
      as (_ & _ & Hv & Hrows). by split.
  - intros E f movie db Hdb Hstale. by apply Update_stale.
  - intros E f s db Hdb db'. split; [by apply request_consistent|].
    intros i r'. by apply request_versions.
Qed.

(** ** The listing *)

(** A consistent table has no more rows than there are keys. *)
Lemma consistent_length db :
  consistent db → Z.of_nat (length (movies_table db)) ≤ int64_max.
Proof.
  intros [_ Hnd Hiss Hty].
  assert (movies.id <$> movies_table db ⊆+ seqZ 1 int64_max) as Hsub.
  { apply NoDup_submseteq; [done|]. intros i Hi.
    apply list_elem_of_fmap in Hi as (r & -> & Hr).
    rewrite Forall_forall in Hty, Hiss.
    destruct (Hty r Hr) as [[_ Hmax] _]. specialize (Hiss r Hr).
    apply elem_of_seqZ. lia. }
  apply submseteq_length in Hsub. rewrite length_fmap, length_seqZ in Hsub.
  unfold int64_max in *. lia.
Qed.

Lemma Rows_Scan_listing (count total : Z) (r : movies.row) :
  in_int64 count → row_typed r →
  Rows_Scan (VInt count :: tuple_of_row r) listing_dests (total, Movie_zero)
  = ((count, movie_of_row r), None).
Proof.
  intros Hc (Hid & Hy & Hr & Hv). unfold Rows_Scan, tuple_of_row. simpl.
  rewrite !bool_decide_eq_true_2 by done. reflexivity.
Qed.

(** The loop over a page: every movie is appended in order, and the count
    that comes with the tuples is kept, if there is any tuple. *)
Lemma scan_movies_page (count : Z) (rows : list movies.row) :
  in_int64 count → Forall row_typed rows →
  ∀ total movies,
    scan_movies ((λ r, VInt count :: tuple_of_row r) <$> rows) total movies
    = Ok (match rows with [] => total | _ => count end,
          movies ++ (movie_of_row <$> rows)).
Proof.
  intros Hc Hrows. induction Hrows as [|r rows Hr Hrows IH];
    intros total movies.
  - simpl. by rewrite app_nil_r.
  - rewrite fmap_cons. cbn [scan_movies]. fold listing_dests.
    rewrite Rows_Scan_listing by done. cbn [fst snd].
    rewrite IH, fmap_cons, <- app_assoc. by destruct rows.
Qed.

Lemma sortDirection_resolves filters :
  resolve_direction (sortDirection filters)
  = Some (HasPrefix_dash (Sort filters)).
Proof. unfold sortDirection. by destruct (HasPrefix_dash (Sort filters)). Qed.

Lemma window_typed {A} (P : A → Prop) limit offset (l : list A) :
  Forall P l → Forall P (window limit offset l).
Proof. intros Hl. unfold window. by apply Forall_take, Forall_drop. Qed.

Lemma matching_typed E title genres db :
  consistent db → Forall row_typed (matching E title genres db).
Proof. intros Hdb. apply Forall_filter_sub, Hdb. Qed.

Lemma listing_Permutation E c desc title genres db :
  listing E c desc title genres db ≡ₚ matching E title genres db.
Proof. apply merge_sort_Permutation. Qed.

Lemma listing_typed E c desc title genres db :
  consistent db → Forall row_typed (listing E c desc title genres db).
Proof.
  intros Hdb. rewrite listing_Permutation. by apply matching_typed.
Qed.

Lemma matching_length E title genres db :
  consistent db →
  in_int64 (Z.of_nat (length (matching E title genres db))).
Proof.
  intros Hdb. pose proof (consistent_length db Hdb) as Hlen.
  pose proof (length_filter (matches E title genres) (movies_table db)).
  unfold matching, in_int64, int64_min. lia.
Qed.

(** What [GetAll] returns from a healthy engine. *)
Lemma GetAll_postgres E title genres filters db c desc :
  consistent db →
  sort_resolves (Sort filters) (SortSafelist filters) c desc →
  0 ≤ limit filters → 0 ≤ offset filters →
  let rows :=
    window (limit filters) (offset filters)
           (listing E c desc title (pq_Array genres) db) in
  let totalRecords :=
    match rows with
    | [] => 0
    | _ => Z.of_nat (length (matching E title (pq_Array genres) db))
    end in
  GetAll (pg_model E Healthy) title genres filters db =
  Some ((Some (movie_of_row <$> rows),
         calculateMetadata totalRecords (Page filters) (PageSize filters),
         None),
        received (list_statement title genres filters) db).
Proof.
  intros Hdb (Hsafe & Hcol & ->) Hlimit Hoffset rows totalRecords.
  unfold GetAll, sortColumn. rewrite bool_decide_eq_true_2 by done.
  cbn [mbind option_bind]. fold (list_statement title genres filters).
  cbn [DB pg_model postgres QueryContext pg_execute list_statement].
  unfold pg_select_movies. rewrite Hcol, sortDirection_resolves.
  rewrite !bool_decide_eq_false_2 by lia.
  cbn [mbind result_bind mret result_ret fst snd Rows_tuples Rows_Err].
  change (movies_table (received _ db)) with (movies_table db).
  fold (matching E title (pq_Array genres) db).
  fold (listing E c (HasPrefix_dash (Sort filters)) title (pq_Array genres) db).
  fold (window (limit filters) (offset filters)
          (listing E c (HasPrefix_dash (Sort filters)) title
             (pq_Array genres) db)).
  fold rows.
  rewrite scan_movies_page.
  - done.
  - by apply matching_length.
  - by apply window_typed, listing_typed.
Qed.

(** ** The order of the listing *)

Section order.
Context (E : Engine) (HE : collation E).

Lemma array_leb_total a b :
  array_leb (text_leb E) a b = true ∨ array_leb (text_leb E) b a = true.
Proof.
  revert b. induction a as [|x a IH]; intros [|y b]; simpl; auto.
  destruct (text_total E HE x y) as [Hxy|Hyx].
  - rewrite Hxy. destruct (text_leb E y x); [apply IH|auto].
  - rewrite Hyx. destruct (text_leb E x y); [apply IH|auto].
Qed.

Lemma array_leb_trans a b c :
  array_leb (text_leb E) a b = true → array_leb (text_leb E) b c = true →
  array_leb (text_leb E) a c = true.
Proof.
  revert b c. induction a as [|x a IH]; intros [|y b] [|z c]; simpl;
    try done.
  destruct (text_leb E x y) eqn:Hxy; [|done].
  destruct (text_leb E y z) eqn:Hyz; [|by destruct (text_leb E y x)].
  rewrite (text_trans E HE x y z Hxy Hyz).
  destruct (text_leb E y x) eqn:Hyx, (text_leb E z y) eqn:Hzy,
    (text_leb E z x) eqn:Hzx; try done; intros Hab Hbc.
  - by apply (IH b c).
  - by rewrite (text_trans E HE z x y Hzx Hxy) in Hzy.
  - by rewrite (text_trans E HE y z x Hyz Hzx) in Hyx.
  - by rewrite (text_trans E HE y z x Hyz Hzx) in Hyx.
Qed.

Lemma column_leb_total c a b :
  column_leb E c a b = true ∨ column_leb E c b a = true.
Proof.
  destruct c; simpl; rewrite ?Z.leb_le; try lia.
  - apply (text_total E HE).
  - apply array_leb_total.
Qed.

Lemma column_leb_trans c x y z :
  column_leb E c x y = true → column_leb E c y z = true →
  column_leb E c x z = true.
Proof.
  destruct c; simpl; rewrite ?Z.leb_le; try lia.
  - apply (text_trans E HE).
  - apply array_leb_trans.
Qed.

(** ORDER BY column direction, id ASC, spelled out. *)
Lemma order_le_spec c desc a b :
  order_le E c desc a b ↔
  let before x y :=
    if desc then column_leb E c y x = true else column_leb E c x y = true in
  before a b ∧ (before b a → movies.id a ≤ movies.id b).
Proof.
  unfold order_le, order_leb. cbv zeta.
  destruct desc, (column_leb E c a b), (column_leb E c b a);
    rewrite ?Z.leb_le; naive_solver.
Qed.

Lemma order_le_total c desc : Total (order_le E c desc).
Proof.
  intros a b. rewrite !order_le_spec. cbv zeta.
  destruct (column_leb_total c a b), (column_leb_total c b a);
    destruct desc, (column_leb E c a b), (column_leb E c b a);
    try done; destruct (Z.le_ge_cases (movies.id a) (movies.id b));
    naive_solver lia.
Qed.

Lemma order_le_trans c desc : Transitive (order_le E c desc).
Proof.
  intros x y z. rewrite !order_le_spec. cbv zeta.
  pose proof (column_leb_trans c x y z). pose proof (column_leb_trans c z y x).
  pose proof (column_leb_trans c y z x). pose proof (column_leb_trans c z x y).
  pose proof (column_leb_trans c x z y). pose proof (column_leb_trans c y x z).
  destruct desc; intros [Hxy Hxy'] [Hyz Hyz']; (split; [by auto|]);
    intros Hzx; assert (movies.id x ≤ movies.id y) by auto;
    assert (movies.id y ≤ movies.id z) by auto; lia.
Qed.

Lemma order_le_antisym c desc a b :
  order_le E c desc a b → order_le E c desc b a → movies.id a = movies.id b.
Proof.
  rewrite !order_le_spec. cbv zeta. intros [Hab Hab'] [Hba Hba'].
  specialize (Hab' Hba). specialize (Hba' Hab). lia.
Qed.
End order.

Global Instance movie_of_row_inj : Inj (=) (=) movie_of_row.
Proof. intros [] [] [=]. by subst. Qed.

Lemma matching_NoDup E title genres db :
  consistent db → NoDup (matching E title genres db).
Proof.
  intros Hdb. eapply sublist_NoDup; [|apply sublist_filter].
  eapply NoDup_fmap_1, Hdb.
Qed.

Lemma matching_keys E title genres db a b :
  consistent db →
  a ∈ matching E title genres db → b ∈ matching E title genres db →
  movies.id a = movies.id b → a = b.
Proof.
  intros Hdb Ha Hb Hid.
  apply list_elem_of_filter in Ha as [_ Ha].
  apply list_elem_of_filter in Hb as [_ Hb].
  pose proof (row_with_id_elem db a (key_unique _ Hdb) Ha) as Hra.
  pose proof (row_with_id_elem db b (key_unique _ Hdb) Hb) as Hrb.
  congruence.
Qed.

(** ** The match rule *)

Lemma array_contains_spec (a b : list string) :
  array_contains a b = true ↔ ∀ g, g ∈ b → g ∈ a.
Proof.
  unfold array_contains. rewrite <- Is_true_true, forallb_True, Forall_forall.
  apply forall_proper. intros g. by rewrite bool_decide_spec.
Qed.

Lemma matches_spec E title (tags : list string) r :
  matches E title (Some tags) r ↔
  (title = EmptyString ∨ fts_match E (movies.title r) title = true) ∧
  (tags = [] ∨ ∀ g, g ∈ tags → g ∈ movies.genres r).
Proof.
  unfold matches, where_clause. simpl.
  rewrite <- array_contains_spec.
  destruct (fts_match E (movies.title r) title),
    (array_contains (movies.genres r) tags);
    repeat case_bool_decide; simpl; naive_solver.
Qed.

(** A nil filter is bound as NULL, and NULL never makes the clause true. *)
Lemma matches_nil E title r : ¬ matches E title None r.
Proof.
  unfold matches, where_clause. simpl.
  by destruct (fts_match E (movies.title r) title),
    (bool_decide (title = EmptyString)).
Qed.

(** ** Pages *)

Lemma page_offset (page pageSize : Z) sort safelist :
  1 ≤ page → 0 ≤ pageSize →
  offset (mkFilters page pageSize sort safelist)
  = Z.of_nat (Z.to_nat (page - 1) * Z.to_nat pageSize).
Proof.
  intros Hp Hs. unfold offset. simpl.
  by rewrite Nat2Z.inj_mul, !Z2Nat.id by lia.
Qed.

Lemma elem_of_some_window {A} (k : nat) (l : list A) x :
  (0 < k)%nat → x ∈ l → ∃ p : nat, x ∈ take k (drop (p * k) l).
Proof.
  intros Hk Hx. apply list_elem_of_lookup_1 in Hx as [i Hi].
  exists (i / k)%nat. apply (list_elem_of_lookup_2 _ (i mod k)).
  rewrite lookup_take_lt by (apply Nat.mod_upper_bound; lia).
  rewrite lookup_drop. rewrite <- Hi. f_equal.
  pose proof (Nat.div_mod_eq i k). lia.
Qed.

Section pages.
Context (E : Engine) (title : string) (genres : slice string)
  (pageSize : Z) (sort : string) (safelist : list string)
  (c : column) (desc : bool) (db : Database).
Context (Hdb : consistent db) (Hsort : sort_resolves sort safelist c desc)
  (Hsize : 1 ≤ pageSize).

Local Abbreviation all := (listing E c desc title (pq_Array genres) db).
Local Abbreviation count :=
  (Z.of_nat (length (matching E title (pq_Array genres) db))).

Lemma GetAll_page (page : Z) :
  1 ≤ page →
  let rows :=
    take (Z.to_nat pageSize)
         (drop (Z.to_nat (page - 1) * Z.to_nat pageSize) all) in
  GetAll (pg_model E Healthy) title genres
    (mkFilters page pageSize sort safelist) db =
  Some ((Some (movie_of_row <$> rows),
         calculateMetadata (match rows with [] => 0 | _ => count end)
                           page pageSize,
         None),
        received (list_statement title genres
                    (mkFilters page pageSize sort safelist)) db).
Proof.
  intros Hpage rows.
  rewrite (GetAll_postgres E title genres _ db c desc); try done.
  - cbn [limit PageSize Page]. rewrite page_offset by lia.
    unfold window. by rewrite Nat2Z.id.
  - simpl. lia.
  - rewrite page_offset by lia. apply Nat2Z.is_nonneg.
Qed.


End pages.

(** ** The ORDER BY clause against the order the sort key asks for *)

Lemma requested_before_order_le E sort safelist c desc a b :
  sort ∈ scalar_sort_keys → sort_resolves sort safelist c desc →
  movies.id a ≠ movies.id b →
  requested_before E sort a b ↔ order_le E c desc a b.
Proof.
  intros Hkey (_ & Hc & ->) Hid. unfold scalar_sort_keys in Hkey.
  rewrite order_le_spec. cbv zeta.
  repeat (apply elem_of_cons in Hkey as [->|Hkey];
    [vm_compute in Hc; injection Hc as <-;
     unfold requested_before;
     repeat (first [rewrite decide_True by done
                   |rewrite decide_False by done]);
     unfold before_by, text_lt, text_tie; simpl;
     rewrite ?Z.leb_le;
     try (destruct (text_leb E (movies.title a) (movies.title b)),
            (text_leb E (movies.title b) (movies.title a)));
     naive_solver lia|]).
  by apply elem_of_nil in Hkey.
Qed.

Lemma requested_before_asym E sort a b :
  requested_before E sort a b → requested_before E sort b a → False.
Proof.
  unfold requested_before.
  repeat case_decide; unfold before_by, text_lt, text_tie; try done;
    try lia;
    destruct (text_leb E (movies.title a) (movies.title b)),
      (text_leb E (movies.title b) (movies.title a)); naive_solver lia.
Qed.

Lemma StronglySorted_keys {R R' : relation movies.row} l :
  NoDup (movies.id <$> l) →
  (∀ a b, movies.id a ≠ movies.id b → R a b → R' a b) →
  StronglySorted R l → StronglySorted R' l.
Proof.
  intros Hnd Himpl Hsorted.
  induction Hsorted as [|a l Hl IH Hall]; [constructor|].
  rewrite fmap_cons in Hnd. apply NoDup_cons in Hnd as [Ha Hnd].
  constructor; [by apply IH|].
  rewrite Forall_forall in Hall |- *. intros b Hb.
  apply Himpl; [|by apply Hall].
  intros Hab. apply Ha. rewrite Hab. by apply list_elem_of_fmap_2.
Qed.

Lemma matching_keys_NoDup E title genres db :
  consistent db → NoDup (movies.id <$> matching E title genres db).
Proof.
  intros Hdb.
  apply (sublist_NoDup _ (movies.id <$> movies_table db)); [by destruct Hdb|].
  apply fmap_sublist. unfold matching. apply sublist_filter.
Qed.

(** The listing of the engine is the one sequence of the matching rows in
    the order the sort key asks for. *)
Lemma listing_requested E title genres sort safelist c desc db :
  collation E → consistent db →
  sort ∈ scalar_sort_keys → sort_resolves sort safelist c desc →
  let all := listing E c desc title genres db in
  let found := matching E title genres db in
  StronglySorted (requested_before E sort) all ∧
  (∀ l, l ≡ₚ found → StronglySorted (requested_before E sort) l → l = all).
Proof.
  intros HE Hdb Hkey Hsort all found.
  assert (all ≡ₚ found) as Hperm by apply listing_Permutation.
  assert (NoDup found) as Hnd by (by apply matching_NoDup).
  pose proof (matching_keys_NoDup E title genres db Hdb) as Hids.
  fold found in Hids.
  assert (Sorted (order_le E c desc) all) as Hsorted.
  { apply Sorted_merge_sort. by apply order_le_total. }
  pose proof (order_le_trans E HE c desc) as Htrans.
  split.
  - apply (StronglySorted_keys (R := order_le E c desc)).
    + by rewrite Hperm.
    + intros a b Hab H.
      by apply (requested_before_order_le E sort safelist c desc a b).
    + by apply Sorted_StronglySorted.
  - intros l Hl Hls.
    apply (Sorted_unique_strong (order_le E c desc)); try done.
    + intros x1 x2 Hx1 Hx2 H12 H21. rewrite Hl in Hx1. rewrite Hperm in Hx2.
      eapply (matching_keys E title genres db); try done.
      by eapply order_le_antisym.
    + apply StronglySorted_Sorted.
      apply (StronglySorted_keys (R := requested_before E sort)).
      * by rewrite Hl.
      * intros a b Hab H.
        by apply (requested_before_order_le E sort safelist c desc a b).
      * done.
    + by rewrite Hl, Hperm.
Qed.



(** C5, amended.  On a healthy engine a stored row is listed, on some page,
    exactly when the search text is empty or the full-text match holds of
    its title, and the tag filter is a slice that is not nil and is empty
    or each of its tags is, letter for letter, one of the row's genres.
    With an empty search text and an empty slice every row is listed; with
    a nil slice, which is bound as NULL, no row is. *)
Theorem GetAll_match_rule E title (genres : slice string) pageSize sort
    safelist c desc db :
  consistent db → sort_resolves sort safelist c desc → 1 ≤ pageSize →
  let rule (r : movies.row) : Prop :=
    (title = EmptyString ∨ fts_match E (movies.title r) title = true) ∧
    ∃ tags, genres = Some tags ∧
            (tags = [] ∨ ∀ g, g ∈ tags → g ∈ movies.genres r) in
  let listed (r : movies.row) : Prop :=
    ∃ page movies metadata db',
      1 ≤ page ∧
      GetAll (pg_model E Healthy) title genres
        (mkFilters page pageSize sort safelist) db
      = Some ((Some movies, metadata, None), db') ∧
      movie_of_row r ∈ movies in
  (∀ r, r ∈ matching E title (pq_Array genres) db
        ↔ r ∈ movies_table db ∧ rule r) ∧
  (∀ r, listed r ↔ r ∈ movies_table db ∧ rule r) ∧
  (title = EmptyString → genres = Some [] →
   ∀ r, r ∈ movies_table db → listed r) ∧
  (genres = None → ∀ r, ¬ listed r).
Proof.
  intros Hdb Hsort Hsize rule listed.
  assert (∀ r, r ∈ matching E title (pq_Array genres) db
               ↔ r ∈ movies_table db ∧ rule r) as Hmatch.
  { intros r. unfold matching, rule, pq_Array.
    rewrite list_elem_of_filter. destruct genres as [tags|].
    - rewrite matches_spec. naive_solver.
    - pose proof (matches_nil E title r). naive_solver. }
  assert (∀ r, listed r ↔ r ∈ matching E title (pq_Array genres) db)
    as Hlisted.
  { intros r. rewrite <- (listing_Permutation E c desc). split.
    - intros (page & movies & metadata & db' & Hpage & Hget & Hin).
      rewrite (GetAll_page E title genres pageSize sort safelist c desc db)
        in Hget by done.
      injection Hget as <- _ _. apply list_elem_of_fmap_inj_2 in Hin; [|apply _].
      eapply elem_of_take in Hin as (i & Hi & _).
      rewrite lookup_drop in Hi. by eapply list_elem_of_lookup_2.
    - intros Hin.
      apply (elem_of_some_window (Z.to_nat pageSize)) in Hin as [p Hp];
        [|lia].
      exists (Z.of_nat p + 1). do 3 eexists. split; [lia|]. split.
      + by apply (GetAll_page E title genres pageSize sort safelist
                    c desc db); [..|lia].
      + apply list_elem_of_fmap_2.
        by replace (Z.to_nat (Z.of_nat p + 1 - 1)) with p by lia. }
  split; [done|]. split; [|split].
  - intros r. by rewrite Hlisted.
  - intros Ht Hg r Hr. apply Hlisted, Hmatch. split; [done|].
    split; [by left|]. exists []. split; [done|by left].
  - intros Hnil r Hr. apply Hlisted, Hmatch in Hr as [_ [_ (tags & Hg & _)]].
    congruence.
Qed.

(** C5 as stated fails for a nil tag filter.  A nil slice is an empty tag
    filter, and with an empty search text the rule of the claim holds of
    all twenty-five rows of the sample table; none of them is in the match
    set, and [GetAll] returns an empty page. *)
Lemma GetAll_match_rule_nil_filter :
  len (None : slice string) = 0%nat ∧
  length (movies_table sample.db) = 25%nat ∧
  (∀ r, r ∈ movies_table sample.db →
     (EmptyString = EmptyString
      ∨ fts_match sample.engine (movies.title r) EmptyString = true) ∧
     (len (None : slice string) = 0%nat
      ∨ ∀ g, g ∈ elems (None : slice string) → g ∈ movies.genres r)) ∧
  matching sample.engine EmptyString (pq_Array None) sample.db = [] ∧
  GetAll (pg_model sample.engine Healthy) EmptyString None
    (mkFilters 1 10 "id" sample.safelist) sample.db
  = Some ((Some [], Metadata.zero, None),
          received
            (list_statement EmptyString None
               (mkFilters 1 10 "id" sample.safelist)) sample.db) ∧
  ¬ (∀ r, r ∈ matching sample.engine EmptyString (pq_Array None) sample.db ↔
          r ∈ movies_table sample.db ∧
          (EmptyString = EmptyString
           ∨ fts_match sample.engine (movies.title r) EmptyString = true) ∧
          (len (None : slice string) = 0%nat
           ∨ ∀ g, g ∈ elems (None : slice string) → g ∈ movies.genres r)).
Proof.
  assert (matching sample.engine EmptyString (pq_Array None) sample.db = [])
    as Hnone by (by vm_compute).
  split; [done|]. split; [done|]. split; [by auto|].
  split; [exact Hnone|]. split; [by vm_compute|].
  intros Hrule.
  assert (sample.row 1 ∈ movies_table sample.db) as Hrow
    by (apply (bool_decide_unpack _); by vm_compute).
  assert (sample.row 1
          ∈ matching sample.engine EmptyString (pq_Array None) sample.db)
    as Hin by (apply Hrule; auto).
  rewrite Hnone in Hin. by apply elem_of_nil in Hin.
Qed.

(** ** Pagination metadata *)

Lemma ceil_div_spec (a b : Z) :
  0 < b → (ceil_div a b - 1) * b < a ≤ ceil_div a b * b.
Proof.
  intros Hb. unfold ceil_div.
  pose proof (Z.div_mod (- a) b ltac:(lia)) as Hdiv.
  pose proof (Z.mod_pos_bound (- a) b Hb) as Hmod. nia.
Qed.

Lemma ceil_div_unique (a b n : Z) :
  0 < b → (n - 1) * b < a ≤ n * b → n = ceil_div a b.
Proof.
  intros Hb Hn. pose proof (ceil_div_spec a b Hb) as Hc. nia.
Qed.

(** C4. For a page size of at least 1 the last page is the ceiling of
    [totalRecords / pageSize], the least number of pages that hold all the
    records, and the total is reported as given; with records the first page
    is 1 and the current page and page size are the requested ones; with no
    record every field is zero.  Twenty-five records in pages of ten give
    three pages and a total of 25, whichever page is asked for. *)
Theorem calculateMetadata_pages (totalRecords page pageSize : Z) :
  1 ≤ pageSize →
  let metadata := calculateMetadata totalRecords page pageSize in
  (totalRecords ≠ 0 →
   Metadata.FirstPage metadata = 1 ∧
   Metadata.CurrentPage metadata = page ∧
   Metadata.PageSize metadata = pageSize) ∧
  Metadata.LastPage metadata = ceil_div totalRecords pageSize ∧
  (Metadata.LastPage metadata - 1) * pageSize < totalRecords
    ≤ Metadata.LastPage metadata * pageSize ∧
  (∀ n, totalRecords ≤ n * pageSize → Metadata.LastPage metadata ≤ n) ∧
  Metadata.TotalRecords metadata = totalRecords ∧
  (totalRecords = 0 → metadata = Metadata.zero) ∧
  (∀ p, Metadata.LastPage (calculateMetadata 25 p 10) = 3 ∧
        Metadata.TotalRecords (calculateMetadata 25 p 10) = 25).
Proof.
  intros Hsize metadata.
  pose proof (ceil_div_spec totalRecords pageSize ltac:(lia)) as Hceil.
  assert (Metadata.LastPage metadata = ceil_div totalRecords pageSize) as Hlast.
  { subst metadata. unfold calculateMetadata.
    destruct (Z.eqb_spec totalRecords 0) as [->|Hne]; [|done].
    simpl. apply ceil_div_unique; lia. }
  subst metadata. unfold calculateMetadata in *.
  destruct (Z.eqb_spec totalRecords 0) as [->|Hne]; simpl in *.
  - repeat split; try done; try lia; intros; nia.
  - repeat split; try done; try lia; intros; nia.
Qed.

(** ** The total of a listing *)

(** The total that [GetAll] hands to [calculateMetadata] is the count of the
    matching rows when the page holds a row; on a page without rows the loop
    never runs and the total stays 0. *)
Lemma GetAll_total_records E title genres pageSize sort safelist c desc db
    page :
  consistent db → sort_resolves sort safelist c desc → 1 ≤ pageSize →
  1 ≤ page →
  ∃ movies metadata db',
    GetAll (pg_model E Healthy) title genres
      (mkFilters page pageSize sort safelist) db
    = Some ((Some movies, metadata, None), db') ∧
    (movies ≠ [] →
     Metadata.TotalRecords metadata
     = Z.of_nat (length (matching E title (pq_Array genres) db))) ∧
    (movies = [] → metadata = Metadata.zero).
Proof.
  intros Hdb Hsort Hsize Hpage.
  rewrite (GetAll_page E title genres pageSize sort safelist c desc db)
    by done.
  do 3 eexists. split; [done|].
  destruct (take _ _) as [|r rows] eqn:Hrows; simpl.
  - done.
  - split; [|done]. intros _. unfold calculateMetadata.
    destruct (Z.eqb_spec (Z.of_nat (length (matching E title (pq_Array genres) db))) 0)
      as [Hz|Hz]; [|done].
    assert (r ∈ matching E title (pq_Array genres) db) as Hr.
    { rewrite <- (listing_Permutation E c desc).
      assert (r ∈ r :: rows) as Hin by left. rewrite <- Hrows in Hin.
      apply elem_of_take in Hin as (i & Hi & _).
      rewrite lookup_drop in Hi. by eapply list_elem_of_lookup_2. }
    destruct (matching E title (pq_Array genres) db); [|done].
    by apply elem_of_nil in Hr.
Qed.

(** C3, as the code runs: the fourth page of ten out of the twenty-five
    matching rows of the sample table has no row, and its metadata is all
    zero, the total included. *)
Theorem GetAll_total_records_past_the_end :
  let filters := mkFilters 4 10 "id" sample.safelist in
  length (matching sample.engine EmptyString (Some []) sample.db) = 25%nat ∧
  GetAll (pg_model sample.engine Healthy) EmptyString (Some []) filters
    sample.db
  = Some ((Some [], Metadata.zero, None),
          received (list_statement EmptyString (Some []) filters) sample.db) ∧
  Metadata.TotalRecords Metadata.zero = 0.
Proof. vm_compute. done. Qed.

(** ** The sample table and engine *)

Lemma sample_consistent : consistent sample.db.
Proof.
  split.
  - by vm_compute.
  - apply (bool_decide_unpack _). by vm_compute.
  - apply (bool_decide_unpack _). by vm_compute.
  - apply (bool_decide_unpack _). by vm_compute.
Qed.

Lemma bytewise_leb_le a b :
  sample.bytewise_leb a b = true ↔ a = b ∨ String_as_OT.lt a b.
Proof.
  unfold sample.bytewise_leb.
  pose proof String_as_OT.lt_strorder as [Hirr Htr].
  destruct (String_as_OT.compare_spec a b) as [H|H|H].
  - naive_solver.
  - naive_solver.
  - split; [done|]. intros [->|Hab].
    + by apply Hirr in H.
    + exfalso. apply (Hirr a). by apply (Htr a b a).
Qed.

Lemma sample_collation : collation sample.engine.
Proof.
  pose proof String_as_OT.lt_strorder as [Hirr Htr].
  split; simpl.
  - intros a b. rewrite !bytewise_leb_le.
    destruct (String_as_OT.compare_spec a b); naive_solver.
  - intros a b c. rewrite !bytewise_leb_le.
    intros [->|Hab] [->|Hbc]; eauto.
Qed.

Lemma sample_sort : sort_resolves "-year" sample.safelist c_year true.
Proof. split; [|done]. apply (bool_decide_unpack _). by vm_compute. Qed.

(** ** Run-through examples *)

Lemma ValidateMovie_complete_example :
  in_int32 2026 ∧ ValidateMovie 2026 validator.New sample.movie = ∅.
Proof.
  assert (in_int32 2026) as Hnow by (by vm_compute).
  split; [exact Hnow|].
  apply (ValidateMovie_complete 2026 sample.movie Hnow).
  repeat split; try discriminate; try (by vm_compute); try (simpl; lia).
  apply (bool_decide_unpack _). by vm_compute.
Defined.

Lemma calculateMetadata_pages_example :
  1 ≤ 10 ∧ Metadata.LastPage (calculateMetadata 25 2 10) = ceil_div 25 10.
Proof.
  assert (1 ≤ 10) as Hsize by lia. split; [exact Hsize|].
  apply (calculateMetadata_pages 25 2 10 Hsize).
Defined.

Lemma GetAll_match_rule_example :
  consistent sample.db ∧
  sort_resolves "-year" sample.safelist c_year true ∧ 1 ≤ 10 ∧
  ∀ r, r ∈ matching sample.engine "Alpha" (pq_Array (Some ["drama"]))
             sample.db ↔
       r ∈ movies_table sample.db ∧
       ("Alpha" = EmptyString
        ∨ fts_match sample.engine (movies.title r) "Alpha" = true) ∧
       ∃ tags, Some ["drama"] = Some tags ∧
               (tags = [] ∨ ∀ g, g ∈ tags → g ∈ movies.genres r).
Proof.
  assert (1 ≤ 10) as Hsize by lia.
  split; [exact sample_consistent|]. split; [exact sample_sort|].
  split; [exact Hsize|].
  apply (GetAll_match_rule sample.engine "Alpha" (Some ["drama"]) 10 "-year"
           sample.safelist c_year true sample.db
           sample_consistent sample_sort Hsize).
Defined.


Lemma Get_outcomes_example :
  consistent sample.db ∧ 1 ≤ 3 ∧
  row_with_id 3 sample.db = Some (sample.row 3) ∧
  (Get (pg_model sample.engine Healthy) 3 sample.db).1
  = (Some (movie_of_row (sample.row 3)), None).
Proof.
  assert (1 ≤ 3) as Hid by lia.
  assert (row_with_id 3 sample.db = Some (sample.row 3)) as Hrow
    by (by vm_compute).
  split; [exact sample_consistent|]. split; [exact Hid|].
  split; [exact Hrow|].
  destruct Get_outcomes as (_ & _ & Hpg).
  destruct (Hpg sample.engine Healthy 3 sample.db sample_consistent)
    as (_ & _ & _ & Hrow' & _).
  exact (Hrow' (sample.row 3) Hid eq_refl Hrow).
Defined.

Lemma Delete_outcomes_example :
  consistent sample.db ∧ 1 ≤ 3 ∧
  row_with_id 3 sample.db = Some (sample.row 3) ∧
  (Delete (pg_model sample.engine Healthy) 3 sample.db).1 = None.
Proof.
  assert (1 ≤ 3) as Hid by lia.
  assert (row_with_id 3 sample.db = Some (sample.row 3)) as Hrow
    by (by vm_compute).
  split; [exact sample_consistent|]. split; [exact Hid|].
  split; [exact Hrow|].
  destruct Delete_outcomes as (_ & _ & Hpg & _).
  destruct (Hpg sample.engine 3 sample.db sample_consistent Hid)
    as (_ & _ & Hthere & _).
  exact (proj1 (Hthere (sample.row 3) Hrow)).
Defined.

Lemma Update_outcomes_example :
  consistent sample.db ∧
  applied sample.movie sample.db
    (Update (pg_model sample.engine Healthy) sample.movie sample.db).
Proof.
  split; [exact sample_consistent|].
  destruct Update_outcomes as (_ & _ & Hpg).
  destruct (Hpg sample.engine sample.movie sample.db sample_consistent)
    as [_ Happlied].
  apply Happlied. exists (sample.row 3), ["drama"; "war"].
  repeat split; by vm_compute.
Defined.

Lemma version_discipline_example :
  consistent sample.db ∧
  ∃ movie' db',
    Updates sample.engine
      [(Healthy, mkEdit "Alpha II" 2001 96 ["drama"]);
       (Healthy, mkEdit "Alpha III" 2002 97 ["drama"; "war"])]
      sample.movie sample.db = Some (movie', db') ∧
    Version movie' = Version sample.movie + Z.of_nat 2.
Proof.
  split; [exact sample_consistent|]. do 2 eexists.
  assert (∀ run, run = Updates sample.engine
      [(Healthy, mkEdit "Alpha II" 2001 96 ["drama"]);
       (Healthy, mkEdit "Alpha III" 2002 97 ["drama"; "war"])]
      sample.movie sample.db → ∀ movie' db', run = Some (movie', db') →
      run = Some (movie', db') ∧
      Version movie' = Version sample.movie + Z.of_nat 2) as Hrun.
  { intros run -> movie' db' Hsome. split; [exact Hsome|].
    destruct version_discipline as (_ & Hchain & _).
    exact (proj1 (Hchain sample.engine _ sample.movie sample.db movie' db'
                    sample_consistent Hsome)). }
  apply (Hrun _ eq_refl). vm_compute. reflexivity.
Defined.

Lemma Insert_frame_example :
  consistent sample.db ∧ movies_id_seq sample.db ≤ int64_max ∧
  Genres sample.movie = Some ["drama"; "war"] ∧
  in_int32 (Year sample.movie) ∧ in_int32 (Runtime sample.movie) ∧
  (Insert (pg_model sample.engine Healthy) sample.movie sample.db).1.1
  = mkMovie 26 5000 "Alpha (restored)" 2000 95 (Some ["drama"; "war"]) 1.
Proof.
  assert (movies_id_seq sample.db ≤ int64_max) as Hseq by (by vm_compute).
  assert (in_int32 (Year sample.movie)) as Hy by (by vm_compute).
  assert (in_int32 (Runtime sample.movie)) as Hr by (by vm_compute).
  split; [exact sample_consistent|]. split; [exact Hseq|].
  split; [reflexivity|]. split; [exact Hy|]. split; [exact Hr|].
  destruct Insert_frame as (_ & _ & _ & Hpg).
  exact (proj1 (proj2 (Hpg sample.engine sample.movie ["drama"; "war"]
                         sample.db sample_consistent Hseq eq_refl Hy Hr))).
Defined.

(** * Compositions and handlers *)

(** ** Requests of other callers *)

Lemma pg_execute_seq E s db :
  movies_id_seq db ≤ movies_id_seq (pg_execute E s db).2
  ∧ clock (pg_execute E s db).2 = clock db.
Proof.
  destruct s; simpl.
  - unfold pg_insert. repeat case_match; simplify_eq; simpl; lia.
  - lia.
  - unfold pg_update. repeat case_match; simplify_eq; simpl; lia.
  - lia.
  - lia.
Qed.

Lemma request_seq E f s db :
  movies_id_seq db ≤ movies_id_seq (QueryContext (postgres E f) s db).2.
Proof.
  rewrite QueryContext_effect.
  destruct f; simpl; try lia;
    apply (pg_execute_seq E s (received s db)).
Qed.

Lemma request_issued E f s db i :
  consistent db → i < movies_id_seq db → row_with_id i db = None →
  row_with_id i (QueryContext (postgres E f) s db).2 = None.
Proof.
  intros Hdb Hi Hnone.
  destruct (row_with_id i (QueryContext (postgres E f) s db).2) as [r'|] eqn:Hr';
    [|done].
  exfalso.
  pose proof (request_versions E f s db i r' Hdb Hr') as Hv.
  rewrite Hnone in Hv. destruct Hv as [_ (title & year & runtime & genres & ->)].
  rewrite QueryContext_effect in Hr'.
  assert (row_with_id i (pg_execute E (InsertMovie title year runtime genres)
            (received (InsertMovie title year runtime genres) db)).2 = Some r')
    as Hr by (destruct f; first [exact Hr' | by rewrite row_with_id_received, Hnone in Hr']).
  clear Hr'. simpl in Hr. unfold pg_insert in Hr.
  repeat case_match; simplify_eq; simpl in Hr;
    try (by rewrite ?row_with_id_received, Hnone in Hr);
    try (by unfold row_with_id in *; simpl in *; rewrite Hnone in Hr).
  unfold row_with_id in *. simpl in *.
  rewrite filter_app in Hr.
  destruct (filter (λ r, movies.id r = i) (movies_table db)) eqn:Hf; [|done].
  simpl in Hr. rewrite filter_cons in Hr. case_decide; simpl in *; [lia|done].
Qed.

Lemma request_descends E f s db i r :
  consistent db → row_with_id i db = Some r →
  match row_with_id i (QueryContext (postgres E f) s db).2 with
  | Some r' => descends r r'
  | None => True
  end.
Proof.
  intros Hdb Hr. case_match eqn:Hr'; [|done].
  pose proof (request_versions E f s db i _ Hdb Hr') as Hv.
  rewrite Hr in Hv. destruct Hv as [->|[Hv _]]; split; first [lia | done | intros; lia].
Qed.

Lemma traffic_consistent E rs db :
  consistent db → consistent (traffic E rs db).
Proof.
  revert db. induction rs as [|[f s] rs IH]; intros db Hdb; [done|].
  simpl. apply IH. by apply request_consistent.
Qed.

Lemma traffic_seq E rs db :
  movies_id_seq db ≤ movies_id_seq (traffic E rs db).
Proof.
  revert db. induction rs as [|[f s] rs IH]; intros db; simpl; [lia|].
  etrans; [apply (request_seq E f s)|apply IH].
Qed.

Lemma traffic_issued E rs db i :
  consistent db → i < movies_id_seq db → row_with_id i db = None →
  row_with_id i (traffic E rs db) = None.
Proof.
  revert db. induction rs as [|[f s] rs IH]; intros db Hdb Hi Hnone; [done|].
  simpl. apply IH.
  - by apply request_consistent.
  - eapply Z.lt_le_trans; [exact Hi|apply (request_seq E f s db)].
  - by apply request_issued.
Qed.

Lemma traffic_descends E rs db i r :
  consistent db → row_with_id i db = Some r →
  match row_with_id i (traffic E rs db) with
  | Some r' => descends r r'
  | None => True
  end.
Proof.
  revert db r. induction rs as [|[f s] rs IH]; intros db r Hdb Hr.
  - simpl. rewrite Hr. split; [lia|done].
  - simpl.
    pose proof (request_descends E f s db i r Hdb Hr) as Hstep.
    pose proof (request_consistent E f s db Hdb) as Hdb'.
    destruct (row_with_id i (QueryContext (postgres E f) s db).2) as [r1|] eqn:Hr1.
    + specialize (IH _ r1 Hdb' Hr1). simpl in IH.
      destruct (row_with_id i (traffic E rs _)) as [r2|]; [|done].
      destruct Hstep as [H1 H2], IH as [H3 H4].
      split; [lia|]. intros Hv.
      assert (movies.version r1 = movies.version r) as H5 by lia.
      rewrite H4 by lia. by apply H2.
    + rewrite traffic_issued; [done|done| |done].
      destruct Hdb as [_ _ Hissued _].
      apply row_with_id_Some in Hr as [Hin Hid].
      rewrite Forall_forall in Hissued. specialize (Hissued _ Hin).
      eapply Z.lt_le_trans; [|apply (request_seq E f s db)]. lia.
Qed.

(** X1. Whatever requests other callers send, a stored row only moves to
    higher versions, a row found at the version it had before is the very
    same row, and a key whose row is gone has no row in any later state. *)
Theorem row_history E rs rs' db i r :
  consistent db → row_with_id i db = Some r →
  let db1 := traffic E rs db in
  let db2 := traffic E rs' db1 in
  (∀ r1, row_with_id i db1 = Some r1 →
     movies.version r ≤ movies.version r1 ∧
     (movies.version r1 = movies.version r → r1 = r)) ∧
  (row_with_id i db1 = None → row_with_id i db2 = None) ∧
  (∀ r1 r2, row_with_id i db1 = Some r1 → row_with_id i db2 = Some r2 →
     movies.version r1 ≤ movies.version r2).
Proof.
  intros Hdb Hr db1 db2.
  assert (consistent db1) as Hdb1 by by apply traffic_consistent.
  pose proof (traffic_descends E rs db i r Hdb Hr) as Hdesc. fold db1 in Hdesc.
  pose proof (row_with_id_Some _ _ _ Hr) as [Hin Hid].
  split; [|split].
  - intros r1 Hr1. by rewrite Hr1 in Hdesc.
  - intros Hgone. apply traffic_issued; [done| |done].
    eapply Z.lt_le_trans; [|apply traffic_seq].
    destruct Hdb as [_ _ Hissued _]. rewrite Forall_forall in Hissued.
    specialize (Hissued _ Hin). lia.
  - intros r1 r2 Hr1 Hr2.
    pose proof (traffic_descends E rs' db1 i r1 Hdb1 Hr1) as Hdesc'.
    fold db2 in Hdesc'. rewrite Hr2 in Hdesc'. by destruct Hdesc'.
Qed.

(** X2. No lost update: a caller reads a movie with [Get], other callers'
    requests run, and the caller sends its edit with [Update].  If the
    update goes through, the row it replaced is exactly the row that was
    read; if the row changed or disappeared in between, the update fails,
    changes nothing, and on a healthy engine the error is
    [ErrEditConflict]. *)
Theorem Update_overwrites_what_was_read E f id others e db movie :
  consistent db →
  (Get (pg_model E Healthy) id db).1 = (Some movie, None) →
  let db1 := traffic E others (Get (pg_model E Healthy) id db).2 in
  let res := Update (pg_model E f) (apply_edit e movie) db1 in
  (∃ r, row_with_id id db = Some r ∧ movie = movie_of_row r) ∧
  (res.1.2 = None →
   row_with_id id db1 = row_with_id id db ∧
   row_with_id id res.2
   = (λ r, update_row (edit_title e) (edit_year e) (edit_runtime e)
                      (edit_genres e) r) <$> row_with_id id db) ∧
  (row_with_id id db1 ≠ row_with_id id db →
   res.1.2 ≠ None ∧ movies_table res.2 = movies_table db1 ∧
   (f = Healthy → res.1.2 = Some ErrEditConflict)).
Proof.
  intros Hdb Hget db1 res.
  destruct (decide (id < 1)) as [Hlt|Hge].
  { rewrite Get_below_one in Hget by done. done. }
  rewrite Get_postgres in Hget by (done || lia).
  destruct (row_with_id id db) as [r|] eqn:Hr; [|done].
  simpl in Hget. injection Hget as <-.
  assert (movies.id r = id) as Hid
    by exact (proj2 (row_with_id_Some _ _ _ Hr)).
  assert (consistent db1 ∧
          match row_with_id id db1 with
          | Some r' => descends r r' | None => True end) as [Hdb1 Hdesc].
  { subst db1. rewrite Get_postgres by (done || lia). simpl. split.
    - by apply traffic_consistent, consistent_received.
    - apply traffic_descends; [by apply consistent_received|].
      by rewrite row_with_id_received. }
  split; [by exists r|]. split.
  - intros Hok.
    destruct (Update_success E f _ db1 Hdb1 Hok)
      as (r1 & genres & Hr1 & Hv & Hg & _ & Heq).
    simpl in Hr1, Hv, Hg. injection Hg as <-. rewrite Hid in Hr1.
    rewrite Hr1 in Hdesc. destruct Hdesc as [_ Hsame].
    specialize (Hsame Hv). subst r1. split; [done|].
    subst res. rewrite Heq. cbn [fst snd]. rewrite <- Hid.
    apply (row_with_id_updated_same (apply_edit e (movie_of_row r))
             (edit_genres e) (received _ db1) r); [|done].
    rewrite row_with_id_received. simpl. by rewrite Hid.
  - intros Hchanged.
    destruct (Update_stale E f (apply_edit e (movie_of_row r)) db1 Hdb1)
      as (H1 & _ & H2 & H3); [|done].
    simpl. rewrite Hid. intros r1 Hr1 Hv.
    rewrite Hr1 in Hdesc, Hchanged. destruct Hdesc as [_ Hsame].
    rewrite Hsame in Hchanged by done. done.
Qed.

(** ** What a call that went through tells *)

Lemma Row_Scan_truncated {S} (ts : list tuple) msg (ds : list (dest S)) s :
  (Row_Scan (Ok (mkRows ts (Some (ErrDriver msg)))) ds s).2 ≠ None.
Proof.
  unfold Row_Scan. simpl. destruct ts as [|t ts]; [done|].
  destruct (Rows_Scan t ds s) as [s' [e|]]; done.
Qed.

Lemma Insert_success E f movie db :
  consistent db →
  (Insert (pg_model E f) movie db).1.2 = None →
  ∃ genres,
    f = Healthy ∧ Genres movie = Some genres ∧
    movies_id_seq db ≤ int64_max ∧
    Insert (pg_model E f) movie db =
    ((movie_of_row (inserted_row movie genres db), None),
     with_table (movies_table db ++ [inserted_row movie genres db])
       (with_next_id (received (insert_statement movie) db))).
Proof.
  intros Hdb Hok.
  destruct f as [|msg|n msg].
  - destruct (decide (movies_id_seq db ≤ int64_max)) as [Hseq|Hseq];
      [destruct (Genres movie) as [genres|] eqn:Hg;
       [destruct (decide (in_int32 (Year movie) ∧ in_int32 (Runtime movie)))
          as [[Hy Hr]|Hrange]|]|].
    + exists genres. repeat split; try done. by apply Insert_postgres.
    + exfalso. revert Hok. rewrite Insert_translates.
      unfold QueryRowContext, insert_statement. simpl. unfold pg_insert. simpl.
      rewrite bool_decide_eq_false_2 by lia. rewrite Hg. simpl.
      by rewrite bool_decide_eq_false_2 by done.
    + exfalso. revert Hok. rewrite Insert_translates.
      unfold QueryRowContext, insert_statement. simpl. unfold pg_insert. simpl.
      rewrite bool_decide_eq_false_2 by lia. by rewrite Hg.
    + exfalso. revert Hok. rewrite Insert_translates.
      unfold QueryRowContext, insert_statement. simpl. unfold pg_insert. simpl.
      by rewrite bool_decide_eq_true_2 by lia.
  - exfalso. revert Hok. by rewrite Insert_translates.
  - exfalso. revert Hok. rewrite Insert_translates.
    unfold QueryRowContext. simpl.
    destruct (pg_insert _ _ _ _ _) as [[ts|e] db']; simpl; [|done].
    apply Row_Scan_truncated.
Qed.

Lemma Delete_success E f id db :
  consistent db →
  (Delete (pg_model E f) id db).1 = None →
  1 ≤ id ∧ f = Healthy ∧ (∃ r, row_with_id id db = Some r) ∧
  (Delete (pg_model E f) id db).2
  = with_table (filter (λ r, movies.id r ≠ id) (movies_table db))
      (received (DeleteMovie id) db).
Proof.
  intros Hdb Hok.
  destruct (decide (id < 1)) as [Hlt|Hge].
  { by rewrite Delete_below_one in Hok. }
  destruct f as [|msg|n msg].
  - rewrite Delete_postgres in Hok |- * by (done || lia).
    destruct (row_with_id id db) as [r|]; [|done].
    repeat split; [lia|by exists r].
  - exfalso. revert Hok. by rewrite Delete_translates by lia.
  - exfalso. revert Hok. by rewrite Delete_translates by lia.
Qed.

Lemma row_with_id_deleted id i db db0 :
  row_with_id i
    (with_table (filter (λ r, movies.id r ≠ id) (movies_table db)) db0)
  = if decide (i = id) then None else row_with_id i db.
Proof.
  unfold row_with_id. simpl.
  induction (movies_table db) as [|r t IH]; simpl.
  - by case_decide.
  - rewrite !filter_cons.
    destruct (decide (movies.id r ≠ id)) as [Hne|Heq%dec_stable].
    + rewrite filter_cons.
      destruct (decide (movies.id r = i)) as [Hi|Hi]; simpl.
      * case_decide; [congruence|done].
      * exact IH.
    + destruct (decide (movies.id r = i)) as [Hi|Hi]; simpl.
      * rewrite IH. case_decide; [done|congruence].
      * rewrite IH. by case_decide.
Qed.

Lemma row_with_id_inserted i r db db0 :
  row_with_id i (with_table (movies_table db ++ [r]) db0)
  = match row_with_id i db with
    | Some r' => Some r'
    | None => if decide (movies.id r = i) then Some r else None
    end.
Proof.
  unfold row_with_id. simpl. rewrite filter_app.
  destruct (filter (λ r, movies.id r = i) (movies_table db)); simpl; [|done].
  rewrite filter_cons. by case_decide.
Qed.

Lemma row_with_id_next_id i db :
  row_with_id i (with_next_id db) = row_with_id i db.
Proof. done. Qed.

Lemma row_with_id_issued i r db :
  consistent db → row_with_id i db = Some r → 1 ≤ i < movies_id_seq db.
Proof.
  intros [_ _ Hissued _] [Hin <-]%row_with_id_Some.
  rewrite Forall_forall in Hissued. by apply Hissued.
Qed.

Lemma row_with_id_unissued i db :
  consistent db → movies_id_seq db ≤ i → row_with_id i db = None.
Proof.
  intros Hdb Hi. destruct (row_with_id i db) as [r|] eqn:Hr; [|done].
  apply (row_with_id_issued _ _ _ Hdb) in Hr. lia.
Qed.

(** X3. Round trip of [Insert] and [Get]: when [Insert] goes through, the
    key it returns was not in use, [Get] of that key returns the movie
    exactly as [Insert] left it, and [Get] of any other key answers as
    before. *)
Theorem Insert_then_Get E f movie db :
  consistent db →
  (Insert (pg_model E f) movie db).1.2 = None →
  let movie' := (Insert (pg_model E f) movie db).1.1 in
  let db' := (Insert (pg_model E f) movie db).2 in
  row_with_id (ID movie') db = None ∧
  (Get (pg_model E Healthy) (ID movie') db').1 = (Some movie', None) ∧
  (∀ i, i ≠ ID movie' →
     (Get (pg_model E Healthy) i db').1 = (Get (pg_model E Healthy) i db).1).
Proof.
  intros Hdb Hok.
  destruct (Insert_success E f movie db Hdb Hok)
    as (genres & -> & Hg & Hseq & Heq).
  assert (consistent (Insert (pg_model E Healthy) movie db).2) as Hdb'.
  { rewrite Insert_effect. by apply (request_consistent E Healthy). }
  rewrite Heq in Hdb' |- *. cbn [fst snd]. cbn [fst snd] in Hdb'.
  set (r := inserted_row movie genres db) in *.
  assert (1 ≤ movies_id_seq db) as Hpos by by destruct Hdb.
  assert (row_with_id (movies_id_seq db) db = None) as Hfresh
    by (apply row_with_id_unissued; [done|lia]).
  split; [exact Hfresh|]. split.
  - rewrite Get_postgres by (done || (simpl; lia)).
    rewrite (row_with_id_inserted _ r db). simpl.
    rewrite Hfresh. by rewrite decide_True.
  - intros i Hi. simpl in Hi.
    destruct (decide (i < 1)) as [Hlt|Hge].
    { by rewrite !Get_below_one. }
    rewrite !Get_postgres by (done || lia).
    rewrite (row_with_id_inserted _ r db). simpl.
    destruct (row_with_id i db); [done|].
    by rewrite decide_False by done.
Qed.

(** X4. Round trip of [Update] and [Get]: when [Update] goes through,
    [Get] returns the movie as [Update] left it, new version included, with
    the creation time of the stored row. *)
Theorem Update_then_Get E f movie db :
  consistent db →
  (Update (pg_model E f) movie db).1.2 = None →
  let movie' := (Update (pg_model E f) movie db).1.1 in
  let db' := (Update (pg_model E f) movie db).2 in
  ∃ r, row_with_id (ID movie) db = Some r ∧
    (Get (pg_model E Healthy) (ID movie) db').1
    = (Some (set_CreatedAt (movies.created_at r) movie'), None) ∧
    (CreatedAt movie = movies.created_at r →
     (Get (pg_model E Healthy) (ID movie) db').1 = (Some movie', None)).
Proof.
  intros Hdb Hok.
  destruct (Update_success E f movie db Hdb Hok)
    as (r & genres & Hr & Hv & Hg & Hrange & Heq).
  assert (consistent
            (with_table (updated_table movie genres (movies_table db))
               (received (update_statement movie) db))) as Hdb'.
  { apply consistent_received_table. by apply updated_table_consistent. }
  rewrite Heq. cbn [fst snd].
  exists r. split; [done|].
  pose proof (row_with_id_issued _ _ _ Hdb Hr) as Hid.
  assert ((Get (pg_model E Healthy) (ID movie)
             (with_table (updated_table movie genres (movies_table db))
                (received (update_statement movie) db))).1
          = (Some (set_CreatedAt (movies.created_at r)
                     (set_Version (Version movie + 1) movie)), None)) as Hget.
  { rewrite Get_postgres by (done || lia).
    rewrite (row_with_id_updated_same movie genres (received _ db) r);
      [|by rewrite row_with_id_received|done].
    cbn [fst]. unfold movie_of_row, set_CreatedAt, set_Version, update_row.
    simpl. rewrite Hv, Hg.
    apply row_with_id_Some in Hr as [_ Hr]. by rewrite Hr. }
  split; [exact Hget|].
  intros Hc. rewrite Hget. rewrite <- Hc. by destruct movie.
Qed.

(** X5. When [Delete] goes through, the row existed, and whatever other
    callers send afterwards the key stays empty: [Get] and a second
    [Delete] answer [ErrRecordNotFound], and [Update] of a movie with that
    key answers [ErrEditConflict]. *)
Theorem Delete_is_final E f id others db :
  consistent db →
  (Delete (pg_model E f) id db).1 = None →
  let db' := traffic E others (Delete (pg_model E f) id db).2 in
  row_with_id id db ≠ None ∧
  row_with_id id db' = None ∧
  (Get (pg_model E Healthy) id db').1 = (None, Some ErrRecordNotFound) ∧
  (Delete (pg_model E Healthy) id db').1 = Some ErrRecordNotFound ∧
  (∀ movie, ID movie = id →
     (Update (pg_model E Healthy) movie db').1 = (movie, Some ErrEditConflict)).
Proof.
  intros Hdb Hok db'.
  destruct (Delete_success E f id db Hdb Hok) as (Hid & -> & [r Hr] & Heq).
  assert (consistent (Delete (pg_model E Healthy) id db).2) as Hdb1.
  { rewrite Heq.
    pose proof (request_consistent E Healthy (DeleteMovie id) db Hdb) as H.
    by rewrite QueryContext_effect in H. }
  assert (consistent db') as Hdb' by by apply traffic_consistent.
  assert (row_with_id id db' = None) as Hgone.
  { subst db'. apply traffic_issued; [done| |].
    - rewrite Heq. simpl. by apply (row_with_id_issued id r db).
    - rewrite Heq. rewrite (row_with_id_deleted id id db).
      by rewrite decide_True. }
  split; [by rewrite Hr|]. split; [done|]. split; [|split].
  - rewrite Get_postgres by done. by rewrite Hgone.
  - rewrite Delete_postgres by done. by rewrite Hgone.
  - intros movie <-. rewrite Update_postgres by done. by rewrite Hgone.
Qed.

(** X6. Keys are handed out in increasing order and never twice: the key
    of an inserted movie is positive and above every key of the table, and
    a later [Insert] gets a higher key whatever was inserted or deleted in
    between. *)
Theorem Insert_keys_increase E f1 f2 a b others db :
  consistent db →
  (Insert (pg_model E f1) a db).1.2 = None →
  let first := Insert (pg_model E f1) a db in
  let db1 := traffic E others first.2 in
  let second := Insert (pg_model E f2) b db1 in
  second.1.2 = None →
  1 ≤ ID first.1.1 ∧
  (∀ r, r ∈ movies_table db → movies.id r < ID first.1.1) ∧
  (∀ r, r ∈ movies_table db1 → movies.id r < ID second.1.1) ∧
  ID first.1.1 < ID second.1.1.
Proof.
  intros Hdb Hok1 first db1 second Hok2.
  destruct (Insert_success E f1 a db Hdb Hok1) as (g1 & -> & _ & _ & Heq1).
  assert (consistent first.2) as Hfirst.
  { subst first. rewrite Insert_effect. by apply (request_consistent E Healthy). }
  assert (consistent db1) as Hdb1 by by apply traffic_consistent.
  destruct (Insert_success E f2 b db1 Hdb1 Hok2) as (g2 & -> & _ & _ & Heq2).
  pose proof (traffic_seq E others first.2) as Hseq. fold db1 in Hseq.
  subst second. rewrite Heq2. cbn [fst snd].
  subst first. rewrite Heq1 in Hseq |- *. cbn [fst snd] in Hseq |- *.
  simpl in Hseq. simpl.
  destruct Hdb as [Hpos _ Hissued _]. destruct Hdb1 as [_ _ Hissued1 _].
  rewrite Forall_forall in Hissued, Hissued1.
  split; [done|]. split; [|split].
  - intros r Hr. apply Hissued in Hr. lia.
  - intros r Hr. apply Hissued1 in Hr. lia.
  - lia.
Qed.

(** X7. [Get] and [GetAll] never change the table or the key sequence,
    whatever happens to the request on its way. *)
Theorem reads_change_nothing E f db :
  (∀ id,
     movies_table (Get (pg_model E f) id db).2 = movies_table db ∧
     movies_id_seq (Get (pg_model E f) id db).2 = movies_id_seq db) ∧
  (∀ title genres filters,
     match GetAll (pg_model E f) title genres filters db with
     | Some r =>
         movies_table r.2 = movies_table db ∧
         movies_id_seq r.2 = movies_id_seq db
     | None => True
     end).
Proof.
  split.
  - intros id. destruct (decide (id < 1)) as [Hlt|Hge].
    { by rewrite Get_below_one. }
    destruct (Get_translates (pg_model E f) id db ltac:(lia)) as [-> _].
    unfold QueryRowContext.
    change (DB (pg_model E f)) with (postgres E f).
    rewrite QueryContext_effect. by destruct f.
  - intros title genres filters. unfold GetAll.
    destruct (sortColumn filters) as [c|]; [|done]. simpl.
    destruct f as [|msg|n msg]; simpl; [| done |].
    all: destruct (pg_select_movies E _ _ _ _ _ _ _) as [ts|e]; simpl; [|done].
    all: destruct (scan_movies _ 0 []) as [[total movies]|e]; done.
Qed.

(** ** A listing that went through *)

Lemma GetAll_success E f title genres filters db movies metadata db' :
  GetAll (pg_model E f) title genres filters db
  = Some ((movies, metadata, None), db') →
  f = Healthy ∧ 0 ≤ limit filters ∧ 0 ≤ offset filters ∧
  ∃ c, sort_resolves (Sort filters) (SortSafelist filters) c
                     (HasPrefix_dash (Sort filters)).
Proof.
  unfold GetAll, sortColumn, sort_resolves.
  destruct (decide (Sort filters ∈ SortSafelist filters)) as [Hin|Hout];
    [rewrite bool_decide_eq_true_2 by done
    |by rewrite bool_decide_eq_false_2 by done].
  simpl. destruct f as [|msg|n msg]; simpl; [| done |].
  - unfold pg_select_movies. rewrite sortDirection_resolves.
    destruct (resolve_column (TrimPrefix_dash (Sort filters))) as [c|];
      [|done].
    destruct (decide (limit filters < 0));
      [by rewrite bool_decide_eq_true_2 by done|].
    rewrite bool_decide_eq_false_2 by done.
    destruct (decide (offset filters < 0));
      [by rewrite bool_decide_eq_true_2 by done|].
    intros _. repeat split; [lia|lia|]. by exists c.
  - destruct (pg_select_movies E _ _ _ _ _ _ _) as [ts|e]; simpl; [|done].
    destruct (scan_movies _ 0 []) as [[total ms]|e]; done.
Qed.

(** X8. Whatever the filters, a listing that [GetAll] returns without
    error holds at most [PageSize] movies, no key twice, only stored movies
    that pass the filter, and a total that is zero or the number of
    matching rows. *)
Theorem GetAll_page_bound E f title genres filters db movies metadata db' :
  consistent db →
  GetAll (pg_model E f) title genres filters db
  = Some ((movies, metadata, None), db') →
  ∃ l, movies = Some l ∧
    Z.of_nat (length l) ≤ PageSize filters ∧
    NoDup (ID <$> l) ∧
    (∀ movie, movie ∈ l →
       ∃ r, r ∈ movies_table db ∧ matches E title (pq_Array genres) r ∧
            movie = movie_of_row r) ∧
    (Metadata.TotalRecords metadata = 0 ∨
     Metadata.TotalRecords metadata
     = Z.of_nat (length (matching E title (pq_Array genres) db))).
Proof.
  intros Hdb Hget.
  destruct (GetAll_success _ _ _ _ _ _ _ _ _ Hget)
    as (-> & Hlimit & Hoffset & c & Hsort).
  rewrite (GetAll_postgres E title genres filters db c _ Hdb Hsort Hlimit
             Hoffset) in Hget.
  injection Hget as <- <- <-.
  set (all := listing E c (HasPrefix_dash (Sort filters)) title
                (pq_Array genres) db).
  set (rows := window (limit filters) (offset filters) all).
  assert (rows `sublist_of` all) as Hsub.
  { subst rows. unfold window.
    etrans; [apply sublist_take|apply sublist_drop]. }
  assert (∀ r, r ∈ rows → r ∈ matching E title (pq_Array genres) db) as Hin.
  { intros r Hr. rewrite <- (listing_Permutation E c (HasPrefix_dash (Sort filters))).
    by eapply elem_of_sublist. }
  eexists. split; [done|]. split; [|split; [|split]].
  - rewrite length_fmap. subst rows. unfold window.
    rewrite length_take. unfold limit in *. lia.
  - rewrite <- list_fmap_compose.
    change (ID ∘ movie_of_row) with movies.id.
    apply (sublist_NoDup _ (movies.id <$> all)); [|by apply fmap_sublist].
    subst all. rewrite listing_Permutation.
    apply (sublist_NoDup _ (movies.id <$> movies_table db));
      [by destruct Hdb|].
    apply fmap_sublist. unfold matching. apply sublist_filter.
  - intros movie [r [-> Hr]]%list_elem_of_fmap.
    exists r. apply Hin in Hr. unfold matching in Hr.
    apply list_elem_of_filter in Hr as [Hm Hr]. done.
  - destruct rows; simpl; [by left|right].
    unfold calculateMetadata. case_match; simpl; [|done].
    by apply Z.eqb_eq in H.
Qed.

(** ** Validated movies fit the table *)

Lemma int32_range z : in_int32 (int32 z).
Proof.
  unfold in_int32, int32, int32_min, int32_max.
  pose proof (Z.mod_pos_bound (z + 2 ^ 31) (2 ^ 32) ltac:(lia)). lia.
Qed.

Lemma ValidateMovie_Valid now movie :
  validator.Valid (ValidateMovie now validator.New movie) = true ↔
  title_ok movie ∧
  (Year movie ≠ 0 ∧ 1888 ≤ Year movie ∧ Year movie ≤ int32 now) ∧
  runtime_ok movie ∧ genres_ok movie.
Proof.
  unfold validator.Valid. rewrite bool_decide_eq_true.
  unfold ValidateMovie. rewrite !Check_empty.
  unfold title_ok, runtime_ok, genres_ok. conditions.
  unfold validator.New. intuition.
Qed.

Lemma ValidateMovie_fits now movie :
  validator.Valid (ValidateMovie now validator.New movie) = true →
  in_int32 (Year movie) ∧ ∃ genres, Genres movie = Some genres.
Proof.
  rewrite ValidateMovie_Valid.
  intros (_ & (_ & Hlo & Hhi) & _ & Hg & _). split.
  - pose proof (int32_range now) as Hnow.
    unfold in_int32, int32_min, int32_max in *. lia.
  - destruct (Genres movie) as [g|]; [by exists g|done].
Qed.

(** ** The Location header *)

Lemma Sprintf_d_reads_back z :
  Z.of_int <$> NilZero.int_of_string (Sprintf_d z) = Some z.
Proof.
  unfold Sprintf_d. rewrite NilZero.isi.
  - simpl. by rewrite DecimalZ.of_to.
  - destruct z; simpl; [done| |done].
    intros [=H]. by apply Unsigned.to_uint_nonnil in H.
  - destruct z; simpl; [done|done|].
    intros [=H]. by apply Unsigned.to_uint_nonnil in H.
Qed.

(** ** Answers *)

Lemma elem_of_write {W} status data headers written (w : W) x :
  x ∈ (write status data headers written w).1 ↔
  x = writeJSON status data headers ∨
  ∃ err, written = Some err ∧ x = serverErrorResponse err.
Proof.
  unfold write. destruct written as [e|]; cbn [fst].
  - rewrite elem_of_cons, list_elem_of_singleton. naive_solver.
  - rewrite list_elem_of_singleton. naive_solver.
Qed.

Lemma write_store {W} status data headers written (w : W) :
  (write status data headers written w).2 = w.
Proof. by destruct written. Qed.

(** ** Creating *)

Lemma Insert_failure E movie db :
  consistent db →
  (Insert (pg_model E Healthy) movie db).1.2 ≠ None →
  movies_table (Insert (pg_model E Healthy) movie db).2 = movies_table db.
Proof.
  intros Hdb.
  destruct (decide (movies_id_seq db ≤ int64_max)) as [Hseq|Hseq];
    [destruct (Genres movie) as [genres|] eqn:Hg;
     [destruct (decide (in_int32 (Year movie) ∧ in_int32 (Runtime movie)))
        as [[Hy Hr]|Hrange]|]|].
  - by rewrite (Insert_postgres E movie genres db).
  - intros _. rewrite Insert_translates.
    unfold QueryRowContext, insert_statement. simpl. unfold pg_insert. simpl.
    rewrite bool_decide_eq_false_2 by lia. rewrite Hg. simpl.
    by rewrite bool_decide_eq_false_2 by done.
  - intros _. rewrite Insert_translates.
    unfold QueryRowContext, insert_statement. simpl. unfold pg_insert. simpl.
    rewrite bool_decide_eq_false_2 by lia. by rewrite Hg.
  - intros _. rewrite Insert_translates.
    unfold QueryRowContext, insert_statement. simpl. unfold pg_insert. simpl.
    by rewrite bool_decide_eq_true_2 by lia.
Qed.

Lemma Insert_refused E msg movie db :
  Insert (pg_model E (Refused msg)) movie db
  = ((movie, Some (ErrDriver msg)), received (insert_statement movie) db).
Proof. by rewrite Insert_translates. Qed.

(** X9. A body that passes [ValidateMovie] is always stored by
    [createMovieHandler] on a healthy engine: the answer is 201 with the
    movie under a fresh key at version 1, the number in the Location header
    reads back as that key, and [showMovieHandler] of the key answers with
    the same movie. *)
Theorem createMovieHandler_created E now input db :
  consistent db → movies_id_seq db ≤ int64_max →
  in_int32 (createInput.Runtime input) →
  validator.Valid (ValidateMovie now validator.New (movie_of_input input))
  = true →
  let res := createMovieHandler now (pg_app E Healthy) (Ok input) None db in
  ∃ movie digits,
    res.1 = [writeJSON http_StatusCreated (envelope_movie (Some movie))
               [("Location", String.append "/v1/movies/" digits)]] ∧
    Z.of_int <$> NilZero.int_of_string digits = Some (ID movie) ∧
    ID movie = movies_id_seq db ∧ Version movie = 1 ∧
    same_mutable_fields movie (movie_of_input input) ∧
    (showMovieHandler (pg_app E Healthy) (Ok (ID movie)) None res.2).1
    = [writeJSON http_StatusOK (envelope_movie (Some movie)) []].
Proof.
  intros Hdb Hseq Hruntime Hvalid res.
  destruct (ValidateMovie_fits _ _ Hvalid) as [Hyear [genres Hg]].
  pose proof (Insert_postgres E (movie_of_input input) genres db Hdb Hseq Hg
                Hyear Hruntime) as Hins.
  assert (consistent (Insert (pg_model E Healthy) (movie_of_input input) db).2)
    as Hdb'.
  { rewrite Insert_effect. by apply (request_consistent E Healthy). }
  subst res. unfold createMovieHandler.
  fold (movie_of_input input). rewrite Hvalid. simpl negb. cbv iota.
  change (Movies (models (pg_app E Healthy))) with (pg_model E Healthy).
  rewrite Hins in Hdb' |- *. cbn [fst snd] in Hdb'.
  set (r := inserted_row (movie_of_input input) genres db) in *.
  exists (movie_of_row r), (Sprintf_d (movies_id_seq db)).
  split; [done|]. split; [apply Sprintf_d_reads_back|].
  split; [done|]. split; [done|]. split.
  { unfold same_mutable_fields. simpl. simpl in Hg. by rewrite Hg. }
  cbn [write fst snd]. unfold showMovieHandler.
  change (Movies (models (pg_app E Healthy))) with (pg_model E Healthy).
  assert (1 ≤ movies_id_seq db) as Hpos by by destruct Hdb.
  rewrite Get_postgres by done.
  rewrite (row_with_id_inserted _ r db). 
  rewrite row_with_id_unissued by (done || (simpl; lia)).
  simpl. by rewrite decide_True.
Qed.

(** X10. What the answers of [createMovieHandler] mean: a 201 is only
    sent for a movie that is now stored under a key that was free, with the
    Location header of that key; a bad-request or failed-validation answer
    is only sent with the store untouched and the error map not empty; and
    when no 201 is sent and the reply of the engine was not cut off, the
    table is unchanged. *)
Theorem createMovieHandler_answers E f now readJSON written db :
  consistent db →
  let res := createMovieHandler now (pg_app E f) readJSON written db in
  (∀ status data headers, writeJSON status data headers ∈ res.1 →
     status = http_StatusCreated ∧
     ∃ r, data = envelope_movie (Some (movie_of_row r)) ∧
          headers = [("Location",
                      String.append "/v1/movies/" (Sprintf_d (movies.id r)))] ∧
          row_with_id (movies.id r) db = None ∧
          row_with_id (movies.id r) res.2 = Some r ∧
          movies.version r = 1) ∧
  ((∃ err, badRequestResponse err ∈ res.1) ∨
   (∃ errors, failedValidationResponse errors ∈ res.1) → res.2 = db) ∧
  (∀ errors, failedValidationResponse errors ∈ res.1 → errors ≠ ∅) ∧
  ((∀ status data headers, writeJSON status data headers ∉ res.1) →
   (∀ n msg, f ≠ Truncated n msg) →
   movies_table res.2 = movies_table db).
Proof.
  intros Hdb res. subst res. unfold createMovieHandler.
  destruct readJSON as [input|err].
  2:{ split; [|split; [|split]].
      - intros ??? [=]%list_elem_of_singleton.
      - done.
      - intros ? [=]%list_elem_of_singleton.
      - done. }
  fold (movie_of_input input).
  destruct (validator.Valid (ValidateMovie now validator.New
                               (movie_of_input input))) eqn:Hvalid;
    simpl negb; cbv iota.
  2:{ split; [|split; [|split]].
      - intros ??? [=]%list_elem_of_singleton.
      - done.
      - intros ? [= ->]%list_elem_of_singleton.
        unfold validator.Valid in Hvalid.
        by apply bool_decide_eq_false in Hvalid.
      - done. }
  change (Movies (models (pg_app E f))) with (pg_model E f).
  destruct (Insert (pg_model E f) (movie_of_input input) db)
    as [[movie [err|]] db'] eqn:Hins.
  - split; [|split; [|split]].
    + intros ??? [=]%list_elem_of_singleton.
    + intros [[? [=]%list_elem_of_singleton]|[? [=]%list_elem_of_singleton]].
    + intros ? [=]%list_elem_of_singleton.
    + intros _ Hf. cbn [snd].
      destruct f as [|msg|n msg].
      * pose proof (Insert_failure E (movie_of_input input) db Hdb) as H.
        rewrite Hins in H. by apply H.
      * rewrite Insert_refused in Hins. by injection Hins as <- <- <-.
      * by destruct (Hf n msg).
  - destruct (Insert_success E f (movie_of_input input) db Hdb)
      as (genres & -> & Hg & Hseq & Heq); [by rewrite Hins|].
    rewrite Hins in Heq. injection Heq as -> ->.
    set (r := inserted_row (movie_of_input input) genres db) in *.
    assert (1 ≤ movies_id_seq db) as Hpos by by destruct Hdb.
    split; [|split; [|split]].
    + intros status data headers [[= -> -> ->]|(e & _ & [=])]%elem_of_write.
      split; [done|]. exists r. split; [done|]. split; [done|].
      split; [by apply row_with_id_unissued; [|simpl; lia]|].
      split; [|done].
      rewrite write_store. rewrite (row_with_id_inserted _ r db).
      rewrite row_with_id_unissued by (done || (simpl; lia)).
      by rewrite decide_True.
    + intros [[e [[=]|(? & _ & [=])]%elem_of_write]
             |[e [[=]|(? & _ & [=])]%elem_of_write]].
    + intros e [[=]|(? & _ & [=])]%elem_of_write.
    + intros Hno _. exfalso. eapply Hno. apply elem_of_write. by left.
Qed.

(** ** Showing *)

(** X11. [showMovieHandler] never changes the table; it writes a movie
    only if the key was read, the engine healthy and the row stored, and
    then it is that row; and it answers not-found exactly when the key
    cannot be read, is below one, or has no row on a healthy engine. *)
Theorem showMovieHandler_answers E f readIDParam written db :
  consistent db →
  let res := showMovieHandler (pg_app E f) readIDParam written db in
  movies_table res.2 = movies_table db ∧
  (∀ status data headers, writeJSON status data headers ∈ res.1 →
     status = http_StatusOK ∧ headers = [] ∧ f = Healthy ∧
     ∃ id r, readIDParam = Ok id ∧ row_with_id id db = Some r ∧
             data = envelope_movie (Some (movie_of_row r))) ∧
  (notFoundResponse ∈ res.1 ↔
   match readIDParam with
   | Err _ => True
   | Ok id => id < 1 ∨ (f = Healthy ∧ row_with_id id db = None)
   end) ∧
  (∀ id r, readIDParam = Ok id → f = Healthy → row_with_id id db = Some r →
     writeJSON http_StatusOK (envelope_movie (Some (movie_of_row r))) []
     ∈ res.1).
Proof.
  intros Hdb res. subst res. unfold showMovieHandler.
  destruct readIDParam as [id|e].
  2:{ cbn [fst snd]. split; [done|]. split; [|split].
      - intros ??? [=]%list_elem_of_singleton.
      - by rewrite list_elem_of_singleton.
      - done. }
  change (Movies (models (pg_app E f))) with (pg_model E f).
  destruct (decide (id < 1)) as [Hlt|Hge].
  { rewrite Get_below_one by done. simpl.
    split; [done|]. split; [|split].
    - intros ??? [=]%list_elem_of_singleton.
    - rewrite list_elem_of_singleton. naive_solver.
    - intros ?? ? _ Hr. simplify_eq.
      apply (row_with_id_issued _ _ _ Hdb) in Hr. lia. }
  destruct (Get_postgres_fault E f id db Hdb ltac:(lia)) as [Hdb' Hget].
  destruct (Get (pg_model E f) id db) as [[movie err] db'].
  cbn [fst snd] in Hdb', Hget. subst db'.
  destruct f as [|msg|n msg].
  - destruct (row_with_id id db) as [r|] eqn:Hr.
    + injection Hget as -> ->. rewrite write_store.
      split; [done|]. split; [|split].
      * intros ??? [[= -> -> ->]|(e & _ & [=])]%elem_of_write.
        repeat split; try done. by exists id, r.
      * rewrite elem_of_write. split.
        -- intros [[=]|(? & _ & [=])].
        -- intros [?|[_ [=]]]; lia.
      * intros ?? ? _ ?. simplify_eq. apply elem_of_write. by left.
    + injection Hget as -> ->. simpl.
      split; [done|]. split; [|split].
      * intros ??? [=]%list_elem_of_singleton.
      * rewrite list_elem_of_singleton. naive_solver.
      * intros ?? ? _ ?. simplify_eq.
  - injection Hget as -> ->. simpl.
    split; [done|]. split; [|split].
    + intros ??? [=]%list_elem_of_singleton.
    + rewrite list_elem_of_singleton. split; [done|].
      intros [?|[[=] _]]; lia.
    + intros ?? _ [=].
  - injection Hget as -> ->. simpl.
    split; [done|]. split; [|split].
    + intros ??? [=]%list_elem_of_singleton.
    + rewrite list_elem_of_singleton. split; [done|].
      intros [?|[[=] _]]; lia.
    + intros ?? _ [=].
Qed.

(** ** Deleting *)

Lemma Delete_postgres_fault E f id db :
  consistent db → 1 ≤ id →
  Delete (pg_model E f) id db =
  match f with
  | Healthy =>
      (match row_with_id id db with
       | Some _ => None
       | None => Some ErrRecordNotFound
       end,
       with_table (filter (λ r, movies.id r ≠ id) (movies_table db))
         (received (DeleteMovie id) db))
  | Refused msg => (Some (ErrDriver msg), received (DeleteMovie id) db)
  | Truncated _ msg =>
      (Some (ErrDriver msg),
       with_table (filter (λ r, movies.id r ≠ id) (movies_table db))
         (received (DeleteMovie id) db))
  end.
Proof.
  intros Hdb Hid. destruct f as [|msg|n msg].
  - by apply Delete_postgres.
  - by rewrite Delete_translates.
  - by rewrite Delete_translates.
Qed.

Lemma filter_other_keys id db :
  row_with_id id db = None →
  filter (λ r, movies.id r ≠ id) (movies_table db) = movies_table db.
Proof.
  rewrite row_with_id_None. intros Hnone.
  induction (movies_table db) as [|r t IH]; [done|].
  rewrite fmap_cons, not_elem_of_cons in Hnone. destruct Hnone as [Hne Hnone].
  rewrite filter_cons, decide_True by done. by rewrite IH.
Qed.

(** X12. [deleteMovieHandler] answers 200 only when the row existed and is
    now gone with every other row untouched, after which deleting or
    showing the same key answers not-found; it answers not-found exactly
    when the key cannot be read, is below one, or has no row on a healthy
    engine, and then the table is unchanged. *)
Theorem deleteMovieHandler_answers E f readIDParam written db :
  consistent db →
  let res := deleteMovieHandler (pg_app E f) readIDParam written db in
  (∀ status data headers, writeJSON status data headers ∈ res.1 →
     status = http_StatusOK ∧ headers = [] ∧
     data = envelope_message "movie successfully deleted" ∧
     ∃ id, readIDParam = Ok id ∧
       row_with_id id db ≠ None ∧ row_with_id id res.2 = None ∧
       (∀ i, i ≠ id → row_with_id i res.2 = row_with_id i db) ∧
       (∀ again,
          (deleteMovieHandler (pg_app E Healthy) readIDParam again res.2).1
          = [notFoundResponse] ∧
          (showMovieHandler (pg_app E Healthy) readIDParam again res.2).1
          = [notFoundResponse])) ∧
  (notFoundResponse ∈ res.1 ↔
   match readIDParam with
   | Err _ => True
   | Ok id => id < 1 ∨ (f = Healthy ∧ row_with_id id db = None)
   end) ∧
  (notFoundResponse ∈ res.1 → movies_table res.2 = movies_table db).
Proof.
  intros Hdb res.
  assert (res =
    match readIDParam with
    | Err _ => ([notFoundResponse], db)
    | Ok id =>
        if decide (id < 1) then ([notFoundResponse], db)
        else
          let db' :=
            with_table (filter (λ r, movies.id r ≠ id) (movies_table db))
              (received (DeleteMovie id) db) in
          match f with
          | Healthy =>
              match row_with_id id db with
              | Some _ =>
                  write http_StatusOK
                    (envelope_message "movie successfully deleted") []
                    written db'
              | None => ([notFoundResponse], db')
              end
          | Refused msg =>
              ([serverErrorResponse (ErrDriver msg)],
               received (DeleteMovie id) db)
          | Truncated _ msg => ([serverErrorResponse (ErrDriver msg)], db')
          end
    end) as Hres.
  { subst res. unfold deleteMovieHandler.
    destruct readIDParam as [id|e]; [|done].
    change (Movies (models (pg_app E f))) with (pg_model E f).
    case_decide as Hid.
    - by rewrite Delete_below_one.
    - rewrite Delete_postgres_fault by (done || lia).
      destruct f; [|reflexivity|reflexivity].
      by destruct (row_with_id id db). }
  clearbody res. subst res.
  destruct readIDParam as [id|e].
  2:{ cbn [fst snd]. split; [|split].
      - intros ??? [=]%list_elem_of_singleton.
      - by rewrite list_elem_of_singleton.
      - done. }
  case_decide as Hid.
  { cbn [fst snd]. split; [|split].
    - intros ??? [=]%list_elem_of_singleton.
    - rewrite list_elem_of_singleton. naive_solver.
    - done. }
  cbv zeta.
  destruct f as [|msg|n msg].
  - destruct (row_with_id id db) as [r|] eqn:Hr.
    + rewrite write_store.
      set (db' := with_table _ _).
      assert (consistent db') as Hdb'.
      { pose proof (request_consistent E Healthy (DeleteMovie id) db Hdb) as H.
        by rewrite QueryContext_effect in H. }
      assert (row_with_id id db' = None) as Hgone.
      { subst db'. rewrite (row_with_id_deleted id id db).
        by rewrite decide_True. }
      split; [|split].
      * intros ??? [[= -> -> ->]|(e & _ & [=])]%elem_of_write.
        repeat split; try done. exists id.
        split; [done|]. split; [by rewrite Hr|]. split; [exact Hgone|]. split.
        { intros i Hi. subst db'. rewrite (row_with_id_deleted id i db).
          by rewrite decide_False. }
        intros again. split.
        -- unfold deleteMovieHandler.
           change (Movies (models (pg_app E Healthy))) with (pg_model E Healthy).
           rewrite Delete_postgres by (done || lia). by rewrite Hgone.
        -- unfold showMovieHandler.
           change (Movies (models (pg_app E Healthy))) with (pg_model E Healthy).
           rewrite Get_postgres by (done || lia). by rewrite Hgone.
      * rewrite elem_of_write. split.
        -- intros [[=]|(? & _ & [=])].
        -- intros [?|[_ [=]]]; lia.
      * intros [[=]|(? & _ & [=])]%elem_of_write.
    + cbn [fst snd].
      split; [|split].
      * intros ??? [=]%list_elem_of_singleton.
      * rewrite list_elem_of_singleton. naive_solver.
      * intros _. simpl. by apply filter_other_keys.
  - cbn [fst snd].
    split; [|split].
    + intros ??? [=]%list_elem_of_singleton.
    + rewrite list_elem_of_singleton. split; [done|].
      intros [?|[[=] _]]; lia.
    + intros [=]%list_elem_of_singleton.
  - cbn [fst snd].
    split; [|split].
    + intros ??? [=]%list_elem_of_singleton.
    + rewrite list_elem_of_singleton. split; [done|].
      intros [?|[[=] _]]; lia.
    + intros [=]%list_elem_of_singleton.
Qed.

(** ** Updating *)

Lemma Get_found {W} (m : MovieModel W) id w :
  (Get m id w).1.2 = None → ∃ movie, (Get m id w).1.1 = Some movie.
Proof.
  unfold Get. case_bool_decide; [done|].
  destruct (QueryRowContext (DB m) (SelectMovie id) w) as [row w'].
  destruct (Row_Scan row _ Movie_zero) as [movie [e|]].
  - by destruct (errors_Is e ErrNoRows).
  - by exists movie.
Qed.

(** X13. Neither update handler ever reads or writes a field through a
    nil movie, whatever the store answers: when [Get] returns no error it
    returns a movie. *)
Theorem updateMovieHandler_never_panics {W} now (app : application W)
    readIDParam written w :
  (∀ readJSON,
     is_Some (updateMovieHandler now app readIDParam readJSON written w)) ∧
  (∀ readJSON,
     is_Some (updateMovieHandler_full now app readIDParam readJSON written w)).
Proof.
  split; intros readJSON.
  - unfold updateMovieHandler. destruct readIDParam as [id|e]; [|done].
    pose proof (Get_found (Movies (models app)) id w) as Hfound.
    destruct (Get (Movies (models app)) id w) as [[movie [e|]] w'].
    + by destruct (errors_Is e ErrRecordNotFound).
    + destruct readJSON as [input|e]; [|done].
      destruct Hfound as [m Hm]; [done|]. simpl in Hm. subst movie. simpl.
      destruct (negb _); [done|].
      destruct (Update _ _ _) as [[m' [e|]] w'']; [|done].
      by destruct (errors_Is e ErrEditConflict).
  - unfold updateMovieHandler_full. destruct readIDParam as [id|e]; [|done].
    pose proof (Get_found (Movies (models app)) id w) as Hfound.
    destruct (Get (Movies (models app)) id w) as [[movie [e|]] w'].
    + by destruct (errors_Is e ErrRecordNotFound).
    + destruct readJSON as [input|e]; [|done].
      destruct Hfound as [m Hm]; [done|]. simpl in Hm. subst movie. simpl.
      destruct (negb _); [done|].
      by destruct (Update _ _ _) as [[m' [e|]] w''].
Qed.

(** X14. On a body that gives all four fields, the partial-update handler
    and the earlier replace-everything handler send the same requests and
    give the same answer, except that an edit conflict, which the earlier
    handler reports as a server error, is answered with
    [editConflictResponse]. *)
Theorem updateMovieHandler_all_fields {W} now (app : application W)
    readIDParam input written w :
  createInput.Genres input ≠ None →
  let old :=
    updateMovieHandler_full now app readIDParam (Ok input) written w in
  let new :=
    updateMovieHandler now app readIDParam (Ok (all_fields input)) written w in
  old = new ∨
  ∃ w', old = Some ([serverErrorResponse ErrEditConflict], w') ∧
        new = Some ([editConflictResponse], w').
Proof.
  intros Hg old new. subst old new.
  unfold updateMovieHandler_full, updateMovieHandler.
  destruct readIDParam as [id|e]; [|by left].
  destruct (Get (Movies (models app)) id w) as [[movie [e|]] w'];
    [by left|].
  destruct movie as [movie|]; [|by left]. simpl.
  assert (patch (all_fields input) movie
          = set_Genres (createInput.Genres input)
              (set_Runtime (createInput.Runtime input)
                 (set_Year (createInput.Year input)
                    (set_Title (createInput.Title input) movie)))) as ->.
  { unfold patch, all_fields. simpl.
    by destruct (createInput.Genres input). }
  destruct (negb _); [by left|].
  destruct (Update _ _ _) as [[m' [e|]] w'']; [|by left].
  destruct (decide (e = ErrEditConflict)) as [->|Hne].
  - right. by exists w''.
  - left. unfold errors_Is. by rewrite bool_decide_eq_false_2.
Qed.

Lemma patch_movie_of_row input r :
  patch input (movie_of_row r) =
  mkMovie (movies.id r) (movies.created_at r)
          (default (movies.title r) (updateInput.Title input))
          (default (movies.year r) (updateInput.Year input))
          (default (movies.runtime r) (updateInput.Runtime input))
          (Some (default (movies.genres r) (updateInput.Genres input)))
          (movies.version r).
Proof.
  unfold patch. by destruct input as [[?|] [?|] [?|] [?|]].
Qed.

Lemma patched_row_update input r :
  let movie := patch input (movie_of_row r) in
  update_row (Title movie) (Year movie) (Runtime movie)
    (default (movies.genres r) (updateInput.Genres input)) r
  = patched_row input r ∧
  set_Version (Version movie + 1) movie = movie_of_row (patched_row input r).
Proof. intros movie. subst movie. by rewrite patch_movie_of_row. Qed.

Lemma updateMovieHandler_postgres E now id r readJSON written db :
  consistent db → row_with_id id db = Some r →
  updateMovieHandler now (pg_app E Healthy) (Ok id) readJSON written db =
  let db1 := received (SelectMovie id) db in
  match readJSON with
  | Err e => Some ([badRequestResponse e], db1)
  | Ok input =>
      let movie := patch input (movie_of_row r) in
      let v := ValidateMovie now validator.New movie in
      if negb (validator.Valid v) then Some ([failedValidationResponse v], db1)
      else
        let db2 := received (update_statement movie) db1 in
        if decide (update_in_range movie) then
          Some (write http_StatusOK
                  (envelope_movie (Some (movie_of_row (patched_row input r))))
                  [] written
                  (with_table
                     (updated_table movie
                        (default (movies.genres r) (updateInput.Genres input))
                        (movies_table db)) db2))
        else Some ([serverErrorResponse integer_out_of_range], db2)
  end.
Proof.
  intros Hdb Hr.
  pose proof (row_with_id_issued _ _ _ Hdb Hr) as Hid.
  unfold updateMovieHandler.
  change (Movies (models (pg_app E Healthy))) with (pg_model E Healthy).
  rewrite Get_postgres by (done || lia). rewrite Hr.
  destruct readJSON as [input|e]; [|done].
  cbv zeta. simpl mbind. cbn [option_bind].
  destruct (negb _); [done|].
  assert (consistent (received (SelectMovie id) db)) as Hdb1
    by by apply consistent_received.
  rewrite Update_postgres by done.
  assert (ID (patch input (movie_of_row r)) = id) as Hpid.
  { rewrite patch_movie_of_row. simpl.
    exact (proj2 (row_with_id_Some _ _ _ Hr)). }
  rewrite Hpid, row_with_id_received, Hr.
  rewrite decide_True by by rewrite patch_movie_of_row.
  destruct (patched_row_update input r) as [_ Hset].
  assert (Genres (patch input (movie_of_row r))
          = Some (default (movies.genres r) (updateInput.Genres input))) as ->
    by by rewrite patch_movie_of_row.
  case_decide; [|done].
  by rewrite Hset.
Qed.

(** X15. Partial update: when the movie exists and the patched movie is
    valid, [updateMovieHandler] answers 200 with the stored row in which
    exactly the fields present in the body are replaced and the version is
    one higher; key and creation time are kept, every other row is
    untouched, and [showMovieHandler] then answers with the same movie. *)
Theorem updateMovieHandler_patch E now id r input db :
  consistent db → row_with_id id db = Some r →
  (∀ x, updateInput.Runtime input = Some x → in_int32 x) →
  movies.version r < int32_max →
  validator.Valid
    (ValidateMovie now validator.New (patch input (movie_of_row r))) = true →
  ∃ db',
    updateMovieHandler now (pg_app E Healthy) (Ok id) (Ok input) None db
    = Some ([writeJSON http_StatusOK
               (envelope_movie (Some (movie_of_row (patched_row input r))))
               []], db') ∧
    row_with_id id db' = Some (patched_row input r) ∧
    (∀ i, i ≠ id → row_with_id i db' = row_with_id i db) ∧
    (showMovieHandler (pg_app E Healthy) (Ok id) None db').1
    = [writeJSON http_StatusOK
         (envelope_movie (Some (movie_of_row (patched_row input r)))) []].
Proof.
  intros Hdb Hr Hruntime Hversion Hvalid.
  pose proof (row_with_id_issued _ _ _ Hdb Hr) as Hid.
  rewrite (updateMovieHandler_postgres E now id r) by done.
  cbv zeta. rewrite Hvalid. simpl negb. cbv iota.
  set (movie := patch input (movie_of_row r)) in *.
  assert (ID movie = id) as Hpid.
  { subst movie. rewrite patch_movie_of_row. simpl.
    exact (proj2 (row_with_id_Some _ _ _ Hr)). }
  assert (row_typed r) as Htyped.
  { destruct Hdb as [_ _ _ Htyped]. rewrite Forall_forall in Htyped.
    apply Htyped. exact (proj1 (row_with_id_Some _ _ _ Hr)). }
  assert (update_in_range movie) as Hrange.
  { destruct (ValidateMovie_fits _ _ Hvalid) as [Hyear _].
    split; [done|]. subst movie. rewrite patch_movie_of_row. simpl.
    destruct Htyped as (_ & _ & Hrt & Hv). split.
    - destruct (updateInput.Runtime input) as [x|]; simpl; [by apply Hruntime|done].
    - unfold in_int32, int32_min, int32_max in *. lia. }
  rewrite decide_True by done.
  eexists. split; [reflexivity|].
  set (genres := default (movies.genres r) (updateInput.Genres input)).
  set (db2 := received (update_statement movie) (received (SelectMovie id) db)).
  assert (row_with_id id
            (with_table (updated_table movie genres (movies_table db)) db2)
          = Some (patched_row input r)) as Hrow.
  { rewrite <- Hpid.
    etrans; [apply (row_with_id_updated_same movie genres db2 r)|].
    - subst db2. by rewrite !row_with_id_received, Hpid.
    - subst movie. by rewrite patch_movie_of_row.
    - f_equal. apply patched_row_update. }
  split; [exact Hrow|]. split.
  - intros i Hi.
    etrans; [apply (row_with_id_updated_other movie genres db2 i);
             by rewrite Hpid|].
    subst db2. by rewrite !row_with_id_received.
  - unfold showMovieHandler.
    change (Movies (models (pg_app E Healthy))) with (pg_model E Healthy).
    rewrite Get_postgres; [by rewrite Hrow| |lia].
    apply (consistent_received_table _ _ (received (SelectMovie id) db)).
    apply consistent_received_table.
    by apply updated_table_consistent.
Qed.

(** X16. What the answers of [updateMovieHandler] mean when no other
    caller interferes: a movie is written only when the row was patched
    with the body and stored at the next version, every other row
    untouched; without a written movie the table is unchanged; a
    bad-request or failed-validation answer is sent after the SELECT and
    without any UPDATE; and an edit conflict is never answered. *)
Theorem updateMovieHandler_answers E f now readIDParam readJSON written db :
  consistent db →
  ∃ res,
    updateMovieHandler now (pg_app E f) readIDParam readJSON written db
    = Some res ∧
    (∀ status data headers, writeJSON status data headers ∈ res.1 →
       status = http_StatusOK ∧ headers = [] ∧
       ∃ id r input,
         readIDParam = Ok id ∧ readJSON = Ok input ∧
         row_with_id id db = Some r ∧
         data = envelope_movie (Some (movie_of_row (patched_row input r))) ∧
         row_with_id id res.2 = Some (patched_row input r) ∧
         ∀ i, i ≠ id → row_with_id i res.2 = row_with_id i db) ∧
    ((∀ status data headers, writeJSON status data headers ∉ res.1) →
     movies_table res.2 = movies_table db) ∧
    ((∃ err, badRequestResponse err ∈ res.1) ∨
     (∃ errors, failedValidationResponse errors ∈ res.1) →
     ∃ id, readIDParam = Ok id ∧
           requests res.2 = SelectMovie id :: requests db) ∧
    editConflictResponse ∉ res.1.
Proof.
  intros Hdb.
  assert (∀ (rs : list response) (db' : Database),
            movies_table db' = movies_table db →
            (∀ x, x ∈ rs →
               x = notFoundResponse ∨ ∃ e, x = serverErrorResponse e) →
            ∃ res, Some (rs, db') = Some res ∧
              (∀ status data headers, writeJSON status data headers ∈ res.1 →
                 status = http_StatusOK ∧ headers = [] ∧
                 ∃ id r input,
                   readIDParam = Ok id ∧ readJSON = Ok input ∧
                   row_with_id id db = Some r ∧
                   data = envelope_movie
                            (Some (movie_of_row (patched_row input r))) ∧
                   row_with_id id res.2 = Some (patched_row input r) ∧
                   ∀ i, i ≠ id → row_with_id i res.2 = row_with_id i db) ∧
              ((∀ status data headers,
                  writeJSON status data headers ∉ res.1) →
               movies_table res.2 = movies_table db) ∧
              ((∃ err, badRequestResponse err ∈ res.1) ∨
               (∃ errors, failedValidationResponse errors ∈ res.1) →
               ∃ id, readIDParam = Ok id ∧
                     requests res.2 = SelectMovie id :: requests db) ∧
              editConflictResponse ∉ res.1) as Hplain.
  { intros rs db' Htable Hrs. exists (rs, db'). split; [done|].
    cbn [fst snd]. split; [|split; [|split]].
    - intros ??? [[=]|[? [=]]]%Hrs.
    - done.
    - intros [[? [[=]|[? [=]]]%Hrs]|[? [[=]|[? [=]]]%Hrs]].
    - intros [[=]|[? [=]]]%Hrs. }
  destruct readIDParam as [id|e].
  2:{ unfold updateMovieHandler.
      apply Hplain; [done|]. intros x ->%list_elem_of_singleton. by left. }
  destruct (decide (id < 1)) as [Hlt|Hge].
  { unfold updateMovieHandler. rewrite Get_below_one by done. simpl.
    apply Hplain; [done|]. intros x ->%list_elem_of_singleton. by left. }
  destruct (row_with_id id db) as [r|] eqn:Hr;
    [destruct f as [|msg|n msg]|];
    [|unfold updateMovieHandler;
      change (Movies (models (pg_app E ?f))) with (pg_model E f)..].
  - rewrite (updateMovieHandler_postgres E now id r) by done.
    cbv zeta.
    destruct readJSON as [input|e].
    2:{ eexists. split; [done|]. cbn [fst snd]. split; [|split; [|split]].
        - intros ??? [=]%list_elem_of_singleton.
        - done.
        - intros _. by exists id.
        - intros [=]%list_elem_of_singleton. }
    destruct (negb _).
    { eexists. split; [done|]. cbn [fst snd]. split; [|split; [|split]].
      - intros ??? [=]%list_elem_of_singleton.
      - done.
      - intros _. by exists id.
      - intros [=]%list_elem_of_singleton. }
    set (movie := patch input (movie_of_row r)).
    assert (ID movie = id) as Hpid.
    { subst movie. rewrite patch_movie_of_row. simpl.
      exact (proj2 (row_with_id_Some _ _ _ Hr)). }
    case_decide as Hrange.
    2:{ eexists. split; [done|]. cbn [fst snd]. split; [|split; [|split]].
        - intros ??? [=]%list_elem_of_singleton.
        - done.
        - intros [[? [=]%list_elem_of_singleton]
                 |[? [=]%list_elem_of_singleton]].
        - intros [=]%list_elem_of_singleton. }
    eexists. split; [done|]. rewrite write_store.
    set (genres := default (movies.genres r) (updateInput.Genres input)).
    set (db2 := received (update_statement movie)
                  (received (SelectMovie id) db)).
    split; [|split; [|split]].
    + intros ??? [[= -> -> ->]|(e & _ & [=])]%elem_of_write.
      split; [done|]. split; [done|]. exists id, r, input.
      split; [done|]. split; [done|]. split; [done|]. split; [done|]. split.
      * rewrite <- Hpid.
        etrans; [apply (row_with_id_updated_same movie genres db2 r)|].
        -- subst db2. by rewrite !row_with_id_received, Hpid.
        -- subst movie. by rewrite patch_movie_of_row.
        -- f_equal. apply patched_row_update.
      * intros i Hi.
        etrans; [apply (row_with_id_updated_other movie genres db2 i);
                 by rewrite Hpid|].
        subst db2. by rewrite !row_with_id_received.
    + intros Hno. exfalso. eapply Hno. apply elem_of_write. by left.
    + intros [[? [[=]|(? & _ & [=])]%elem_of_write]
             |[? [[=]|(? & _ & [=])]%elem_of_write]].
    + intros [[=]|(? & _ & [=])]%elem_of_write.
  - destruct (Get_postgres_fault E (Refused msg) id db Hdb ltac:(lia))
      as [Hdb' Hget].
    destruct (Get (pg_model E (Refused msg)) id db) as [[movie err] db'].
    cbn [fst snd] in Hdb', Hget. subst db'. injection Hget as -> ->. simpl.
    apply Hplain; [done|]. intros x ->%list_elem_of_singleton. right. eauto.
  - destruct (Get_postgres_fault E (Truncated n msg) id db Hdb ltac:(lia))
      as [Hdb' Hget].
    destruct (Get (pg_model E (Truncated n msg)) id db) as [[movie err] db'].
    cbn [fst snd] in Hdb', Hget. subst db'. injection Hget as -> ->. simpl.
    apply Hplain; [done|]. intros x ->%list_elem_of_singleton. right. eauto.
  - destruct (Get_postgres_fault E f id db Hdb ltac:(lia)) as [Hdb' Hget].
    destruct (Get (pg_model E f) id db) as [[movie err] db'].
    cbn [fst snd] in Hdb', Hget. subst db'. rewrite Hr in Hget.
    destruct f; injection Hget as -> ->; simpl;
      (apply Hplain; [done|]); intros x ->%list_elem_of_singleton;
      [by left|right; eauto|right; eauto].
Qed.

(** ** Updating next to other callers *)

Lemma QueryContext_shared E f s db sch :
  QueryContext (postgres_shared E f) s (db, sch) =
  ((QueryContext (postgres E f) s db).1,
   (traffic E (hd [] sch) (QueryContext (postgres E f) s db).2, tl sch)).
Proof.
  cbn [postgres_shared QueryContext fst snd].
  by destruct (QueryContext (postgres E f) s db).
Qed.

Lemma Get_shared E f id db sch :
  1 ≤ id →
  Get (mkMovieModel (postgres_shared E f)) id (db, sch) =
  ((Get (pg_model E f) id db).1,
   (traffic E (hd [] sch) (Get (pg_model E f) id db).2, tl sch)).
Proof.
  intros Hid. unfold Get. rewrite bool_decide_eq_false_2 by lia.
  unfold QueryRowContext. cbn [DB]. rewrite QueryContext_shared.
  change (DB (pg_model E f)) with (postgres E f).
  destruct (QueryContext (postgres E f) (SelectMovie id) db) as [row db'].
  cbn [fst snd].
  destruct (Row_Scan row _ Movie_zero) as [movie [e|]]; [|done].
  by destruct (errors_Is e ErrNoRows).
Qed.

Lemma Update_shared E f movie db sch :
  Update (mkMovieModel (postgres_shared E f)) movie (db, sch) =
  ((Update (pg_model E f) movie db).1,
   (traffic E (hd [] sch) (Update (pg_model E f) movie db).2, tl sch)).
Proof.
  unfold Update, QueryRowContext. cbn [DB]. rewrite QueryContext_shared.
  change (DB (pg_model E f)) with (postgres E f).
  destruct (QueryContext (postgres E f) _ db) as [row db'].
  cbn [fst snd].
  destruct (Row_Scan row _ movie) as [m [e|]]; [|done].
  by destruct (errors_Is e ErrNoRows).
Qed.

(** X17. When other callers' requests run between the read and the write
    of [updateMovieHandler], the handler answers [editConflictResponse] and
    changes nothing if they changed or removed the movie, and stores the
    patched row at the next version if they did not. *)
Theorem updateMovieHandler_conflict E now id r input written others db :
  consistent db → row_with_id id db = Some r →
  validator.Valid
    (ValidateMovie now validator.New (patch input (movie_of_row r))) = true →
  let db1 := traffic E others (received (SelectMovie id) db) in
  let res :=
    updateMovieHandler now (pg_app_shared E Healthy) (Ok id) (Ok input)
      written (db, [others]) in
  (row_with_id id db1 ≠ Some r →
   ∃ db', res = Some ([editConflictResponse], (db', [])) ∧
          movies_table db' = movies_table db1) ∧
  (row_with_id id db1 = Some r →
   update_in_range (patch input (movie_of_row r)) →
   ∃ db', res = Some (write http_StatusOK
                        (envelope_movie
                           (Some (movie_of_row (patched_row input r))))
                        [] written (db', [])) ∧
          row_with_id id db' = Some (patched_row input r)).
Proof.
  intros Hdb Hr Hvalid db1 res.
  pose proof (row_with_id_issued _ _ _ Hdb Hr) as Hid.
  assert (consistent db1) as Hdb1
    by by apply traffic_consistent, consistent_received.
  set (movie := patch input (movie_of_row r)) in *.
  assert (ID movie = id) as Hpid.
  { subst movie. rewrite patch_movie_of_row. simpl.
    exact (proj2 (row_with_id_Some _ _ _ Hr)). }
  assert (Version movie = movies.version r) as Hpv
    by (subst movie; by rewrite patch_movie_of_row).
  assert (Genres movie
          = Some (default (movies.genres r) (updateInput.Genres input))) as Hpg
    by (subst movie; by rewrite patch_movie_of_row).
  assert (res =
    let '((movie', err), db') := Update (pg_model E Healthy) movie db1 in
    match err with
    | Some err =>
        if errors_Is err ErrEditConflict
        then Some ([editConflictResponse], (db', []))
        else Some ([serverErrorResponse err], (db', []))
    | None =>
        Some (write http_StatusOK (envelope_movie (Some movie')) [] written
                (db', []))
    end) as ->.
  { subst res. unfold updateMovieHandler.
    change (Movies (models (pg_app_shared E Healthy)))
      with (mkMovieModel (postgres_shared E Healthy)).
    rewrite Get_shared by lia. rewrite Get_postgres by (done || lia).
    rewrite Hr. cbn [fst snd hd tl]. fold db1.
    simpl mbind. cbn [option_bind]. fold movie.
    rewrite Hvalid. simpl negb. cbv iota.
    rewrite Update_shared. cbn [hd tl traffic].
    by destruct (Update (pg_model E Healthy) movie db1) as [[m' e'] db']. }
  rewrite Update_postgres by done. rewrite Hpid.
  pose proof (traffic_descends E others (received (SelectMovie id) db) id r
                (consistent_received _ _ Hdb)) as Hdesc.
  rewrite row_with_id_received in Hdesc. specialize (Hdesc Hr). fold db1 in Hdesc.
  split.
  - intros Hchanged.
    destruct (row_with_id id db1) as [r1|] eqn:Hr1.
    + destruct (decide (movies.version r1 = Version movie)) as [Hv|Hv].
      * exfalso. rewrite Hpv in Hv. destruct Hdesc as [_ Hsame].
        by rewrite Hsame in Hchanged.
      * simpl. by eexists.
    + simpl. by eexists.
  - intros Hsame Hrange. rewrite Hsame.
    destruct (decide (movies.version r = Version movie)); [|congruence].
    rewrite Hpg.
    destruct (decide (update_in_range movie)); [|done].
    set (genres := default (movies.genres r) (updateInput.Genres input)).
    destruct (patched_row_update input r) as [Hrow Hset].
    fold movie in Hrow, Hset. rewrite Hset.
    eexists. split; [done|].
    rewrite <- Hpid.
    etrans; [apply (row_with_id_updated_same movie genres
                      (received (update_statement movie) db1) r)|].
    + by rewrite row_with_id_received, Hpid.
    + done.
    + by f_equal.
Qed.

(** ** Listing *)

Lemma SortSafelist_movies_resolves sort :
  sort ∈ SortSafelist_movies →
  sort ∈ scalar_sort_keys ∧
  ∃ c, sort_resolves sort SortSafelist_movies c (HasPrefix_dash sort).
Proof.
  intros Hin. unfold sort_resolves.
  assert (sort ∈ scalar_sort_keys ∧
          ∃ c, resolve_column (TrimPrefix_dash sort) = Some c)
    as (Hkey & c & Hres).
  { unfold SortSafelist_movies in Hin.
    repeat (apply elem_of_cons in Hin as [->|Hin];
            [split; [apply (bool_decide_unpack _); by vm_compute
                    |eexists; reflexivity]|]).
    by apply elem_of_nil in Hin. }
  split; [done|]. by exists c.
Qed.

(** X18. Every sort key of the safelist of [listMoviesHandler] names a
    column of numbers or text.  So, for validated filters with a key of the
    safelist and a page and page size of at least one, the handler answers
    200 on a healthy engine with the requested page of the one sequence of
    the matching rows that is in the order the sort key asks for (by the
    values of the named column, descending after a leading [-], rows with
    the same value by ascending id) and, when the page is not empty, the
    metadata of the full count. *)
Theorem listMoviesHandler_lists E ValidateFilters title genres page pageSize
    sort v written db :
  collation E → consistent db →
  let filters := mkFilters page pageSize sort SortSafelist_movies in
  validator.Valid (ValidateFilters v filters) = true →
  sort ∈ SortSafelist_movies → 1 ≤ page → 1 ≤ pageSize →
  ∃ all rows metadata,
    all ≡ₚ matching E title (pq_Array genres) db ∧
    StronglySorted (requested_before E sort) all ∧
    (∀ l, l ≡ₚ matching E title (pq_Array genres) db →
          StronglySorted (requested_before E sort) l → l = all) ∧
    rows = take (Z.to_nat pageSize)
             (drop (Z.to_nat ((page - 1) * pageSize)) all) ∧
    listMoviesHandler (pg_app E Healthy) ValidateFilters title genres page
      pageSize sort v written db
    = Some (write http_StatusOK
              (envelope_movies (Some (movie_of_row <$> rows)) metadata) []
              written (received (list_statement title genres filters) db)) ∧
    (rows ≠ [] →
     metadata =
     Metadata.mk page pageSize 1
       (ceil_div (Z.of_nat (length (matching E title (pq_Array genres) db)))
                 pageSize)
       (Z.of_nat (length (matching E title (pq_Array genres) db)))).
Proof.
  intros HE Hdb filters Hvalid Hsort Hpage Hsize.
  destruct (SortSafelist_movies_resolves sort Hsort) as (Hkey & c & Hres).
  destruct (listing_requested E title (pq_Array genres) sort
              SortSafelist_movies c (HasPrefix_dash sort) db HE Hdb Hkey Hres)
    as [Hreq Huniq].
  assert (0 ≤ limit filters) as Hlimit by (unfold limit; simpl; lia).
  assert (0 ≤ offset filters) as Hoffset by (unfold offset; simpl; nia).
  pose proof (GetAll_postgres E title genres filters db c _ Hdb Hres Hlimit
                Hoffset) as Hget.
  cbv zeta in Hget.
  remember (window (limit filters) (offset filters)
              (listing E c (HasPrefix_dash sort) title
                 (pq_Array genres) db)) as rows eqn:Hwindow.
  exists (listing E c (HasPrefix_dash sort) title (pq_Array genres) db).
  eexists rows, _.
  split; [apply listing_Permutation|]. split; [exact Hreq|].
  split; [exact Huniq|]. split; [by rewrite Hwindow|]. split.
  - unfold listMoviesHandler. cbn [listInput.Filters listInput.Title
                                    listInput.Genres].
    fold filters. rewrite Hvalid. simpl negb. cbv iota.
    change (Movies (models (pg_app E Healthy))) with (pg_model E Healthy).
    rewrite Hget. reflexivity.
  - intros Hrows.
    assert (∀ r, r ∈ rows → r ∈ matching E title (pq_Array genres) db) as Hin.
    { intros r Hr. rewrite Hwindow in Hr.
      rewrite <- (listing_Permutation E c (HasPrefix_dash sort)).
      eapply elem_of_sublist; [exact Hr|].
      etrans; [apply sublist_take|apply sublist_drop]. }
    clear Hwindow Hget. destruct rows as [|r rows']; [done|].
    unfold calculateMetadata.
    assert (Z.of_nat (length (matching E title (pq_Array genres) db)) ≠ 0)
      as Hcount.
    { specialize (Hin r ltac:(by left)).
      destruct (matching E title (pq_Array genres) db); [|done].
      by apply elem_of_nil in Hin. }
    apply Z.eqb_neq in Hcount. cbv beta iota. by rewrite Hcount.
Qed.

(** ** Nil and empty genres *)

Lemma matching_nil_genres E title db : matching E title None db = [].
Proof.
  unfold matching. induction (movies_table db) as [|r t IH]; [done|].
  rewrite filter_cons, decide_False; [done|apply matches_nil].
Qed.

Lemma matching_no_filter E db :
  matching E EmptyString (Some []) db = movies_table db.
Proof.
  unfold matching. induction (movies_table db) as [|r t IH]; [done|].
  rewrite filter_cons, decide_True; [by rewrite IH|].
  apply matches_spec. split; by left.
Qed.

(** X19. Nil and empty genre slices differ: with a nil slice [GetAll]
    returns an empty, non-nil page and zero metadata whatever the title and
    the table, because NULL is bound and matches no row; with an empty
    slice the genres filter nothing, so with an empty title every stored
    row matches and a non-empty page reports the size of the table. *)
Theorem GetAll_nil_genres E filters c desc db :
  consistent db →
  sort_resolves (Sort filters) (SortSafelist filters) c desc →
  1 ≤ Page filters → 1 ≤ PageSize filters →
  (∀ title,
     GetAll (pg_model E Healthy) title None filters db
     = Some ((Some [], Metadata.zero, None),
             received (list_statement title None filters) db)) ∧
  (∀ movies metadata db',
     GetAll (pg_model E Healthy) EmptyString (Some []) filters db
     = Some ((movies, metadata, None), db') →
     movies ≠ Some [] →
     Metadata.TotalRecords metadata = Z.of_nat (length (movies_table db))) ∧
  (∀ title r,
     r ∈ matching E title (pq_Array (Some [])) db ↔
     r ∈ movies_table db ∧
     (title = EmptyString ∨ fts_match E (movies.title r) title = true)).
Proof.
  intros Hdb Hsort Hpage Hsize.
  assert (0 ≤ limit filters) as Hlimit by (unfold limit; lia).
  assert (0 ≤ offset filters) as Hoffset by (unfold offset; nia).
  split; [|split].
  - intros title.
    rewrite (GetAll_postgres E title None filters db c desc Hdb Hsort Hlimit
               Hoffset).
    assert (listing E c desc title (pq_Array None) db = []) as ->.
    { apply Permutation_nil_r. rewrite listing_Permutation.
      unfold pq_Array. by rewrite matching_nil_genres. }
    unfold window. by rewrite drop_nil, take_nil.
  - intros movies metadata db'.
    rewrite (GetAll_postgres E EmptyString (Some []) filters db c desc Hdb
               Hsort Hlimit Hoffset).
    intros [= <- <- <-] Hne. unfold pq_Array in *.
    rewrite matching_no_filter.
    destruct (window _ _ _) as [|r rows]; [done|].
    unfold calculateMetadata. case_match eqn:Hz; [|done].
    simpl. by apply Z.eqb_eq in Hz.
  - intros title r. unfold matching, pq_Array. rewrite list_elem_of_filter.
    rewrite matches_spec. naive_solver.
Qed.

(** ** One answer *)

Lemma write_once {W} status data headers written (w : W) :
  answered_once written (write status data headers written w).1.
Proof.
  unfold write, answered_once. destruct written as [err|]; cbn [fst].
  - right. by exists status, data, headers, err.
  - left. eexists. split; [done|]. done.
Qed.

Lemma other_once written (x : response) :
  (∀ status data headers, x ≠ writeJSON status data headers) →
  answered_once written [x].
Proof.
  intros Hx. left. exists x. split; [done|].
  intros status data headers ->. by destruct (Hx status data headers).
Qed.

(** X20. On any store, every handler of the movie endpoints answers
    exactly once, followed by a server error only when [writeJSON] failed;
    [listMoviesHandler] fails to answer only for a sort key outside its
    safelist that validation let through. *)
Theorem handlers_answer_once {W} now (app : application W) written w :
  (∀ readJSON,
     answered_once written (createMovieHandler now app readJSON written w).1) ∧
  (∀ readIDParam,
     answered_once written (showMovieHandler app readIDParam written w).1) ∧
  (∀ readIDParam readJSON,
     ∃ res,
       updateMovieHandler now app readIDParam readJSON written w = Some res ∧
       answered_once written res.1) ∧
  (∀ readIDParam,
     answered_once written (deleteMovieHandler app readIDParam written w).1) ∧
  (∀ ValidateFilters title genres page pageSize sort v,
     match listMoviesHandler app ValidateFilters title genres page pageSize
             sort v written w with
     | Some res => answered_once written res.1
     | None => sort ∉ SortSafelist_movies
     end).
Proof.
  split; [|split; [|split; [|split]]].
  - intros readJSON. unfold createMovieHandler.
    destruct readJSON as [input|e]; [|by apply other_once].
    destruct (negb _); [by apply other_once|].
    destruct (Insert _ _ _) as [[movie [e|]] w'];
      [by apply other_once|apply write_once].
  - intros readIDParam. unfold showMovieHandler.
    destruct readIDParam as [id|e]; [|by apply other_once].
    destruct (Get _ _ _) as [[movie [e|]] w']; [|apply write_once].
    destruct (errors_Is e ErrRecordNotFound); by apply other_once.
  - intros readIDParam readJSON. unfold updateMovieHandler.
    destruct readIDParam as [id|e];
      [|eexists; split; [done|]; by apply other_once].
    pose proof (Get_found (Movies (models app)) id w) as Hfound.
    destruct (Get _ _ _) as [[movie [e|]] w'].
    { destruct (errors_Is e ErrRecordNotFound);
        (eexists; split; [done|]); by apply other_once. }
    destruct readJSON as [input|e];
      [|eexists; split; [done|]; by apply other_once].
    destruct Hfound as [m Hm]; [done|]. simpl in Hm. subst movie. simpl.
    destruct (negb _); [eexists; split; [done|]; by apply other_once|].
    destruct (Update _ _ _) as [[m' [e|]] w''].
    + destruct (errors_Is e ErrEditConflict);
        (eexists; split; [done|]); by apply other_once.
    + eexists. split; [done|]. apply write_once.
  - intros readIDParam. unfold deleteMovieHandler.
    destruct readIDParam as [id|e]; [|by apply other_once].
    destruct (Delete _ _ _) as [[e|] w']; [|apply write_once].
    destruct (errors_Is e ErrRecordNotFound); by apply other_once.
  - intros ValidateFilters title genres page pageSize sort v.
    unfold listMoviesHandler. cbn [listInput.Filters listInput.Title
                                    listInput.Genres].
    destruct (negb _); [by apply other_once|].
    unfold GetAll, sortColumn. cbn [Sort SortSafelist].
    case_bool_decide as Hsort; [|done]. simpl.
    destruct (QueryContext _ _ _) as [[rows|e] w']; [|by apply other_once].
    destruct (scan_movies _ _ _) as [[total movies]|e];
      [|by apply other_once].
    destruct (Rows_Err rows); [by apply other_once|apply write_once].
Qed.

(** ** Run-through examples of the compositions *)

Lemma row_history_example :
  consistent sample.db ∧ row_with_id 3 sample.db = Some (sample.row 3) ∧
  ∀ r1,
    row_with_id 3 (traffic sample.engine scenario.rival sample.db) = Some r1 →
    movies.version (sample.row 3) ≤ movies.version r1 ∧
    (movies.version r1 = movies.version (sample.row 3) → r1 = sample.row 3).
Proof.
  assert (row_with_id 3 sample.db = Some (sample.row 3)) as Hrow
    by (by vm_compute).
  split; [exact sample_consistent|]. split; [exact Hrow|].
  exact (proj1 (row_history sample.engine scenario.rival [] sample.db 3
                  (sample.row 3) sample_consistent Hrow)).
Defined.

Lemma Update_overwrites_what_was_read_example :
  consistent sample.db ∧
  (Get (pg_model sample.engine Healthy) 3 sample.db).1
  = (Some (movie_of_row (sample.row 3)), None) ∧
  (Update (pg_model sample.engine Healthy)
     (apply_edit scenario.change (movie_of_row (sample.row 3)))
     (traffic sample.engine scenario.rival
        (Get (pg_model sample.engine Healthy) 3 sample.db).2)).1.2
  = Some ErrEditConflict.
Proof.
  assert ((Get (pg_model sample.engine Healthy) 3 sample.db).1
          = (Some (movie_of_row (sample.row 3)), None)) as Hget
    by (by vm_compute).
  split; [exact sample_consistent|]. split; [exact Hget|].
  destruct (Update_overwrites_what_was_read sample.engine Healthy 3
              scenario.rival scenario.change sample.db
              (movie_of_row (sample.row 3)) sample_consistent Hget)
    as (_ & _ & Hchanged).
  apply Hchanged; [|reflexivity].
  apply (bool_decide_unpack _). by vm_compute.
Defined.

Lemma Insert_then_Get_example :
  consistent sample.db ∧
  (Insert (pg_model sample.engine Healthy) sample.movie sample.db).1.2 = None ∧
  (Get (pg_model sample.engine Healthy)
     (ID (Insert (pg_model sample.engine Healthy) sample.movie sample.db).1.1)
     (Insert (pg_model sample.engine Healthy) sample.movie sample.db).2).1
  = (Some (Insert (pg_model sample.engine Healthy) sample.movie
             sample.db).1.1, None).
Proof.
  assert ((Insert (pg_model sample.engine Healthy) sample.movie
             sample.db).1.2 = None) as Hok by (by vm_compute).
  split; [exact sample_consistent|]. split; [exact Hok|].
  exact (proj1 (proj2 (Insert_then_Get sample.engine Healthy sample.movie
                         sample.db sample_consistent Hok))).
Defined.

Lemma Update_then_Get_example :
  consistent sample.db ∧
  (Update (pg_model sample.engine Healthy) sample.movie sample.db).1.2 = None ∧
  ∃ r, row_with_id 3 sample.db = Some r ∧
    (Get (pg_model sample.engine Healthy) 3
       (Update (pg_model sample.engine Healthy) sample.movie sample.db).2).1
    = (Some (set_CreatedAt (movies.created_at r)
               (Update (pg_model sample.engine Healthy) sample.movie
                  sample.db).1.1), None).
Proof.
  assert ((Update (pg_model sample.engine Healthy) sample.movie
             sample.db).1.2 = None) as Hok by (by vm_compute).
  split; [exact sample_consistent|]. split; [exact Hok|].
  destruct (Update_then_Get sample.engine Healthy sample.movie sample.db
              sample_consistent Hok) as (r & Hr & Hget & _).
  exists r. split; [exact Hr|exact Hget].
Defined.

Lemma Delete_is_final_example :
  consistent sample.db ∧
  (Delete (pg_model sample.engine Healthy) 3 sample.db).1 = None ∧
  (Get (pg_model sample.engine Healthy) 3
     (traffic sample.engine scenario.rival
        (Delete (pg_model sample.engine Healthy) 3 sample.db).2)).1
  = (None, Some ErrRecordNotFound).
Proof.
  assert ((Delete (pg_model sample.engine Healthy) 3 sample.db).1 = None)
    as Hok by (by vm_compute).
  split; [exact sample_consistent|]. split; [exact Hok|].
  destruct (Delete_is_final sample.engine Healthy 3 scenario.rival sample.db
              sample_consistent Hok) as (_ & _ & Hget & _).
  exact Hget.
Defined.

Lemma Insert_keys_increase_example :
  consistent sample.db ∧
  (Insert (pg_model sample.engine Healthy) sample.movie sample.db).1.2 = None ∧
  (Insert (pg_model sample.engine Healthy) sample.movie
     (traffic sample.engine scenario.cleanup
        (Insert (pg_model sample.engine Healthy) sample.movie
           sample.db).2)).1.2 = None ∧
  ID (Insert (pg_model sample.engine Healthy) sample.movie sample.db).1.1
  < ID (Insert (pg_model sample.engine Healthy) sample.movie
          (traffic sample.engine scenario.cleanup
             (Insert (pg_model sample.engine Healthy) sample.movie
                sample.db).2)).1.1.
Proof.
  assert ((Insert (pg_model sample.engine Healthy) sample.movie
             sample.db).1.2 = None) as Hfirst by (by vm_compute).
  assert ((Insert (pg_model sample.engine Healthy) sample.movie
             (traffic sample.engine scenario.cleanup
                (Insert (pg_model sample.engine Healthy) sample.movie
                   sample.db).2)).1.2 = None) as Hsecond by (by vm_compute).
  split; [exact sample_consistent|]. split; [exact Hfirst|].
  split; [exact Hsecond|].
  exact (proj2 (proj2 (proj2
           (Insert_keys_increase sample.engine Healthy Healthy sample.movie
              sample.movie scenario.cleanup sample.db sample_consistent
              Hfirst Hsecond)))).
Defined.

Lemma GetAll_page_bound_example :
  consistent sample.db ∧
  ∃ movies metadata db',
    GetAll (pg_model sample.engine Healthy) EmptyString (Some [])
      (mkFilters 3 10 "-year" sample.safelist) sample.db
    = Some ((movies, metadata, None), db') ∧
    ∃ l, movies = Some l ∧ Z.of_nat (length l) ≤ 10.
Proof.
  split; [exact sample_consistent|]. do 3 eexists.
  assert (∀ run,
            run = GetAll (pg_model sample.engine Healthy) EmptyString
                    (Some []) (mkFilters 3 10 "-year" sample.safelist)
                    sample.db →
            ∀ movies metadata db',
              run = Some ((movies, metadata, None), db') →
              run = Some ((movies, metadata, None), db') ∧
              ∃ l, movies = Some l ∧ Z.of_nat (length l) ≤ 10) as Hrun.
  { intros run -> movies metadata db' Hsome. split; [exact Hsome|].
    destruct (GetAll_page_bound sample.engine Healthy EmptyString (Some [])
                (mkFilters 3 10 "-year" sample.safelist) sample.db movies
                metadata db' sample_consistent Hsome)
      as (l & Hl & Hlen & _).
    exists l. split; [exact Hl|exact Hlen]. }
  apply (Hrun _ eq_refl). vm_compute. reflexivity.
Defined.

(** ** Run-through examples of the handlers *)

Lemma createMovieHandler_created_example :
  consistent sample.db ∧ movies_id_seq sample.db ≤ int64_max ∧
  in_int32 (createInput.Runtime scenario.input) ∧
  validator.Valid
    (ValidateMovie 2026 validator.New (movie_of_input scenario.input)) = true ∧
  ∃ movie digits,
    (createMovieHandler 2026 (pg_app sample.engine Healthy)
       (Ok scenario.input) None sample.db).1
    = [writeJSON http_StatusCreated (envelope_movie (Some movie))
         [("Location", String.append "/v1/movies/" digits)]] ∧
    Z.of_int <$> NilZero.int_of_string digits = Some (ID movie) ∧
    ID movie = movies_id_seq sample.db.
Proof.
  assert (movies_id_seq sample.db ≤ int64_max) as Hseq by (by vm_compute).
  assert (in_int32 (createInput.Runtime scenario.input)) as Hruntime
    by (by vm_compute).
  assert (validator.Valid
            (ValidateMovie 2026 validator.New (movie_of_input scenario.input))
          = true) as Hvalid by (by vm_compute).
  split; [exact sample_consistent|]. split; [exact Hseq|].
  split; [exact Hruntime|]. split; [exact Hvalid|].
  destruct (createMovieHandler_created sample.engine 2026 scenario.input
              sample.db sample_consistent Hseq Hruntime Hvalid)
    as (movie & digits & Hres & Hdigits & Hid & _).
  exists movie, digits. split; [exact Hres|]. split; [exact Hdigits|exact Hid].
Defined.

Lemma createMovieHandler_answers_example :
  consistent sample.db ∧
  ∀ errors,
    failedValidationResponse errors
    ∈ (createMovieHandler 2026 (pg_app sample.engine Healthy)
         (Ok (createInput.mk EmptyString 2001 100 (Some ["comedy"]))) None
         sample.db).1 →
    errors ≠ ∅.
Proof.
  split; [exact sample_consistent|].
  exact (proj1 (proj2 (proj2
           (createMovieHandler_answers sample.engine Healthy 2026
              (Ok (createInput.mk EmptyString 2001 100 (Some ["comedy"])))
              None sample.db sample_consistent)))).
Defined.

Lemma showMovieHandler_answers_example :
  consistent sample.db ∧
  writeJSON http_StatusOK
    (envelope_movie (Some (movie_of_row (sample.row 3)))) []
  ∈ (showMovieHandler (pg_app sample.engine Healthy) (Ok 3) None sample.db).1.
Proof.
  assert (row_with_id 3 sample.db = Some (sample.row 3)) as Hrow
    by (by vm_compute).
  split; [exact sample_consistent|].
  destruct (showMovieHandler_answers sample.engine Healthy (Ok 3) None
              sample.db sample_consistent) as (_ & _ & _ & Hshown).
  exact (Hshown 3 (sample.row 3) eq_refl eq_refl Hrow).
Defined.

Lemma deleteMovieHandler_answers_example :
  consistent sample.db ∧
  (notFoundResponse
   ∈ (deleteMovieHandler (pg_app sample.engine Healthy) (Ok 30) None
        sample.db).1 →
   movies_table
     (deleteMovieHandler (pg_app sample.engine Healthy) (Ok 30) None
        sample.db).2
   = movies_table sample.db).
Proof.
  split; [exact sample_consistent|].
  exact (proj2 (proj2
           (deleteMovieHandler_answers sample.engine Healthy (Ok 30) None
              sample.db sample_consistent))).
Defined.

Lemma updateMovieHandler_all_fields_example :
  createInput.Genres scenario.input ≠ None ∧
  updateMovieHandler_full 2026 (pg_app sample.engine Healthy) (Ok 3)
    (Ok scenario.input) None sample.db
  = updateMovieHandler 2026 (pg_app sample.engine Healthy) (Ok 3)
      (Ok (all_fields scenario.input)) None sample.db.
Proof.
  assert (createInput.Genres scenario.input ≠ None) as Hg by discriminate.
  split; [exact Hg|].
  destruct (updateMovieHandler_all_fields 2026 (pg_app sample.engine Healthy)
              (Ok 3) scenario.input None sample.db Hg)
    as [Hsame|(w' & Hold & _)].
  - exact Hsame.
  - exfalso. revert Hold. vm_compute. discriminate.
Defined.

Lemma updateMovieHandler_patch_example :
  consistent sample.db ∧
  row_with_id 3 sample.db = Some (sample.row 3) ∧
  (∀ x, updateInput.Runtime scenario.body = Some x → in_int32 x) ∧
  movies.version (sample.row 3) < int32_max ∧
  validator.Valid
    (ValidateMovie 2026 validator.New
       (patch scenario.body (movie_of_row (sample.row 3)))) = true ∧
  ∃ db',
    updateMovieHandler 2026 (pg_app sample.engine Healthy) (Ok 3)
      (Ok scenario.body) None sample.db
    = Some ([writeJSON http_StatusOK
               (envelope_movie
                  (Some (movie_of_row
                           (patched_row scenario.body (sample.row 3)))))
               []], db') ∧
    row_with_id 3 db' = Some (patched_row scenario.body (sample.row 3)).
Proof.
  assert (row_with_id 3 sample.db = Some (sample.row 3)) as Hrow
    by (by vm_compute).
  assert (∀ x, updateInput.Runtime scenario.body = Some x → in_int32 x)
    as Hruntime by (intros x; discriminate).
  assert (movies.version (sample.row 3) < int32_max) as Hversion
    by (by vm_compute).
  assert (validator.Valid
            (ValidateMovie 2026 validator.New
               (patch scenario.body (movie_of_row (sample.row 3)))) = true)
    as Hvalid by (by vm_compute).
  split; [exact sample_consistent|]. split; [exact Hrow|].
  split; [exact Hruntime|]. split; [exact Hversion|]. split; [exact Hvalid|].
  destruct (updateMovieHandler_patch sample.engine 2026 3 (sample.row 3)
              scenario.body sample.db sample_consistent Hrow Hruntime
              Hversion Hvalid) as (db' & Hres & Hstored & _).
  exists db'. split; [exact Hres|exact Hstored].
Defined.

Lemma updateMovieHandler_answers_example :
  consistent sample.db ∧
  ∃ res,
    updateMovieHandler 2026 (pg_app sample.engine Healthy) (Ok 3)
      (Ok scenario.body) None sample.db = Some res ∧
    editConflictResponse ∉ res.1.
Proof.
  split; [exact sample_consistent|].
  destruct (updateMovieHandler_answers sample.engine Healthy 2026 (Ok 3)
              (Ok scenario.body) None sample.db sample_consistent)
    as (res & Hres & _ & _ & _ & Hno).
  exists res. split; [exact Hres|exact Hno].
Defined.

Lemma updateMovieHandler_conflict_example :
  consistent sample.db ∧
  row_with_id 3 sample.db = Some (sample.row 3) ∧
  validator.Valid
    (ValidateMovie 2026 validator.New
       (patch scenario.body (movie_of_row (sample.row 3)))) = true ∧
  ∃ db',
    updateMovieHandler 2026 (pg_app_shared sample.engine Healthy) (Ok 3)
      (Ok scenario.body) None (sample.db, [scenario.rival])
    = Some ([editConflictResponse], (db', [])).
Proof.
  assert (row_with_id 3 sample.db = Some (sample.row 3)) as Hrow
    by (by vm_compute).
  assert (validator.Valid
            (ValidateMovie 2026 validator.New
               (patch scenario.body (movie_of_row (sample.row 3)))) = true)
    as Hvalid by (by vm_compute).
  split; [exact sample_consistent|]. split; [exact Hrow|].
  split; [exact Hvalid|].
  destruct (updateMovieHandler_conflict sample.engine 2026 3 (sample.row 3)
              scenario.body None scenario.rival sample.db sample_consistent
              Hrow Hvalid) as [Hchanged _].
  destruct Hchanged as (db' & Hres & _).
  - apply (bool_decide_unpack _). by vm_compute.
  - exists db'. exact Hres.
Defined.

Lemma listMoviesHandler_lists_example :
  collation sample.engine ∧ consistent sample.db ∧
  validator.Valid
    ((λ v _, v) validator.New (mkFilters 3 10 "-year" SortSafelist_movies))
  = true ∧
  "-year" ∈ SortSafelist_movies ∧ 1 ≤ 3 ∧ 1 ≤ 10 ∧
  ∃ all rows metadata,
    StronglySorted (requested_before sample.engine "-year") all ∧
    all ≡ₚ matching sample.engine EmptyString (pq_Array (Some [])) sample.db ∧
    rows = take (Z.to_nat 10) (drop (Z.to_nat ((3 - 1) * 10)) all) ∧
    listMoviesHandler (pg_app sample.engine Healthy) (λ v _, v) EmptyString
      (Some []) 3 10 "-year" validator.New None sample.db
    = Some (write http_StatusOK
              (envelope_movies (Some (movie_of_row <$> rows)) metadata) []
              None
              (received
                 (list_statement EmptyString (Some [])
                    (mkFilters 3 10 "-year" SortSafelist_movies))
                 sample.db)).
Proof.
  assert (validator.Valid
            ((λ v _, v) validator.New
               (mkFilters 3 10 "-year" SortSafelist_movies)) = true)
    as Hvalid by (by vm_compute).
  assert ("-year" ∈ SortSafelist_movies) as Hsort
    by (apply (bool_decide_unpack _); by vm_compute).
  assert (1 ≤ 3) as Hpage by lia.
  assert (1 ≤ 10) as Hsize by lia.
  split; [exact sample_collation|]. split; [exact sample_consistent|].
  split; [exact Hvalid|]. split; [exact Hsort|]. split; [exact Hpage|].
  split; [exact Hsize|].
  destruct (listMoviesHandler_lists sample.engine (λ v _, v) EmptyString
              (Some []) 3 10 "-year" validator.New None sample.db
              sample_collation sample_consistent Hvalid Hsort Hpage Hsize)
    as (all & rows & metadata & Hperm & Hsorted & _ & Hrows & Hres & _).
  exists all, rows, metadata.
  split; [exact Hsorted|]. split; [exact Hperm|]. split; [exact Hrows|].
  exact Hres.
Defined.

Lemma GetAll_nil_genres_example :
  consistent sample.db ∧
  sort_resolves "-year" sample.safelist c_year true ∧ 1 ≤ 1 ∧ 1 ≤ 10 ∧
  GetAll (pg_model sample.engine Healthy) "Alpha" None
    (mkFilters 1 10 "-year" sample.safelist) sample.db
  = Some ((Some [], Metadata.zero, None),
          received
            (list_statement "Alpha" None
               (mkFilters 1 10 "-year" sample.safelist)) sample.db).
Proof.
  assert (1 ≤ 1) as Hpage by lia.
  assert (1 ≤ 10) as Hsize by lia.
  split; [exact sample_consistent|]. split; [exact sample_sort|].
  split; [exact Hpage|]. split; [exact Hsize|].
  exact (proj1 (GetAll_nil_genres sample.engine
                  (mkFilters 1 10 "-year" sample.safelist) c_year true
                  sample.db sample_consistent sample_sort Hpage Hsize)
               "Alpha").
Defined.
